(** * SpiceManager: kernel registry, coverage tables and estimation

    A shallow embedding of [src/util/spicemanager.cpp] (OpenSpace).  The
    manager keeps a reference-counted registry of loaded kernels, two coverage
    tables filled while kernels are loaded, and answers position and
    frame-transformation queries, estimating a value when a body has no data
    at the query time.

    The CSPICE toolkit is an external library: its primitives ([furnsh_c],
    [spkpos_c], [pxform_c], [bods2c_c], ...) are fields of the record
    [Toolkit]; its error flag ([failed_c] / [reset_c]) is part of the state,
    and so are the id cells of [findSpkCoverage] and [findCkCoverage], which
    are static and keep their ids from one call to the next.
    A C++ [double] is an IEEE 754 binary64 number, [spec_float] with
    precision 53 and maximal exponent 1024, rounded to nearest even.

    Beside the functions named above the file embeds [hasNaifId],
    [hasFrameId], [frameTransformationMatrix] and the string conversions of
    [FieldOfViewMethod] and [TerminatorType].

    Left out: logging, the change of the working directory around
    [furnsh_c], and the [ghoul_assert]s, which state preconditions and are
    compiled out of release builds.  Where the code goes on after a violated
    precondition into undefined behaviour (an end iterator dereferenced, a
    variable read before it was written, an [int] taken beyond its bounds)
    the outcome is [Undefined]. *)

From Stdlib Require Import ZArith Lia Bool Sorted SpecFloat.
From stdpp Require Import gmap strings list fin_maps.

Local Open Scope Z_scope.

(** ** IEEE 754 binary64 *)

Module Double.

Definition prec : Z := 53.
Definition emax : Z := 1024.

Abbreviation double := spec_float.

Definition add : double -> double -> double := SFadd prec emax.
Definition sub : double -> double -> double := SFsub prec emax.
Definition mul : double -> double -> double := SFmul prec emax.
Definition div : double -> double -> double := SFdiv prec emax.
Definition opp : double -> double := SFopp.

(** [operator<] and [operator>] on doubles: false as soon as one side is
    a NaN. *)
Definition ltb : double -> double -> bool := SFltb.
Definition gtb (x y : double) : bool :=
  match SFcompare x y with Some Gt => true | _ => false end.

(** The double nearest to an integer literal. *)
Definition of_Z (n : Z) : double := binary_normalize prec emax n 0 false.

Definition zero : double := S754_zero false.
Definition one : double := S754_finite false 4503599627370496 (-52).
Definition neg_one : double := S754_finite true 4503599627370496 (-52).
Definition half : double := S754_finite false 4503599627370496 (-53).

(** The values a C++ [double] can hold: [spec_float] also has finite
    triples that are no binary64 number. *)
Definition is_double (x : double) : Prop := valid_binary prec emax x = true.

End Double.

Import Double.

Declare Scope double_scope.
Delimit Scope double_scope with D.
Infix "+" := Double.add : double_scope.
Infix "-" := Double.sub : double_scope.
Infix "*" := Double.mul : double_scope.
Infix "/" := Double.div : double_scope.
Infix "<?" := Double.ltb : double_scope.
Infix ">?" := Double.gtb : double_scope.

(** ** glm vectors and matrices *)

Record dvec3 := Dvec3 { vx : double; vy : double; vz : double }.

(** [glm::dvec3(s)] *)
Definition dvec3_splat (s : double) : dvec3 := Dvec3 s s s.

(** [v * s] *)
Definition vscale (v : dvec3) (s : double) : dvec3 :=
  Dvec3 (vx v * s)%D (vy v * s)%D (vz v * s)%D.

(** [a + b] *)
Definition vadd (a b : dvec3) : dvec3 :=
  Dvec3 (vx a + vx b)%D (vy a + vy b)%D (vz a + vz b)%D.

(** [-v] *)
Definition vopp (v : dvec3) : dvec3 :=
  Dvec3 (Double.opp (vx v)) (Double.opp (vy v)) (Double.opp (vz v)).

(** [glm::dmat3] stores three columns. *)
Record dmat3 := Dmat3 { col0 : dvec3; col1 : dvec3; col2 : dvec3 }.

(** [glm::dmat3(s)]: [s] on the diagonal. *)
Definition dmat3_diag (s : double) : dmat3 :=
  Dmat3 (Dvec3 s zero zero) (Dvec3 zero s zero) (Dvec3 zero zero s).

Definition mscale (m : dmat3) (s : double) : dmat3 :=
  Dmat3 (vscale (col0 m) s) (vscale (col1 m) s) (vscale (col2 m) s).

Definition madd (a b : dmat3) : dmat3 :=
  Dmat3 (vadd (col0 a) (col0 b)) (vadd (col1 a) (col1 b)) (vadd (col2 a) (col2 b)).

(** [glm::transpose] *)
Definition transpose (m : dmat3) : dmat3 :=
  Dmat3 (Dvec3 (vx (col0 m)) (vx (col1 m)) (vx (col2 m)))
        (Dvec3 (vy (col0 m)) (vy (col1 m)) (vy (col2 m)))
        (Dvec3 (vz (col0 m)) (vz (col1 m)) (vz (col2 m))).

(** ** [std::set<double>]

    The elements in ascending order of [operator<], as an in-order walk of
    the tree gives them.  An iterator is a position in that sequence:
    [begin()] is [0], [end()] is the length. *)

Module DoubleSet.

Abbreviation t := (list double).

(** [s.insert(v)]: no effect when an equivalent element is present. *)
Fixpoint insert (v : double) (s : t) : t :=
  match s with
  | [] => [v]
  | e :: s' =>
      if (v <? e)%D then v :: s
      else if (e <? v)%D then e :: insert v s'
      else s
  end.

(** [s.lower_bound(x)]: the first element that is not less than [x]. *)
Fixpoint lower_bound (s : t) (x : double) : nat :=
  match s with
  | [] => 0%nat
  | e :: s' => if (e <? x)%D then S (lower_bound s' x) else 0%nat
  end.

(** [s.upper_bound(x)]: the first element that [x] is less than. *)
Fixpoint upper_bound (s : t) (x : double) : nat :=
  match s with
  | [] => 0%nat
  | e :: s' => if (x <? e)%D then 0%nat else S (upper_bound s' x)
  end.

Definition begin (s : t) : nat := 0%nat.
Definition end_ (s : t) : nat := length s.
(** [*it]; [None] when [it] is [end()]. *)
Definition deref (s : t) (it : nat) : option double := s !! it.
(** [*s.rbegin()] *)
Definition rbegin (s : t) : option double := last s.

(** [x < y] holds. *)
Definition lt (x y : double) : Prop := (x <? y)%D = true.

(** The invariant of [std::set]: the elements are strictly ascending. *)
Definition sorted (s : t) : Prop := StronglySorted lt s.

End DoubleSet.

(** ** Aberration corrections *)

Module AberrationCorrection.

(** Modelled from the spec: the enumerations [Type] and [Direction] are
    declared in spicemanager.h, which is not among the sources; their values
    are those the spec lists and the table and the conversion below name. *)
Inductive Type_ :=
| None_ | LightTime | LightTimeStellar
| ConvergedNewtonian | ConvergedNewtonianStellar.

Inductive Direction := Reception | Transmission.

Record t := Build { type : Type_; direction : Direction }.

(** The table of the constructor taking an identifier, in source order.
    [std::map::find] returns the entry of the key; the keys are distinct
    (see [Mapping_keys_distinct]). *)
Definition Mapping : list (string * (Type_ * Direction)) :=
  [ ("NONE",  (None_, Reception));
    ("LT",    (LightTime, Reception));
    ("LT+S",  (LightTimeStellar, Reception));
    ("CN",    (ConvergedNewtonian, Reception));
    ("CN+S",  (ConvergedNewtonianStellar, Reception));
    ("XLT",   (LightTime, Transmission));
    ("XLT+S", (LightTimeStellar, Transmission));
    ("XCN",   (ConvergedNewtonian, Transmission));
    ("XCN+S", (ConvergedNewtonianStellar, Transmission)) ]%string.

Fixpoint find (identifier : string) (m : list (string * (Type_ * Direction)))
  : option (Type_ * Direction) :=
  match m with
  | [] => None
  | (k, v) :: m' => if String.eqb k identifier then Some v else find identifier m'
  end.

(** [AberrationCorrection(const std::string& identifier)].  The two
    assertions make an empty or unknown identifier a programming error;
    without them the end iterator is dereferenced: [None]. *)
Definition of_identifier (identifier : string) : option t :=
  match find identifier Mapping with
  | Some (ty, d) => Some (Build ty d)
  | None => None
  end.

(** [operator const char*()] *)
Definition to_cstr (a : t) : string :=
  match type a with
  | None_ => "NONE"
  | LightTime =>
      match direction a with Reception => "LT" | Transmission => "XLT" end
  | LightTimeStellar =>
      match direction a with Reception => "LT+S" | Transmission => "XLT+S" end
  | ConvergedNewtonian =>
      match direction a with Reception => "CN" | Transmission => "XCN" end
  | ConvergedNewtonianStellar =>
      match direction a with Reception => "CN+S" | Transmission => "XCN+S" end
  end%string.

(** The nine short-codes. *)
Definition canonical_codes : list string :=
  ["NONE"; "LT"; "LT+S"; "CN"; "CN+S"; "XLT"; "XLT+S"; "XCN"; "XCN+S"]%string.

End AberrationCorrection.

(** ** The toolkit

    What the manager asks of CSPICE and of the file system.  A primitive that
    signals an error sets the toolkit's error flag and leaves its output
    arguments as they were: such a call is [None] here.  The error action is
    [REPORT], so a primitive runs whether or not the flag is already set. *)

Record Toolkit := {
  (** [absPath]: the canonical absolute form of a path *)
  absPath : string -> string;
  (** [std::filesystem::path::extension] *)
  extension : string -> string;
  (** [furnsh_c]: [true] when the file was loaded into the kernel pool *)
  furnsh_c : string -> bool;
  (** [bods2c_c]: the id written (indeterminate when not found) and [found] *)
  bods2c_c : string -> Z * bool;
  (** [namfrm_c]: the frame id, [0] when the name is unknown *)
  namfrm_c : string -> Z;
  (** [spkobj_c], [ckobj_c]: from the id cell handed in, the cell written,
      to which the ids the file has data for were added *)
  spkobj_c : string -> list Z -> option (list Z);
  ckobj_c : string -> list Z -> option (list Z);
  (** [spkcov_c], [ckcov_c]: the coverage window of an id in a file, as the
      intervals [wnfetd_c] fetches from it *)
  spkcov_c : string -> Z -> option (list (double * double));
  ckcov_c : string -> Z -> option (list (double * double));
  (** [spkpos_c targ et ref abcorr obs]: position and light time *)
  spkpos_c : string -> double -> string -> string -> string -> option (dvec3 * double);
  (** [pxform_c from to et]: the nine doubles written, read as a [glm::dmat3] *)
  pxform_c : string -> string -> double -> option dmat3;
}.

(** ** State *)

(** Modelled from the spec: [KernelHandle] is declared in spicemanager.h,
    which is not among the sources; the spec calls it an opaque non-zero
    integer identifier.  It is taken as an [unsigned int]: the assertion
    after [++_lastAssignedKernel] names its wrap-around to 0. *)
Abbreviation KernelHandle := Z.

(** [unsigned int] arithmetic *)
Definition uint_wrap (n : Z) : Z := n mod 2 ^ 32.
(** The bounds of [int]: arithmetic on an [int] has no defined behaviour
    beyond them. *)
Definition INT_MAX : Z := 2 ^ 31 - 1.
Definition INT_MIN : Z := - 2 ^ 31.

Module KernelInformation.
(** Modelled from the spec: the structure is declared in spicemanager.h; its
    fields are those of the spec's kernel record, in the order [loadKernel]
    initialises them ([{ path.string(), kernelId, 1 }]).  The reference
    count is taken as an [int]. *)
Record t := Build {
  path : string;      (* The path from which the kernel was loaded *)
  id : KernelHandle;  (* A unique identifier for each kernel *)
  refCount : Z;       (* How many parts loaded this kernel *)
}.
End KernelInformation.

Abbreviation intervals := (list (double * double)).

(** Modelled from the spec: the members are declared in spicemanager.h;
    these are the ones the functions below use, with the types their uses
    in spicemanager.cpp show. *)
Record SpiceManager := {
  _loadedKernels : list KernelInformation.t;
  _ckIntervals : gmap Z intervals;
  _spkIntervals : gmap Z intervals;
  _ckCoverageTimes : gmap Z DoubleSet.t;
  _spkCoverageTimes : gmap Z DoubleSet.t;
  _lastAssignedKernel : KernelHandle;
  _useExceptions : bool;
}.

(** Calls that change the toolkit's kernel pool. *)
Inductive PoolCall := Furnsh (path : string) | Unload (path : string).

Record World := {
  manager : SpiceManager;
  (** the toolkit's error flag, read by [failed_c] *)
  failed : bool;
  (** the pool calls made so far, oldest first *)
  poolCalls : list PoolCall;
  (** the id cells of [findSpkCoverage] and [findCkCoverage]: they are
      static, so a call finds in them what the call before left *)
  spkIds : list Z;
  ckIds : list Z;
}.

Inductive SpiceException :=
| SpiceError (errorMessage : string)      (* thrown by throwSpiceError *)
| NotLoaded (path : string)               (* unloadKernel of an unknown path *)
| NoNaifId (body : string)
| NoFrameId (frame : string)
| NoSpkCoverage (target observer : string) (et : double)
| NoPosition (target : string)
| NoTransform (fromFrame toFrame : string).

(** How a call ends: it returns, it throws, or it has no defined behaviour
    (an end iterator dereferenced, an uninitialised variable read). *)
Inductive Outcome (A : Type) :=
| Returned (a : A)
| Thrown (e : SpiceException)
| Undefined.
Arguments Returned {A} a.
Arguments Thrown {A} e.
Arguments Undefined {A}.

Definition Outcome_bind {A B} (o : Outcome A) (k : A -> Outcome B) : Outcome B :=
  match o with
  | Returned a => k a
  | Thrown e => Thrown e
  | Undefined => Undefined
  end.

Definition Outcome_map {A B} (f : A -> B) (o : Outcome A) : Outcome B :=
  match o with
  | Returned a => Returned (f a)
  | Thrown e => Thrown e
  | Undefined => Undefined
  end.

(** A member function that may change the manager or the toolkit. *)
Definition M (A : Type) : Type := World -> Outcome A * World.

Definition ret {A} (a : A) : M A := fun w => (Returned a, w).
Definition throw {A} (e : SpiceException) : M A := fun w => (Thrown e, w).
Definition undefined {A} : M A := fun w => (Undefined, w).
Definition bind {A B} (c : M A) (k : A -> M B) : M B :=
  fun w =>
    match c w with
    | (Returned a, w') => k a w'
    | (Thrown e, w') => (Thrown e, w')
    | (Undefined, w') => (Undefined, w')
    end.
(** A [const] member that leaves the toolkit alone. *)
Definition lift {A} (f : SpiceManager -> Outcome A) : M A :=
  fun w => (f (manager w), w).
Definition get_manager : M SpiceManager := fun w => (Returned (manager w), w).
Definition put_manager (m : SpiceManager) : M unit :=
  fun w => (Returned tt, {| manager := m; failed := failed w; poolCalls := poolCalls w;
       spkIds := spkIds w; ckIds := ckIds w |}).
Definition deref_or_undefined {A} (o : option A) : M A :=
  match o with Some a => ret a | None => undefined end.

Notation "'let*' x ':=' c 'in' k" := (bind c (fun x => k))
  (at level 10, x pattern, c at level 100, k at level 200).
Notation "c ;;; k" := (bind c (fun _ => k))
  (at level 100, right associativity).

(** [failed_c()] *)
Definition failed_c : M bool := fun w => (Returned (failed w), w).
(** [reset_c()] *)
Definition reset_c : M unit :=
  fun w => (Returned tt, {| manager := manager w; failed := false;
                            poolCalls := poolCalls w;
                            spkIds := spkIds w; ckIds := ckIds w |}).
(** a primitive signalling an error *)
Definition signal : M unit :=
  fun w => (Returned tt, {| manager := manager w; failed := true;
                            poolCalls := poolCalls w;
                            spkIds := spkIds w; ckIds := ckIds w |}).
Definition record_call (c : PoolCall) : M unit :=
  fun w => (Returned tt, {| manager := manager w; failed := failed w;
                            poolCalls := poolCalls w ++ [c];
                            spkIds := spkIds w; ckIds := ckIds w |}).

(** Call a primitive whose output buffer holds [buffer]: the value written,
    or the buffer untouched and the error flag set. *)
Definition call {A} (primitive : option A) (buffer : A) : M A :=
  match primitive with
  | Some a => ret a
  | None => signal ;;; ret buffer
  end.

(** [throwSpiceError]: with exception handling on, fetch the message, reset
    the flag and throw; otherwise only reset the flag. *)
Definition throwSpiceError (errorMessage : string) : M unit :=
  let* m := get_manager in
  if _useExceptions m then reset_c ;;; throw (SpiceError errorMessage)
  else reset_c.

(** [if (failed_c()) { throwSpiceError(msg); }] *)
Definition check_failed (errorMessage : string) : M unit :=
  let* f := failed_c in
  if f then throwSpiceError errorMessage else ret tt.

(** Field updates of the manager. *)
Definition set_loadedKernels (ks : list KernelInformation.t) (m : SpiceManager) :=
  {| _loadedKernels := ks;
     _ckIntervals := _ckIntervals m; _spkIntervals := _spkIntervals m;
     _ckCoverageTimes := _ckCoverageTimes m;
     _spkCoverageTimes := _spkCoverageTimes m;
     _lastAssignedKernel := _lastAssignedKernel m;
     _useExceptions := _useExceptions m |}.

Definition set_lastAssignedKernel (h : KernelHandle) (m : SpiceManager) :=
  {| _loadedKernels := _loadedKernels m;
     _ckIntervals := _ckIntervals m; _spkIntervals := _spkIntervals m;
     _ckCoverageTimes := _ckCoverageTimes m;
     _spkCoverageTimes := _spkCoverageTimes m;
     _lastAssignedKernel := h;
     _useExceptions := _useExceptions m |}.

Definition set_spk (ivs : gmap Z intervals) (times : gmap Z DoubleSet.t)
    (m : SpiceManager) :=
  {| _loadedKernels := _loadedKernels m;
     _ckIntervals := _ckIntervals m; _spkIntervals := ivs;
     _ckCoverageTimes := _ckCoverageTimes m;
     _spkCoverageTimes := times;
     _lastAssignedKernel := _lastAssignedKernel m;
     _useExceptions := _useExceptions m |}.

Definition set_ck (ivs : gmap Z intervals) (times : gmap Z DoubleSet.t)
    (m : SpiceManager) :=
  {| _loadedKernels := _loadedKernels m;
     _ckIntervals := ivs; _spkIntervals := _spkIntervals m;
     _ckCoverageTimes := times;
     _spkCoverageTimes := _spkCoverageTimes m;
     _lastAssignedKernel := _lastAssignedKernel m;
     _useExceptions := _useExceptions m |}.

(** [setExceptionHandling] *)
Definition setExceptionHandling (useException : bool) (m : SpiceManager) :=
  {| _loadedKernels := _loadedKernels m;
     _ckIntervals := _ckIntervals m; _spkIntervals := _spkIntervals m;
     _ckCoverageTimes := _ckCoverageTimes m;
     _spkCoverageTimes := _spkCoverageTimes m;
     _lastAssignedKernel := _lastAssignedKernel m;
     _useExceptions := useException |}.

(** [std::find_if]: the position of the first element satisfying [pred],
    the length (the end iterator) when there is none. *)
Fixpoint find_if {A} (pred : A -> bool) (l : list A) : nat :=
  match l with
  | [] => 0%nat
  | a :: l' => if pred a then 0%nat else S (find_if pred l')
  end.

(** The loop of [hasSpkCoverage] and [hasCkCoverage] over the intervals of
    an id: both bounds are tested strictly. *)
Fixpoint inside_some_interval (intervalVector : intervals) (et : double) : bool :=
  match intervalVector with
  | [] => false
  | vecElement :: rest =>
      if (vecElement.1 <? et)%D && (vecElement.2 >? et)%D then true
      else inside_some_interval rest et
  end.

(** ** Member functions *)

Section Members.

Variable tk : Toolkit.

(** *** Name resolution *)

(** When the body is not found [bods2c_c] does not write [id]: with
    exception handling off the variable is returned as it was declared,
    never written. *)
Definition naifId (body : string) (m : SpiceManager) : Outcome Z :=
  let '(id, success) := bods2c_c tk body in
  if negb success && _useExceptions m then Thrown (NoNaifId body)
  else if success then Returned id
  else Undefined.

Definition frameId (frame : string) (m : SpiceManager) : Outcome Z :=
  let id := namfrm_c tk frame in
  if (id =? 0) && _useExceptions m then Thrown (NoFrameId frame)
  else Returned id.

(** *** Coverage queries *)

Definition hasSpkCoverage (target : string) (et : double) (m : SpiceManager)
  : Outcome bool :=
  Outcome_bind (naifId target m) (fun id =>
  (* SOLAR SYSTEM BARYCENTER special case, implicitly included by Spice *)
  if id =? 0 then Returned true
  else
    match _spkIntervals m !! id with
    | Some intervalVector => Returned (inside_some_interval intervalVector et)
    | None => Returned false
    end).

Definition spkCoverage (target : string) (m : SpiceManager) : Outcome intervals :=
  Outcome_bind (naifId target m) (fun id =>
  match _spkIntervals m !! id with
  | Some l => Returned l
  | None => Returned []
  end).

Definition hasCkCoverage (frame : string) (et : double) (m : SpiceManager)
  : Outcome bool :=
  Outcome_bind (frameId frame m) (fun id =>
  match _ckIntervals m !! id with
  | Some intervalVector => Returned (inside_some_interval intervalVector et)
  | None => Returned false
  end).

Definition ckCoverage (target : string) (m : SpiceManager) : Outcome intervals :=
  Outcome_bind (naifId target m) (fun id =>
  match _ckIntervals m !! id with
  | Some l => Returned l
  | None =>
      (* [id *= 1000] on an [int] *)
      if (INT_MIN <=? id * 1000) && (id * 1000 <=? INT_MAX) then
        let id := id * 1000 in
        match _ckIntervals m !! id with
        | Some l => Returned l
        | None => Returned []
        end
      else Undefined
  end).

Definition loadedKernels (m : SpiceManager) : list string :=
  map KernelInformation.path (_loadedKernels m).

(** *** Coverage indexing *)

(** The body of the innermost loop of [findSpkCoverage]. *)
Definition insert_spk (obj : Z) (b e : double) : M unit :=
  let* m := get_manager in
  let times := DoubleSet.insert b (DoubleSet.insert e
                 (default [] (_spkCoverageTimes m !! obj))) in
  let ivs := default [] (_spkIntervals m !! obj) ++ [(b, e)] in
  put_manager (set_spk (<[obj := ivs]> (_spkIntervals m))
                       (<[obj := times]> (_spkCoverageTimes m)) m).

Definition insert_ck (frame : Z) (b e : double) : M unit :=
  let* m := get_manager in
  let times := DoubleSet.insert b (DoubleSet.insert e
                 (default [] (_ckCoverageTimes m !! frame))) in
  let ivs := default [] (_ckIntervals m !! frame) ++ [(b, e)] in
  put_manager (set_ck (<[frame := ivs]> (_ckIntervals m))
                      (<[frame := times]> (_ckCoverageTimes m)) m).

(** The loop over the intervals of one coverage window. *)
Fixpoint fetch_intervals (msg : string) (ins : double -> double -> M unit)
    (cover : intervals) : M unit :=
  match cover with
  | [] => ret tt
  | (b, e) :: rest =>
      check_failed msg ;;;
      ins b e ;;;
      fetch_intervals msg ins rest
  end.

(** The loop over the ids of the file. *)
Fixpoint scan_objects (msg : string) (cov : Z -> option intervals)
    (ins : Z -> double -> double -> M unit) (ids : list Z) : M unit :=
  match ids with
  | [] => ret tt
  | obj :: rest =>
      let* cover := call (cov obj) [] in
      check_failed msg ;;;
      fetch_intervals msg (ins obj) cover ;;;
      scan_objects msg cov ins rest
  end.

(** [ckobj_c(path, &ids)] and [spkobj_c(path, &ids)].  The cell [ids] is
    static: the toolkit adds the ids of the file to what earlier calls left
    in it, and the loop runs over all of them.  After a failure the cell is
    as it was and the error flag is set. *)
Definition ckobj_on_cell (path : string) : M (list Z) :=
  fun w =>
    match ckobj_c tk path (ckIds w) with
    | Some ids =>
        (Returned ids,
         {| manager := manager w; failed := failed w; poolCalls := poolCalls w;
            spkIds := spkIds w; ckIds := ids |})
    | None =>
        (Returned (ckIds w),
         {| manager := manager w; failed := true; poolCalls := poolCalls w;
            spkIds := spkIds w; ckIds := ckIds w |})
    end.

Definition spkobj_on_cell (path : string) : M (list Z) :=
  fun w =>
    match spkobj_c tk path (spkIds w) with
    | Some ids =>
        (Returned ids,
         {| manager := manager w; failed := failed w; poolCalls := poolCalls w;
            spkIds := ids; ckIds := ckIds w |})
    | None =>
        (Returned (spkIds w),
         {| manager := manager w; failed := true; poolCalls := poolCalls w;
            spkIds := spkIds w; ckIds := ckIds w |})
    end.

Definition findCkCoverage (path : string) : M unit :=
  let* ids := ckobj_on_cell path in
  check_failed "Error finding Ck Coverage" ;;;
  scan_objects "Error finding Ck Coverage" (ckcov_c tk path) insert_ck ids.

Definition findSpkCoverage (path : string) : M unit :=
  let* ids := spkobj_on_cell path in
  check_failed "Error finding Spk ID for coverage" ;;;
  scan_objects "Error finding Spk coverage" (spkcov_c tk path) insert_spk ids.

(** *** Kernel registry *)

(** [it->refCount++] and [it->refCount--], within the bounds of [int]. *)
Definition incr_refCount (i : KernelInformation.t) : KernelInformation.t :=
  KernelInformation.Build (KernelInformation.path i) (KernelInformation.id i)
    (KernelInformation.refCount i + 1).

Definition decr_refCount (i : KernelInformation.t) : KernelInformation.t :=
  KernelInformation.Build (KernelInformation.path i) (KernelInformation.id i)
    (KernelInformation.refCount i - 1).

(** [info.path == path]: both sides come from [absPath], and are compared
    as text. *)
Definition has_path (path : string) (info : KernelInformation.t) : bool :=
  String.eqb (KernelInformation.path info) path.

Definition has_id (kernelId : KernelHandle) (info : KernelInformation.t) : bool :=
  KernelInformation.id info =? kernelId.

Definition is_coverage_extension (fileExtension lower upper : string) : bool :=
  String.eqb fileExtension lower || String.eqb fileExtension upper.

Definition loadKernel (filePath : string) : M KernelHandle :=
  let path := absPath tk filePath in
  let* m := get_manager in
  let it := find_if (has_path path) (_loadedKernels m) in
  match _loadedKernels m !! it with
  | Some info =>
      if KernelInformation.refCount info =? INT_MAX then undefined
      else
        put_manager
          (set_loadedKernels (alter incr_refCount it (_loadedKernels m)) m) ;;;
        ret (KernelInformation.id info)
  | None =>
      (* Load the kernel *)
      record_call (Furnsh path) ;;;
      (if furnsh_c tk path then ret tt else signal) ;;;
      check_failed "Kernel loading" ;;;
      let fileExtension := extension tk path in
      (if is_coverage_extension fileExtension ".bc" ".BC"
       then findCkCoverage path      (* binary ck kernel *)
       else if is_coverage_extension fileExtension ".bsp" ".BSP"
       then findSpkCoverage path     (* binary spk kernel *)
       else ret tt) ;;;
      let* m := get_manager in
      let kernelId := uint_wrap (_lastAssignedKernel m + 1) in
      put_manager (set_lastAssignedKernel kernelId
        (set_loadedKernels
           (_loadedKernels m ++ [KernelInformation.Build path kernelId 1]) m)) ;;;
      ret kernelId
  end.

(** The two branches shared by both overloads of [unloadKernel], once the
    record is found at position [it]. *)
Definition release (it : nat) (info : KernelInformation.t) (path : string)
  : M unit :=
  let* m := get_manager in
  (* If there was only one part interested in the kernel, we can unload it *)
  if KernelInformation.refCount info =? 1 then
    record_call (Unload path) ;;;
    put_manager (set_loadedKernels (delete it (_loadedKernels m)) m)
  (* Otherwise, we hold on to it, but reduce the reference counter by 1 *)
  else if KernelInformation.refCount info =? INT_MIN then undefined
  else
    put_manager (set_loadedKernels (alter decr_refCount it (_loadedKernels m)) m).

(** [unloadKernel(KernelHandle kernelId)] *)
Definition unloadKernel (kernelId : KernelHandle) : M unit :=
  let* m := get_manager in
  let it := find_if (has_id kernelId) (_loadedKernels m) in
  match _loadedKernels m !! it with
  | Some info => release it info (KernelInformation.path info)
  | None => ret tt
  end.

(** [unloadKernel(std::string filePath)] *)
Definition unloadKernel_path (filePath : string) : M unit :=
  let path := absPath tk filePath in
  let* m := get_manager in
  let it := find_if (has_path path) (_loadedKernels m) in
  match _loadedKernels m !! it with
  | None =>
      if _useExceptions m then throw (NotLoaded path) else ret tt
  | Some info => release it info path
  end.

(** *** Estimation *)

(** [a * (1.0 - t) + b * t] *)
Definition lerp (a b t : double) : double :=
  (a * (one - t) + b * t)%D.
Definition vlerp (a b : dvec3) (t : double) : dvec3 :=
  vadd (vscale a (one - t)%D) (vscale b t).
Definition mlerp (a b : dmat3) (t : double) : dmat3 :=
  madd (mscale a (one - t)%D) (mscale b t).

(** A call whose output variables are not initialised: [None] after a
    signalled error. *)
Definition call_uninit {A} (primitive : option A) : M (option A) :=
  match primitive with
  | Some a => ret (Some a)
  | None => signal ;;; ret None
  end.

Definition getEstimatedPosition (target observer referenceFrame : string)
    (aberrationCorrection : AberrationCorrection.t)
    (ephemerisTime lightTime : double) : M (dvec3 * double) :=
  let* targetId := lift (naifId target) in
  if targetId =? 0 then
    (* SOLAR SYSTEM BARYCENTER special case, no definition in kernels *)
    ret (dvec3_splat zero, lightTime)
  else
  let* m := get_manager in
  match _spkCoverageTimes m !! targetId with
  | None =>
      if _useExceptions m then throw (NoPosition target)
      else ret (dvec3_splat zero, lightTime)
  | Some coveredTimes =>
      let abcorr := AberrationCorrection.to_cstr aberrationCorrection in
      let pos := dvec3_splat zero in
      if Nat.eqb (DoubleSet.lower_bound coveredTimes ephemerisTime)
                 (DoubleSet.begin coveredTimes) then
        (* coverage later, fetch first position *)
        let* first :=
          deref_or_undefined
            (DoubleSet.deref coveredTimes (DoubleSet.begin coveredTimes)) in
        let* r := call (spkpos_c tk target first referenceFrame abcorr observer)
                       (pos, lightTime) in
        check_failed "Error estimating position" ;;;
        ret r
      else if Nat.eqb (DoubleSet.upper_bound coveredTimes ephemerisTime)
                      (DoubleSet.end_ coveredTimes) then
        (* coverage earlier, fetch last position *)
        let* last := deref_or_undefined (DoubleSet.rbegin coveredTimes) in
        let* r := call (spkpos_c tk target last referenceFrame abcorr observer)
                       (pos, lightTime) in
        check_failed "Error estimating position" ;;;
        ret r
      else
        (* coverage both earlier and later, interpolate these positions *)
        let* timeEarlier :=
          deref_or_undefined
            (DoubleSet.deref coveredTimes
               (Nat.pred (DoubleSet.lower_bound coveredTimes ephemerisTime))) in
        let* earlier :=
          call_uninit (spkpos_c tk target timeEarlier referenceFrame abcorr observer) in
        let* timeLater :=
          deref_or_undefined
            (DoubleSet.deref coveredTimes
               (DoubleSet.upper_bound coveredTimes ephemerisTime)) in
        let* later :=
          call_uninit (spkpos_c tk target timeLater referenceFrame abcorr observer) in
        check_failed "Error estimating position" ;;;
        match earlier, later with
        | Some (posEarlier, ltEarlier), Some (posLater, ltLater) =>
            (* linear interpolation *)
            let t := ((ephemerisTime - timeEarlier) / (timeLater - timeEarlier))%D in
            ret (vlerp posEarlier posLater t, lerp ltEarlier ltLater t)
        | _, _ =>
            (* ltEarlier or ltLater is read but was never written *)
            undefined
        end
  end.

Definition getEstimatedTransformMatrix (fromFrame toFrame : string)
    (time : double) : M dmat3 :=
  let result := dmat3_diag one in
  let* idFrame := lift (frameId fromFrame) in
  let* m := get_manager in
  match _ckCoverageTimes m !! idFrame with
  | None =>
      if _useExceptions m then throw (NoTransform fromFrame toFrame)
      else ret (dmat3_diag one)
  | Some coveredTimes =>
      if Nat.eqb (DoubleSet.lower_bound coveredTimes time)
                 (DoubleSet.begin coveredTimes) then
        (* coverage later, fetch first transform *)
        let* first :=
          deref_or_undefined
            (DoubleSet.deref coveredTimes (DoubleSet.begin coveredTimes)) in
        let* result := call (pxform_c tk fromFrame toFrame first) result in
        check_failed "Error estimating transform matrix" ;;;
        ret result
      else if Nat.eqb (DoubleSet.upper_bound coveredTimes time)
                      (DoubleSet.end_ coveredTimes) then
        (* coverage earlier, fetch last transform *)
        let* last := deref_or_undefined (DoubleSet.rbegin coveredTimes) in
        let* result := call (pxform_c tk fromFrame toFrame last) result in
        check_failed "Error estimating transform matrix" ;;;
        ret result
      else
        (* coverage both earlier and later, interpolate these transformations *)
        let* earlier :=
          deref_or_undefined
            (DoubleSet.deref coveredTimes
               (Nat.pred (DoubleSet.lower_bound coveredTimes time))) in
        let* later :=
          deref_or_undefined
            (DoubleSet.deref coveredTimes (DoubleSet.upper_bound coveredTimes time)) in
        let* earlierTransform :=
          call (pxform_c tk fromFrame toFrame earlier) (dmat3_diag one) in
        check_failed "Error estimating transform matrix" ;;;
        let* laterTransform :=
          call (pxform_c tk fromFrame toFrame later) (dmat3_diag one) in
        check_failed "Error estimating transform matrix" ;;;
        let t := ((time - earlier) / (later - earlier))%D in
        ret (mlerp earlierTransform laterTransform t)
  end.

(** *** Queries *)

Definition targetPosition (target observer referenceFrame : string)
    (aberrationCorrection : AberrationCorrection.t)
    (ephemerisTime lightTime : double) : M (dvec3 * double) :=
  let* targetHasCoverage := lift (hasSpkCoverage target ephemerisTime) in
  let* observerHasCoverage := lift (hasSpkCoverage observer ephemerisTime) in
  if negb targetHasCoverage && negb observerHasCoverage then
    let* m := get_manager in
    if _useExceptions m then
      throw (NoSpkCoverage target observer ephemerisTime)
    else ret (dvec3_splat zero, lightTime)
  else if targetHasCoverage && observerHasCoverage then
    let* r := call (spkpos_c tk target ephemerisTime referenceFrame
                      (AberrationCorrection.to_cstr aberrationCorrection) observer)
                   (dvec3_splat zero, lightTime) in
    check_failed "Error getting position" ;;;
    ret r
  else if targetHasCoverage then
    (* observer has no coverage *)
    let* r := getEstimatedPosition observer target referenceFrame
                aberrationCorrection ephemerisTime lightTime in
    ret (vscale r.1 neg_one, r.2)
  else
    (* target has no coverage *)
    getEstimatedPosition target observer referenceFrame
      aberrationCorrection ephemerisTime lightTime.

Definition positionTransformMatrix (sourceFrame destinationFrame : string)
    (ephemerisTime : double) : M dmat3 :=
  let result := dmat3_diag one in
  let* result := call (pxform_c tk sourceFrame destinationFrame ephemerisTime)
                      result in
  check_failed "" ;;;
  let* f := failed_c in
  let success := negb f in
  reset_c ;;;
  let* result :=
    (if negb success then
       getEstimatedTransformMatrix sourceFrame destinationFrame ephemerisTime
     else ret result) in
  ret (transpose result).

End Members.

(** ** Further member functions *)

(** Modelled from the spec: the enumeration [FieldOfViewMethod] is declared
    in spicemanager.h; its values are the cases of [toString]. *)
Module FieldOfViewMethod.

Inductive t := Ellipsoid | Point.

(** [toString(FieldOfViewMethod)] *)
Definition toString (m : t) : string :=
  match m with
  | Ellipsoid => "ELLIPSOID"
  | Point => "POINT"
  end%string.

Definition Mapping : list (string * t) :=
  [ ("ELLIPSOID", Ellipsoid); ("POINT", Point) ]%string.

End FieldOfViewMethod.

(** Modelled from the spec: the enumeration [TerminatorType] is declared in
    spicemanager.h; its values are the cases of [toString]. *)
Module TerminatorType.

Inductive t := Umbral | Penumbral.

(** [toString(TerminatorType)] *)
Definition toString (t : t) : string :=
  match t with
  | Umbral => "UMBRAL"
  | Penumbral => "PENUMBRAL"
  end%string.

Definition Mapping : list (string * t) :=
  [ ("UMBRAL", Umbral); ("PENUMBRAL", Penumbral) ]%string.

End TerminatorType.

(** [std::map::at]: the value of the key, [None] when it throws
    [std::out_of_range]. *)
Fixpoint map_at {V} (key : string) (m : list (string * V)) : option V :=
  match m with
  | [] => None
  | (k, v) :: m' => if String.eqb k key then Some v else map_at key m'
  end.

(** [fieldOfViewMethodFromString] *)
Definition fieldOfViewMethodFromString (method : string)
  : option FieldOfViewMethod.t :=
  map_at method FieldOfViewMethod.Mapping.

(** [terminatorTypeFromString] *)
Definition terminatorTypeFromString (type : string) : option TerminatorType.t :=
  map_at type TerminatorType.Mapping.

Section FurtherMembers.

Variable tk : Toolkit.

(** [hasNaifId]: the flag [bods2c_c] reports, after a [reset_c]. *)
Definition hasNaifId (body : string) : M bool :=
  let '(id, success) := bods2c_c tk body in
  reset_c ;;; ret success.

Definition hasFrameId (frame : string) : bool :=
  let id := namfrm_c tk frame in
  negb (id =? 0).

Definition frameTransformationMatrix (from to : string) (ephemerisTime : double)
  : M dmat3 :=
  (* get rotation matrix from frame A - frame B *)
  let transform := dmat3_diag one in
  let* transform := call (pxform_c tk from to ephemerisTime) transform in
  check_failed "Error converting" ;;;
  (* The rox-major, column-major order are switched in GLM and SPICE, so we
     have to transpose the matrix before we can return it *)
  ret (transpose transform).

End FurtherMembers.

(** ** A small toolkit to run the functions on

    One probe (id -98) whose file declares coverage on [100, 200], the Sun
    (id 10) and the solar system barycenter (id 0).  The probe's position at
    time [et] is [(et, et, et)] with light time [et]; no rotation is ever
    available. *)

Module Demo.

Definition bods2c (body : string) : Z * bool :=
  if String.eqb body "PROBE" then (-98, true)
  else if String.eqb body "SUN" then (10, true)
  else if String.eqb body "SSB" then (0, true)
  else (0, false).

Definition namfrm (frame : string) : Z :=
  if String.eqb frame "PROBE_FRAME" then -98000
  else if String.eqb frame "J2000" then 1
  else 0.

Definition quarter_turn : dmat3 :=
  Dmat3 (Dvec3 zero one zero) (Dvec3 neg_one zero zero) (Dvec3 zero zero one).

(** A cell of the toolkit holds a set of ids in ascending order; the ids
    of a file are added to it. *)
Fixpoint add_id (x : Z) (cell : list Z) : list Z :=
  match cell with
  | [] => [x]
  | y :: rest =>
      if x <? y then x :: cell
      else if y <? x then y :: add_id x rest
      else cell
  end.

Definition add_ids (ids cell : list Z) : list Z := foldr add_id cell ids.

(** The extension of the two file names used below. *)
Definition extension_of (p : string) : string :=
  if String.eqb p "probe.bsp" || String.eqb p "broken.bsp"
  then ".bsp"%string else ""%string.

Definition toolkit : Toolkit := {|
  absPath := fun p => p;
  extension := extension_of;
  furnsh_c := fun p => String.eqb p "probe.bsp";
  bods2c_c := bods2c;
  namfrm_c := namfrm;
  spkobj_c := fun p cell =>
    if String.eqb p "probe.bsp" then Some (add_ids [-98] cell) else None;
  ckobj_c := fun _ _ => None;
  spkcov_c := fun p obj =>
    if String.eqb p "probe.bsp" && (obj =? -98)
    then Some [(of_Z 100, of_Z 200)] else None;
  ckcov_c := fun _ _ => None;
  spkpos_c := fun targ et _ _ _ =>
    if String.eqb targ "PROBE" then Some (Dvec3 et et et, et) else None;
  pxform_c := fun _ _ et =>
    if SFeqb et (of_Z 100) then Some quarter_turn else None;
|}.

Definition manager0 (useExceptions : bool) : SpiceManager := {|
  _loadedKernels := [];
  _ckIntervals := ∅; _spkIntervals := ∅;
  _ckCoverageTimes := ∅; _spkCoverageTimes := ∅;
  _lastAssignedKernel := 0;
  _useExceptions := useExceptions |}.

Definition world0 (useExceptions : bool) : World :=
  {| manager := manager0 useExceptions; failed := false; poolCalls := [];
     spkIds := []; ckIds := [] |}.

(** The manager after the probe's kernel was indexed. *)
Definition probe_manager (useExceptions : bool) : SpiceManager :=
  set_spk {[ -98 := [(of_Z 100, of_Z 200)] ]}
          {[ -98 := [of_Z 100; of_Z 200] ]} (manager0 useExceptions).

Definition probe_world (useExceptions : bool) : World :=
  {| manager := probe_manager useExceptions; failed := false; poolCalls := [];
     spkIds := [-98]; ckIds := [] |}.

(** The manager after a CK file covering [100, 200] for the probe's
    frame was indexed. *)
Definition frame_world (useExceptions : bool) : World :=
  {| manager := set_ck {[ -98000 := [(of_Z 100, of_Z 200)] ]}
                       {[ -98000 := [of_Z 100; of_Z 200] ]}
                       (manager0 useExceptions);
     failed := false; poolCalls := []; spkIds := []; ckIds := [-98000] |}.

End Demo.

(** ** Two more scenarios *)

Module Scenario.

(** The probe covered by two files whose windows meet at 200. *)
Definition junction_world (useExceptions : bool) : World :=
  {| manager :=
       set_spk {[ -98 := [(of_Z 100, of_Z 200); (of_Z 200, of_Z 300)] ]}
               {[ -98 := [of_Z 100; of_Z 200; of_Z 300] ]}
               (Demo.manager0 useExceptions);
     failed := false; poolCalls := []; spkIds := [-98]; ckIds := [] |}.

(** A toolkit that loads every file and cannot read the ids of any. *)
Definition unreadable_toolkit : Toolkit := {|
  absPath := absPath Demo.toolkit;
  extension := extension Demo.toolkit;
  furnsh_c := fun _ => true;
  bods2c_c := bods2c_c Demo.toolkit;
  namfrm_c := namfrm_c Demo.toolkit;
  spkobj_c := fun _ _ => None;
  ckobj_c := fun _ _ => None;
  spkcov_c := spkcov_c Demo.toolkit;
  ckcov_c := ckcov_c Demo.toolkit;
  spkpos_c := spkpos_c Demo.toolkit;
  pxform_c := pxform_c Demo.toolkit;
|}.

(** Two files.  The probe's file as before, and a relay's file, which
    lists the id -77 with the window [0, 50] and answers a request for the
    probe's id with the window [300, 400]. *)
Definition two_files : Toolkit := {|
  absPath := absPath Demo.toolkit;
  extension := fun _ => ".bsp"%string;
  furnsh_c := fun p => String.eqb p "probe.bsp" || String.eqb p "relay.bsp";
  bods2c_c := bods2c_c Demo.toolkit;
  namfrm_c := namfrm_c Demo.toolkit;
  spkobj_c := fun p cell =>
    if String.eqb p "probe.bsp" then Some (Demo.add_ids [-98] cell)
    else if String.eqb p "relay.bsp" then Some (Demo.add_ids [-77] cell)
    else None;
  ckobj_c := fun _ _ => None;
  spkcov_c := fun p obj =>
    if String.eqb p "probe.bsp" then
      if obj =? -98 then Some [(of_Z 100, of_Z 200)] else Some []
    else if String.eqb p "relay.bsp" then
      if obj =? -77 then Some [(of_Z 0, of_Z 50)]
      else if obj =? -98 then Some [(of_Z 300, of_Z 400)]
      else Some []
    else None;
  ckcov_c := ckcov_c Demo.toolkit;
  spkpos_c := spkpos_c Demo.toolkit;
  pxform_c := pxform_c Demo.toolkit;
|}.

End Scenario.

(** ** Vocabulary of the properties *)

(** *** Rounding *)

Module Rounding.

(** What the first shift leaves: a mantissa in canonical position, or
    nothing at the least exponent. *)
Definition aligned (m e : Z) : Prop :=
  0 <= m /\ (m = 0 -> e = -1074) /\ (0 < m -> fexp prec emax (Zdigits2 m + e) = e).

(** The second half of [binary_round_aux]: the shift after rounding and
    the choice of the result. *)
Definition finish (s : bool) (m1 e1 : Z) : double :=
  let '(mrs'', e'') := shr_fexp prec emax m1 e1 loc_Exact in
  match shr_m mrs'' with
  | Z0 => S754_zero s
  | Zpos m => if e'' <=? emax - prec then S754_finite s m e'' else S754_infinity s
  | Zneg _ => S754_nan
  end.

End Rounding.

(** *** The state around a call *)

(** The four coverage tables. *)
Definition coverage_tables (m : SpiceManager) :=
  (_spkIntervals m, _ckIntervals m, _spkCoverageTimes m, _ckCoverageTimes m).

(** What the coverage indexer leaves alone: the registry, the handle
    counter, the exception mode and the pool calls. *)
Definition same_registry (w w' : World) : Prop :=
  _loadedKernels (manager w') = _loadedKernels (manager w) /\
  _lastAssignedKernel (manager w') = _lastAssignedKernel (manager w) /\
  _useExceptions (manager w') = _useExceptions (manager w) /\
  poolCalls w' = poolCalls w.

(** A computation that keeps the registry and, with exception handling off,
    always returns. *)
Definition indexing {A} (c : M A) : Prop :=
  forall w,
    same_registry w (c w).2 /\
    (_useExceptions (manager w) = false -> exists a, (c w).1 = Returned a).

(** The world once [reset_c] was called. *)
Definition clear_failed (w : World) : World :=
  {| manager := manager w; failed := false; poolCalls := poolCalls w;
     spkIds := spkIds w; ckIds := ckIds w |}.

(** The handles of the registry were assigned by the counter, which has
    not wrapped around. *)
Definition registry_ok (m : SpiceManager) : Prop :=
  0 <= _lastAssignedKernel m < 2 ^ 32 - 1 /\
  Forall (fun k => 1 <= KernelInformation.id k <= _lastAssignedKernel m)
         (_loadedKernels m).

(** The world with another list of records. *)
Definition with_registry (ks : list KernelInformation.t) (w : World) : World :=
  {| manager := set_loadedKernels ks (manager w);
     failed := failed w; poolCalls := poolCalls w;
     spkIds := spkIds w; ckIds := ckIds w |}.

(** What [loadKernel] does once [furnsh_c] was called and checked. *)
Definition load_tail (tk : Toolkit) (path : string) : M KernelHandle :=
  (if is_coverage_extension (extension tk path) ".bc" ".BC"
   then findCkCoverage tk path
   else if is_coverage_extension (extension tk path) ".bsp" ".BSP"
   then findSpkCoverage tk path
   else ret tt) ;;;
  let* m := get_manager in
  let kernelId := uint_wrap (_lastAssignedKernel m + 1) in
  put_manager (set_lastAssignedKernel kernelId
    (set_loadedKernels
       (_loadedKernels m ++ [KernelInformation.Build path kernelId 1]) m)) ;;;
  ret kernelId.

(** The record a first load appends. *)
Definition registered (path : string) (w w1 : World) (h : KernelHandle) : Prop :=
  h = uint_wrap (_lastAssignedKernel (manager w) + 1) /\
  _loadedKernels (manager w1)
    = _loadedKernels (manager w) ++ [KernelInformation.Build path h 1] /\
  _lastAssignedKernel (manager w1) = h /\
  _useExceptions (manager w1) = _useExceptions (manager w).

(** *** Estimates *)

(** The exact position of a target at a time, as [spkpos_c] computes it. *)
Definition exact_position (tk : Toolkit) (target observer referenceFrame : string)
    (aberrationCorrection : AberrationCorrection.t) (et : double)
  : option (dvec3 * double) :=
  spkpos_c tk target et referenceFrame
    (AberrationCorrection.to_cstr aberrationCorrection) observer.

Definition vec_is_double (p : dvec3) : Prop :=
  is_double (vx p) /\ is_double (vy p) /\ is_double (vz p).

(** [spkpos_c] writes doubles when it is asked at a double. *)
Definition toolkit_doubles (tk : Toolkit) : Prop :=
  forall targ et ref abcorr obs p lt,
    is_double et ->
    spkpos_c tk targ et ref abcorr obs = Some (p, lt) -> vec_is_double p.

(** The boundary points recorded are doubles. *)
Definition boundary_doubles (m : SpiceManager) : Prop :=
  forall id s, _spkCoverageTimes m !! id = Some s -> Forall is_double s.

(** The other direction: the position negated, the same light time and the
    same effect on the toolkit. *)
Definition negated (r : Outcome (dvec3 * double) * World)
  : Outcome (dvec3 * double) * World :=
  (Outcome_map (fun pl => (vopp pl.1, pl.2)) r.1, r.2).

(** *** Invariants of the coverage tables *)

(** Every boundary set is ascending, as a [std::set] is. *)
Definition boundary_sorted (m : SpiceManager) : Prop :=
  (forall id s, _spkCoverageTimes m !! id = Some s -> DoubleSet.sorted s) /\
  (forall id s, _ckCoverageTimes m !! id = Some s -> DoubleSet.sorted s).

(** [spkcov_c] fills its window with doubles. *)
Definition coverage_doubles (tk : Toolkit) : Prop :=
  forall path obj cover,
    spkcov_c tk path obj = Some cover ->
    Forall (fun i => is_double i.1 /\ is_double i.2) cover.

(** A computation that keeps a property of the manager. *)
Definition keeps (P : SpiceManager -> Prop) {A} (c : M A) : Prop :=
  forall w, P (manager w) -> P (manager (c w).2).

(** *** Invariants of the registry, continued *)

(** One record per path and per handle, each with a positive reference
    count that fits an [int]. *)
Definition registry_distinct (m : SpiceManager) : Prop :=
  NoDup (map KernelInformation.path (_loadedKernels m)) /\
  NoDup (map KernelInformation.id (_loadedKernels m)) /\
  Forall (fun k => 1 <= KernelInformation.refCount k < 2 ^ 31) (_loadedKernels m).

(** Room for one more load: neither the handle counter nor a reference
    count is at its greatest value. *)
Definition room_to_load (m : SpiceManager) : Prop :=
  _lastAssignedKernel m + 1 < 2 ^ 32 - 1 /\
  Forall (fun k => KernelInformation.refCount k < 2 ^ 31 - 1) (_loadedKernels m).

(** *** Growth of the coverage tables *)




(** Every boundary set has an element, and its elements are ends of
    intervals recorded for the same id. *)
Definition boundaries_of (ivs : gmap Z intervals) (times : gmap Z DoubleSet.t)
  : Prop :=
  forall id s, times !! id = Some s ->
    s <> [] /\
    forall x, x ∈ s ->
      exists i, i ∈ default [] (ivs !! id) /\ (x = i.1 \/ x = i.2).

Definition tables_consistent (m : SpiceManager) : Prop :=
  boundaries_of (_spkIntervals m) (_spkCoverageTimes m) /\
  boundaries_of (_ckIntervals m) (_ckCoverageTimes m).

(** The intervals a file reports for [id], window after window in the order
    of the ids of the cell; a window that could not be read is empty. *)
Fixpoint windows_of (cov : Z -> option intervals) (id : Z) (ids : list Z)
  : intervals :=
  match ids with
  | [] => []
  | obj :: rest =>
      (if obj =? id then default [] (cov obj) else []) ++ windows_of cov id rest
  end.

(** The boundary points an id has once the intervals [l] were indexed for
    it, each with [insert(e); insert(b)], given those it had. *)
Definition record_times (l : intervals) (o : option DoubleSet.t)
  : option DoubleSet.t :=
  foldl (fun o i =>
           Some (DoubleSet.insert i.1 (DoubleSet.insert i.2 (default [] o))))
        o l.

(** No error can be thrown from here: exception handling is off, or no
    error is pending. *)
Definition calm (w : World) : Prop :=
  _useExceptions (manager w) = false \/ failed w = false.

(** *** Effects of a call *)

(** The manager, the pool calls and the id cells are the same in both
    worlds. *)
Definition same_state (w w' : World) : Prop :=
  manager w' = manager w /\ poolCalls w' = poolCalls w /\
  spkIds w' = spkIds w /\ ckIds w' = ckIds w.

(** Entered with no error pending, when [pre] is set, and ended with a
    defined outcome, the computation leaves no error pending and a world
    related to the first one by [R]. *)
Definition effect (R : World -> World -> Prop) (pre : bool) {A} (c : M A) : Prop :=
  forall w,
    (pre = true -> failed w = false) ->
    (c w).1 <> Undefined ->
    failed (c w).2 = false /\ R w (c w).2.

(** *** The pool of the toolkit *)

(** The calls of [furnsh_c] for a path less the calls of [unload_c] for it. *)
Fixpoint pool_balance (calls : list PoolCall) (p : string) : Z :=
  match calls with
  | [] => 0
  | Furnsh q :: rest => pool_balance rest p + (if String.eqb q p then 1 else 0)
  | Unload q :: rest => pool_balance rest p - (if String.eqb q p then 1 else 0)
  end.

(** The pool and the registry are in step: a path was loaded once more
    than it was unloaded when it is registered, and as often otherwise. *)
Definition pool_in_step (w : World) : Prop :=
  forall p,
    pool_balance (poolCalls w) p
      = if bool_decide (p ∈ loadedKernels (manager w)) then 1 else 0.

(** The registry is well formed. *)
Definition registry_wf (m : SpiceManager) : Prop :=
  registry_ok m /\ registry_distinct m.

(** The coverage tables are well formed. *)
Definition tables_wf (m : SpiceManager) : Prop :=
  tables_consistent m /\ boundary_sorted m.

(** *** The exception mode *)

(** The world with exception handling switched off. *)
Definition exceptions_off (w : World) : World :=
  {| manager := setExceptionHandling false (manager w);
     failed := failed w; poolCalls := poolCalls w;
     spkIds := spkIds w; ckIds := ckIds w |}.

(** What the computation returns it returns with exception handling off
    too, with the same effect. *)
Definition mode_blind {A} (c : M A) : Prop :=
  forall w a w',
    c w = (Returned a, w') ->
    c (exceptions_off w) = (Returned a, exceptions_off w').

(** * Properties *)

(** ** Order of doubles *)

Lemma SFcompare_antisym (x y : double) :
  SFcompare y x = option_map CompOpp (SFcompare x y).
Proof.
  destruct x as [sx|sx| |sx mx ex], y as [sy|sy| |sy my ey]; simpl;
    try (destruct sx; reflexivity); try (destruct sy; reflexivity);
    try (destruct sx, sy; reflexivity); try reflexivity.
  destruct sx, sy; try reflexivity; simpl; f_equal;
    rewrite (Z.compare_antisym ex ey);
    destruct (ex ?= ey); simpl; try reflexivity;
    change PosDef.Pos.compare_cont with Pos.compare_cont;
    rewrite (Pos.compare_cont_antisym mx my Eq); simpl;
    try rewrite CompOpp_involutive; reflexivity.
Qed.

Lemma gtb_ltb (x y : double) : (x >? y)%D = (y <? x)%D.
Proof.
  unfold gtb, ltb, SFltb. rewrite (SFcompare_antisym x y).
  destruct (SFcompare x y) as [[]|]; reflexivity.
Qed.

Lemma ltb_irrefl (x : double) : (x <? x)%D = false.
Proof.
  unfold ltb, SFltb.
  destruct x as [s|s| |s m e]; simpl; try (destruct s; reflexivity); try reflexivity.
  change PosDef.Pos.compare_cont with Pos.compare_cont.
  destruct s; rewrite Z.compare_refl, Pos.compare_cont_refl; reflexivity.
Qed.

Lemma ltb_trans (x y z : double) :
  (x <? y)%D = true -> (y <? z)%D = true -> (x <? z)%D = true.
Proof.
  unfold ltb, SFltb.
  destruct x as [sx|sx| |sx mx ex], y as [sy|sy| |sy my ey],
           z as [sz|sz| |sz mz ez]; simpl;
    try discriminate;
    try (destruct sx; try discriminate); try (destruct sy; try discriminate);
    try (destruct sz; try discriminate); try reflexivity.
  all: change PosDef.Pos.compare_cont with Pos.compare_cont;
    change (Pos.compare_cont Eq) with Pos.compare.
  all: destruct (Z.compare_spec ex ey), (Z.compare_spec ey ez),
         (Z.compare_spec ex ez); try discriminate; try reflexivity; try lia.
  all: destruct (Pos.compare_spec mx my), (Pos.compare_spec my mz),
         (Pos.compare_spec mx mz); simpl; try discriminate; try reflexivity; lia.
Qed.

(** ** Doubles are closed under the arithmetic

    [SFadd], [SFsub], [SFmul] and [SFdiv] round their result to a binary64
    number whenever their arguments are binary64 numbers. *)

Module DoubleFacts.
Import Rounding.

Lemma digits2_pos_size (p : positive) : digits2_pos p = Pos.size p.
Proof. induction p; simpl; congruence. Qed.

Lemma Zdigits2_log2 (m : Z) : 0 < m -> Zdigits2 m = Z.log2 m + 1.
Proof.
  destruct m as [|p|p]; try lia. intros _. simpl.
  rewrite digits2_pos_size. destruct p; simpl; lia.
Qed.

Lemma fexp_eq (e : Z) : fexp prec emax e = Z.max (e - 53) (-1074).
Proof. reflexivity. Qed.

Lemma shr_1_m (mrs : shr_record) :
  0 <= shr_m mrs -> shr_m (shr_1 mrs) = shr_m mrs / 2.
Proof.
  destruct mrs as [m r s]. simpl. intros Hm.
  destruct m as [|[p|p|]|p]; cbn [shr_m]; try lia; try reflexivity.
  - apply (Z.div_unique _ _ _ 1); lia.
  - apply (Z.div_unique _ _ _ 0); lia.
Qed.

Lemma iter_pos_shr_m (p : positive) : forall mrs,
  0 <= shr_m mrs ->
  shr_m (SpecFloat.iter_pos shr_1 p mrs) = shr_m mrs / 2 ^ Zpos p.
Proof.
  induction p as [p IH|p IH|]; intros mrs Hm; cbn [SpecFloat.iter_pos].
  - assert (H1 : 0 <= shr_m (shr_1 mrs)) by (rewrite shr_1_m by done; apply Z.div_pos; lia).
    assert (H2 : 0 <= shr_m (SpecFloat.iter_pos shr_1 p (shr_1 mrs))) by (rewrite IH by done; apply Z.div_pos; lia).
    rewrite IH, IH, shr_1_m by done.
    rewrite !Z.div_div by lia. f_equal.
    replace (Z.pos p~1) with (Z.pos p + Z.pos p + 1) by lia.
    rewrite !Z.pow_add_r by lia. ring.
  - assert (H2 : 0 <= shr_m (SpecFloat.iter_pos shr_1 p mrs)) by (rewrite IH by done; apply Z.div_pos; lia).
    rewrite IH, IH by done.
    rewrite !Z.div_div by lia. f_equal.
    replace (Z.pos p~0) with (Z.pos p + Z.pos p) by lia.
    rewrite !Z.pow_add_r by lia. ring.
  - rewrite shr_1_m by done. reflexivity.
Qed.

(** The first shift of [binary_round_aux]. *)
Lemma shr_m_shr (mrs : shr_record) (e n : Z) :
  0 <= shr_m mrs -> 0 <= n ->
  shr_m (shr mrs e n).1 = shr_m mrs / 2 ^ n /\ (shr mrs e n).2 = e + n.
Proof.
  intros Hm Hn. destruct n as [|p|p]; simpl; try lia.
  - rewrite Z.div_1_r. lia.
  - rewrite iter_pos_shr_m by done. done.
Qed.

Lemma shr_record_of_loc_m (m : Z) (l : location) :
  shr_m (shr_record_of_loc m l) = m.
Proof. by destruct l as [|[]]. Qed.

Lemma round_nearest_even_cases (m : Z) (l : location) :
  round_nearest_even m l = m \/ round_nearest_even m l = m + 1.
Proof. destruct l as [|[]]; simpl; try tauto. destruct (Z.even m); tauto. Qed.

Lemma shr_fexp_aligned (m e : Z) (l : location) :
  0 <= m -> e <= fexp prec emax (Zdigits2 m + e) ->
  aligned (shr_m (shr_fexp prec emax m e l).1) (shr_fexp prec emax m e l).2.
Proof.
  intros Hm He. unfold shr_fexp.
  destruct (shr_m_shr (shr_record_of_loc m l) e
              (fexp prec emax (Zdigits2 m + e) - e)) as [H1 H2];
    [rewrite shr_record_of_loc_m; lia | lia |].
  rewrite H1, H2, shr_record_of_loc_m.
  set (n := fexp prec emax (Zdigits2 m + e) - e) in *.
  assert (Hn : 0 <= n) by lia.
  assert (Hdiv : 0 <= m / 2 ^ n) by (apply Z.div_pos; lia).
  split; [exact Hdiv|].
  destruct (Z.eq_dec m 0) as [->|Hm0].
  - simpl in n. rewrite Z.div_0_l by lia. split; [|lia].
    intros _. subst n. rewrite fexp_eq in *. simpl in He. lia.
  - assert (Hpos : 0 < m) by lia.
    pose proof (Zdigits2_log2 m Hpos) as Hd.
    rewrite <- Z.shiftr_div_pow2 in * by lia.
    split.
    + intros Hz. apply Z.shiftr_eq_0_iff in Hz as [Hz|[_ Hz]]; [lia|].
      subst n. rewrite fexp_eq in *. lia.
    + intros Hz. rewrite Zdigits2_log2 by lia.
      rewrite Z.log2_shiftr by lia.
      assert (n <= Z.log2 m).
      { destruct (Z.lt_ge_cases (Z.log2 m) n) as [Hlt|]; [|lia].
        rewrite (Z.shiftr_eq_0 m n) in Hz; lia. }
      subst n. rewrite !fexp_eq in *. lia.
Qed.

Lemma binary_round_aux_finish (s : bool) (m e : Z) (l : location) :
  binary_round_aux prec emax s m e l =
    let r := shr_fexp prec emax m e l in
    finish s (round_nearest_even (shr_m r.1) (loc_of_shr_record r.1)) r.2.
Proof. unfold binary_round_aux, finish. by destruct (shr_fexp prec emax m e l). Qed.

Lemma finish_valid (s : bool) (m e m1 : Z) :
  aligned m e -> m1 = m \/ m1 = m + 1 -> is_double (finish s m1 e).
Proof.
  intros (Hm & Hz & Hc) Hm1. unfold finish, shr_fexp.
  set (n := fexp prec emax (Zdigits2 m1 + e) - e).
  assert (Hn : 0 <= n <= 1 /\ (n = 1 -> 1 <= Z.log2 m1)).
  { subst n. destruct (Z.eq_dec m 0) as [->|Hm0].
    - specialize (Hz eq_refl). subst e.
      destruct Hm1 as [->| ->]; vm_compute; split; [split|intros| split|intros]; congruence.
    - assert (Hpos : 0 < m) by lia. specialize (Hc Hpos).
      pose proof (Zdigits2_log2 m Hpos) as Hd.
      destruct Hm1 as [->| ->]; [rewrite Hc; lia|].
      assert (Hd1 : Zdigits2 (m + 1) = Z.log2 (m + 1) + 1) by (apply Zdigits2_log2; lia).
      pose proof (Z.log2_succ_or m) as Hor. unfold Z.succ in Hor.
      rewrite fexp_eq in *. lia. }
  destruct (shr_m_shr (shr_record_of_loc m1 loc_Exact) e n) as [H1 H2];
    [simpl; lia | lia |].
  destruct (shr (shr_record_of_loc m1 loc_Exact) e n) as [mrs e'']. simpl in H1, H2.
  rewrite H1. clear H1. subst e''.
  rewrite <- Z.shiftr_div_pow2 by lia.
  destruct (Z.shiftr m1 n) as [|p|p] eqn:Ep; [done| |done].
  destruct (e + n <=? emax - prec) eqn:Eb; [|done].
  unfold is_double, valid_binary, bounded, canonical_mantissa.
  rewrite Eb, andb_true_r. apply Z.eqb_eq.
  change (Z.pos (digits2_pos p)) with (Zdigits2 (Z.pos p)). rewrite <- Ep.
  assert (Hpos1 : 0 < m1).
  { destruct (Z.eq_dec m1 0) as [->|]; [|lia]. by rewrite Z.shiftr_0_l in Ep. }
  rewrite Zdigits2_log2 by (rewrite Ep; lia).
  rewrite Z.log2_shiftr by lia.
  pose proof (Zdigits2_log2 m1 Hpos1) as Hd1.
  pose proof (Z.log2_nonneg m1).
  subst n. rewrite !fexp_eq in *. lia.
Qed.

(** The result of [binary_round_aux] is a double as soon as the first shift
    goes to the right. *)
Lemma binary_round_aux_valid (s : bool) (m e : Z) (l : location) :
  0 <= m -> e <= fexp prec emax (Zdigits2 m + e) ->
  is_double (binary_round_aux prec emax s m e l).
Proof.
  intros Hm He. rewrite binary_round_aux_finish. cbv zeta.
  eapply finish_valid; [by apply shr_fexp_aligned|].
  apply round_nearest_even_cases.
Qed.

Lemma valid_finite (s : bool) (m : positive) (e : Z) :
  is_double (S754_finite s m e) <->
  fexp prec emax (Zdigits2 (Zpos m) + e) = e /\ e <= 971.
Proof.
  unfold is_double, valid_binary, bounded, canonical_mantissa.
  rewrite andb_true_iff, Z.eqb_eq, Z.leb_le. reflexivity.
Qed.

Lemma SFmul_valid (x y : double) :
  is_double x -> is_double y -> is_double (SFmul prec emax x y).
Proof.
  destruct x as [sx|sx| |sx mx ex], y as [sy|sy| |sy my ey]; try done.
  intros [Hx _]%valid_finite [Hy _]%valid_finite. simpl.
  apply binary_round_aux_valid; [lia|].
  rewrite Zdigits2_log2 in * by lia.
  pose proof (Z.log2_mul_below (Zpos mx) (Zpos my)).
  pose proof (Z.log2_nonneg (Zpos mx)). pose proof (Z.log2_nonneg (Zpos my)).
  rewrite Pos2Z.inj_mul. rewrite !fexp_eq in *. lia.
Qed.

Lemma iter_xO (m d : positive) :
  Zpos (Pos.iter xO m d) = Zpos m * 2 ^ Zpos d.
Proof.
  induction d as [|d IH] using Pos.peano_ind.
  - simpl. lia.
  - rewrite Pos.iter_succ, Pos2Z.inj_xO, IH, Pos2Z.inj_succ, Z.pow_succ_r by lia. ring.
Qed.

Lemma binary_round_valid (s : bool) (m : positive) (e : Z) :
  is_double (binary_round prec emax s m e).
Proof.
  unfold binary_round, shl_align.
  change (Z.pos (digits2_pos m)) with (Zdigits2 (Z.pos m)).
  pose proof (Zdigits2_log2 (Z.pos m) eq_refl) as Hd.
  destruct (fexp prec emax (Zdigits2 (Z.pos m) + e) - e) as [|d|d] eqn:E.
  - apply binary_round_aux_valid; lia.
  - apply binary_round_aux_valid; lia.
  - apply binary_round_aux_valid; [lia|].
    rewrite (Zdigits2_log2 (Z.pos (Pos.iter xO m d))) by lia. rewrite iter_xO.
    rewrite Z.log2_mul_pow2 by lia.
    rewrite !fexp_eq in *. lia.
Qed.

Lemma binary_normalize_valid (m e : Z) (szero : bool) :
  is_double (binary_normalize prec emax m e szero).
Proof. destruct m; [done|apply binary_round_valid..]. Qed.

Lemma SFadd_valid (x y : double) :
  is_double x -> is_double y -> is_double (SFadd prec emax x y).
Proof.
  destruct x as [sx|sx| |sx mx ex], y as [sy|sy| |sy my ey]; try done;
    try (by destruct sx, sy).
  intros _ _. apply binary_normalize_valid.
Qed.

Lemma SFsub_valid (x y : double) :
  is_double x -> is_double y -> is_double (SFsub prec emax x y).
Proof.
  destruct x as [sx|sx| |sx mx ex], y as [sy|sy| |sy my ey]; try done;
    try (by destruct sx, sy).
  intros _ _. apply binary_normalize_valid.
Qed.

Lemma SFdiv_valid (x y : double) :
  is_double x -> is_double y -> is_double (SFdiv prec emax x y).
Proof.
  destruct x as [sx|sx| |sx mx ex], y as [sy|sy| |sy my ey]; try done.
  intros _ _. unfold SFdiv, SFdiv_core_binary.
  pose proof (Zdigits2_log2 (Z.pos mx) eq_refl) as Hd1.
  pose proof (Zdigits2_log2 (Z.pos my) eq_refl) as Hd2.
  set (d1 := Zdigits2 (Z.pos mx)) in *. set (d2 := Zdigits2 (Z.pos my)) in *.
  set (e' := Z.min (fexp prec emax (d1 + ex - (d2 + ey))) (ex - ey)).
  set (sh := ex - ey - e').
  set (m' := match sh with
             | Z.pos _ => Z.shiftl (Z.pos mx) sh
             | 0 => Z.pos mx
             | Z.neg _ => 0
             end).
  assert (He' : e' = Z.min (fexp prec emax (d1 + ex - (d2 + ey))) (ex - ey))
    by reflexivity.
  assert (Hsh : sh = ex - ey - e') by reflexivity.
  assert (Hs : 0 <= sh) by lia.
  assert (Hm' : m' = Z.pos mx * 2 ^ sh).
  { subst m'. destruct sh; [lia| |lia]. by rewrite Z.shiftl_mul_pow2. }
  clearbody m' sh e' d1 d2.
  pose proof (Z_div_mod m' (Z.pos my) eq_refl) as Hdm.
  destruct (Z.div_eucl m' (Z.pos my)) as [q r]. destruct Hdm as [Hq Hr].
  assert (Hpow : 0 < 2 ^ sh) by (apply Z.pow_pos_nonneg; lia).
  assert (Hm'pos : 0 < m') by nia.
  assert (Hq0 : 0 <= q) by nia.
  apply binary_round_aux_valid; [exact Hq0|].
  assert (Hlm : Z.log2 m' = sh + Z.log2 (Z.pos mx))
    by (rewrite Hm'; apply Z.log2_mul_pow2; lia).
  assert (Hdig : d1 + sh - d2 <= Zdigits2 q).
  { destruct (Z.eq_dec q 0) as [->|Hqne].
    - change (Zdigits2 0) with 0.
      assert (Z.log2 m' <= Z.log2 (Z.pos my)) by (apply Z.log2_le_mono; lia).
      lia.
    - rewrite Zdigits2_log2 by lia.
      pose proof (Z.log2_nonneg q) as Hlq.
      destruct (Z.lt_ge_cases (Z.log2 m' - Z.log2 (Z.pos my) - 1) 0) as [Hneg|HL];
        [lia|].
      set (L := Z.log2 m' - Z.log2 (Z.pos my) - 1) in *.
      destruct (Z.log2_spec m' Hm'pos) as [Hlo _].
      destruct (Z.log2_spec (Z.pos my) eq_refl) as [_ Hhi].
      assert (Hsplit : 2 ^ Z.log2 m' = 2 ^ L * 2 ^ Z.succ (Z.log2 (Z.pos my))).
      { rewrite <- Z.pow_add_r by (pose proof (Z.log2_nonneg (Z.pos my)); lia).
        f_equal. subst L. lia. }
      assert (HpL : 0 < 2 ^ L) by (apply Z.pow_pos_nonneg; lia).
      assert (Hle : 2 ^ L <= q) by nia.
      assert (L <= Z.log2 q).
      { rewrite <- (Z.log2_pow2 L) by lia. by apply Z.log2_le_mono. }
      subst L. lia. }
  rewrite !fexp_eq in *. lia.
Qed.

Lemma shr_1_even (z : Z) :
  0 < z ->
  shr_1 {| shr_m := 2 * z; shr_r := false; shr_s := false |}
    = {| shr_m := z; shr_r := false; shr_s := false |}.
Proof. by destruct z. Qed.

(** Shifting out zeros only is exact. *)
Lemma iter_pos_shr_exact (p : positive) : forall z,
  0 < z ->
  SpecFloat.iter_pos shr_1 p {| shr_m := z * 2 ^ Zpos p; shr_r := false; shr_s := false |}
    = {| shr_m := z; shr_r := false; shr_s := false |}.
Proof.
  induction p as [p IH|p IH|]; intros z Hz; cbn [SpecFloat.iter_pos].
  - replace (z * 2 ^ Z.pos p~1) with (2 * ((z * 2 ^ Z.pos p) * 2 ^ Z.pos p)).
    + assert (0 < 2 ^ Z.pos p) by (apply Z.pow_pos_nonneg; lia).
      rewrite shr_1_even by nia. rewrite IH by nia. by apply IH.
    + replace (Z.pos p~1) with (Z.pos p + Z.pos p + 1) by lia.
      rewrite !Z.pow_add_r by lia. ring.
  - replace (z * 2 ^ Z.pos p~0) with ((z * 2 ^ Z.pos p) * 2 ^ Z.pos p).
    + assert (0 < 2 ^ Z.pos p) by (apply Z.pow_pos_nonneg; lia).
      rewrite IH by nia. by apply IH.
    + replace (Z.pos p~0) with (Z.pos p + Z.pos p) by lia.
      rewrite !Z.pow_add_r by lia. ring.
  - replace (z * 2 ^ 1) with (2 * z) by lia. by apply shr_1_even.
Qed.

(** Multiplying a double by [-1.0] only changes its sign. *)
Lemma mul_neg_one (x : double) :
  is_double x -> SFmul prec emax x neg_one = SFopp x.
Proof.
  destruct x as [s|s| |s m e]; try (intros _; by destruct s); [done|].
  intros [Hc Hb]%valid_finite. unfold neg_one. cbn [SFmul SFopp].
  unfold binary_round_aux.
  pose proof (Zdigits2_log2 (Z.pos m) eq_refl) as Hd.
  assert (E1 : shr_fexp prec emax (Z.pos (m * 4503599627370496)) (e + -52) loc_Exact
               = ({| shr_m := Z.pos m; shr_r := false; shr_s := false |}, e)).
  { unfold shr_fexp.
    replace (fexp prec emax (Zdigits2 (Z.pos (m * 4503599627370496)) + (e + -52))
             - (e + -52)) with 52.
    - cbn [shr shr_record_of_loc]. rewrite Pos2Z.inj_mul.
      change (Z.pos 4503599627370496) with (2 ^ 52).
      rewrite iter_pos_shr_exact by lia. f_equal. lia.
    - rewrite Zdigits2_log2 by lia. rewrite Pos2Z.inj_mul.
      change (Z.pos 4503599627370496) with (2 ^ 52).
      rewrite Z.log2_mul_pow2 by lia. rewrite !fexp_eq in *. lia. }
  rewrite E1. cbn [shr_m loc_of_shr_record round_nearest_even].
  assert (E2 : shr_fexp prec emax (Z.pos m) e loc_Exact
               = ({| shr_m := Z.pos m; shr_r := false; shr_s := false |}, e)).
  { unfold shr_fexp. by rewrite Hc, Z.sub_diag. }
  rewrite E2. cbn [shr_m]. rewrite (proj2 (Z.leb_le _ _)) by (unfold emax, prec; lia).
  by destruct s.
Qed.

Lemma opp_involutive (x : double) : SFopp (SFopp x) = x.
Proof. destruct x as [s|s| |s m e]; simpl; by rewrite ?negb_involutive. Qed.

End DoubleFacts.

(** ** Ordered sets of doubles *)

Module DoubleSetFacts.
Import DoubleSet.

Lemma sorted_split (l1 l2 : DoubleSet.t) (a : double) :
  sorted (l1 ++ a :: l2) ->
  Forall (fun e => lt e a) l1 /\ Forall (lt a) l2.
Proof.
  induction l1 as [|b l1 IH]; simpl; intros H.
  - apply StronglySorted_inv in H as [_ H]. by split.
  - apply StronglySorted_inv in H as [Hs Hb].
    destruct (IH Hs) as [H1 H2]. split; [|done].
    apply Forall_cons. split; [|done].
    rewrite Forall_app, Forall_cons in Hb. tauto.
Qed.

Lemma insert_elem (v : double) (s : DoubleSet.t) (x : double) :
  x ∈ insert v s -> x = v \/ x ∈ s.
Proof.
  induction s as [|e s IH]; simpl.
  - rewrite elem_of_cons, elem_of_nil. tauto.
  - destruct (v <? e)%D; [rewrite elem_of_cons; tauto|].
    destruct (e <? v)%D; [|tauto].
    rewrite !elem_of_cons. intros [->|H]; [tauto|].
    destruct (IH H); tauto.
Qed.

(** [insert] keeps the set ascending, whatever is inserted. *)
Lemma insert_sorted (v : double) (s : DoubleSet.t) :
  sorted s -> sorted (insert v s).
Proof.
  induction 1 as [|e s Hs IH He]; simpl.
  - repeat constructor.
  - destruct (v <? e)%D eqn:E1.
    + constructor; [by constructor|].
      apply Forall_cons. split; [exact E1|].
      eapply Forall_impl; [exact He|]. intros x Hx. by apply (ltb_trans v e x).
    + destruct (e <? v)%D eqn:E2; [|by constructor].
      constructor; [exact IH|].
      apply Forall_forall. intros x Hx.
      apply insert_elem in Hx as [->|Hx]; [exact E2|].
      by apply (proj1 (Forall_forall _ _) He).
Qed.

Lemma lower_bound_app (l1 l2 : DoubleSet.t) (x : double) :
  Forall (fun e => lt e x) l1 ->
  lower_bound (l1 ++ l2) x = (length l1 + lower_bound l2 x)%nat.
Proof.
  induction 1 as [|e l1 He _ IH]; simpl; [done|].
  unfold lt in He. by rewrite He, IH.
Qed.

Lemma upper_bound_app (l1 l2 : DoubleSet.t) (x : double) :
  Forall (fun e => (x <? e)%D = false) l1 ->
  upper_bound (l1 ++ l2) x = (length l1 + upper_bound l2 x)%nat.
Proof.
  induction 1 as [|e l1 He _ IH]; simpl; [done|].
  by rewrite He, IH.
Qed.

(** The iterators of the interpolation branch: when [before] is the
    greatest element below [x] and [after] the least element above it,
    [std::prev(lower_bound(x))] points to [before] and [upper_bound(x)] to
    [after]. *)
Lemma bracket (s : DoubleSet.t) (x before after : double) :
  sorted s -> before ∈ s -> after ∈ s ->
  lt before x -> lt x after ->
  (forall e, e ∈ s -> lt e x -> (before <? e)%D = false) ->
  (forall e, e ∈ s -> lt x e -> (e <? after)%D = false) ->
  lower_bound s x <> 0%nat /\
  upper_bound s x <> length s /\
  s !! Nat.pred (lower_bound s x) = Some before /\
  s !! upper_bound s x = Some after.
Proof.
  intros Hs Hb Ha Hbx Hxa Hgreatest Hleast.
  apply list_elem_of_split in Hb as (b1 & b2 & Eb).
  apply list_elem_of_split in Ha as (a1 & a2 & Ea).
  assert (Hlb : lower_bound s x = S (length b1)).
  { rewrite Eb in Hs. apply sorted_split in Hs as [H1 H2].
    rewrite Eb, lower_bound_app.
    - simpl. unfold lt in Hbx. rewrite Hbx.
      destruct b2 as [|e b2]; simpl; [lia|].
      destruct (e <? x)%D eqn:E; [|lia].
      apply Forall_cons in H2 as [H2 _]. unfold lt in H2.
      rewrite (Hgreatest e) in H2; [discriminate| |exact E].
      rewrite Eb, elem_of_app, !elem_of_cons. tauto.
    - eapply Forall_impl; [exact H1|]. intros e He. by apply (ltb_trans e before x). }
  assert (Hub : upper_bound s x = length a1).
  { rewrite Ea in Hs. apply sorted_split in Hs as [H1 H2].
    rewrite Ea, upper_bound_app.
    - simpl. unfold lt in Hxa. rewrite Hxa. lia.
    - apply Forall_forall. intros e He.
      destruct (x <? e)%D eqn:E; [|done].
      rewrite <- (Hleast e); [|rewrite Ea, elem_of_app; tauto|exact E].
      symmetry. by apply (proj1 (Forall_forall _ _) H1). }
  rewrite Hlb, Hub. simpl. repeat split.
  - done.
  - rewrite Ea, length_app. simpl. lia.
  - rewrite Eb. by apply list_lookup_middle.
  - rewrite Ea. by apply list_lookup_middle.
Qed.

End DoubleSetFacts.

(** ** Aberration corrections *)

Module AberrationCorrectionFacts.
Import AberrationCorrection.

Lemma Mapping_keys_distinct : NoDup (Mapping.*1).
Proof.
  unfold Mapping; simpl.
  repeat (apply NoDup_cons; split;
          [rewrite ?elem_of_cons, elem_of_nil; intros H;
           repeat (destruct H as [H|H]; [discriminate H|]); exact H|]).
  apply NoDup_nil_2.
Qed.

(** C9.  Each of the nine canonical short-codes is a key of the table;
    constructing a correction from it and converting the correction back
    gives the code again; and the table holds one (type, direction) pair
    for it, the one the constructor stores. *)
Theorem aberration_correction_round_trip :
  Mapping.*1 = canonical_codes /\
  Forall (fun code =>
    exists a,
      of_identifier code = Some a /\
      to_cstr a = code /\
      forall p, (code, p) ∈ Mapping -> p = (type a, direction a))
    canonical_codes.
Proof.
  split; [reflexivity|].
  unfold canonical_codes.
  repeat (apply Forall_cons; split;
    [eexists; split; [reflexivity|]; split; [reflexivity|];
     intros p Hp; unfold Mapping in Hp;
     rewrite !elem_of_cons, elem_of_nil in Hp;
     simpl; repeat (destruct Hp as [Hp|Hp]; [congruence|]); contradiction|]).
  apply Forall_nil_2.
Qed.

End AberrationCorrectionFacts.

(** ** Coverage queries *)

Lemma inside_some_interval_true (ivs : intervals) (et : double) :
  inside_some_interval ivs et = true <->
  exists i, i ∈ ivs /\ (i.1 <? et)%D = true /\ (i.2 >? et)%D = true.
Proof.
  induction ivs as [|i ivs IH]; simpl.
  - split; [discriminate|]. intros (i & Hi & _). by apply elem_of_nil in Hi.
  - destruct ((i.1 <? et)%D && (i.2 >? et)%D) eqn:E.
    + apply andb_true_iff in E as [E1 E2]. split; [|done].
      intros _. exists i. split; [apply list_elem_of_here|done].
    + rewrite IH. split.
      * intros (j & Hj & H1 & H2). exists j. split; [by apply list_elem_of_further|done].
      * intros (j & Hj & H1 & H2). apply elem_of_cons in Hj as [->|Hj].
        -- rewrite H1, H2 in E. discriminate.
        -- exists j. done.
Qed.

Section Coverage.

Variable tk : Toolkit.

Lemma hasSpkCoverage_body (m : SpiceManager) (target : string) (id : Z)
    (et : double) :
  naifId tk target m = Returned id -> id <> 0 ->
  hasSpkCoverage tk target et m =
    Returned (inside_some_interval (default [] (_spkIntervals m !! id)) et).
Proof.
  intros Hid Hnz. unfold hasSpkCoverage. rewrite Hid. simpl.
  destruct (Z.eqb_spec id 0) as [|_]; [done|].
  by destruct (_spkIntervals m !! id).
Qed.

(** A body [targetPosition] hands to the estimator, one without coverage
    at the time, is never the barycenter. *)
Lemma uncovered_not_barycenter (m : SpiceManager) (target : string) (id : Z)
    (et : double) :
  naifId tk target m = Returned id ->
  hasSpkCoverage tk target et m = Returned false -> id <> 0.
Proof.
  intros Hid. unfold hasSpkCoverage. rewrite Hid. simpl.
  by destruct (Z.eqb_spec id 0).
Qed.

(** C5, as amended.  A query time equal to the lower bound [b] of a
    recorded interval [(b, e)] is not inside that interval, both bounds
    being tested strictly: for an id other than 0, [hasSpkCoverage] at
    [b] answers [true] exactly when another recorded interval of the id
    strictly contains [b]. *)
Theorem hasSpkCoverage_at_lower_bound (m : SpiceManager) (target : string)
    (id : Z) (ivs : intervals) (b e : double) :
  naifId tk target m = Returned id -> id <> 0 ->
  _spkIntervals m !! id = Some ivs -> (b, e) ∈ ivs ->
  exists covered,
    hasSpkCoverage tk target b m = Returned covered /\
    (covered = true <->
     exists i, i ∈ ivs /\ i <> (b, e) /\
               (i.1 <? b)%D = true /\ (i.2 >? b)%D = true) /\
    (ivs = [(b, e)] -> covered = false).
Proof.
  intros Hid Hnz Hivs Hin.
  rewrite (hasSpkCoverage_body m target id b Hid Hnz), Hivs. simpl.
  eexists; split; [reflexivity|]. split.
  - rewrite inside_some_interval_true. split.
    + intros (i & Hi & H1 & H2). exists i. repeat split; try done.
      intros ->. simpl in H1. by rewrite ltb_irrefl in H1.
    + intros (i & Hi & _ & H1 & H2). by exists i.
  - intros ->. simpl. by rewrite ltb_irrefl.
Qed.

(** C10.  [ckCoverage] resolves its argument with [naifId]; when the id
    has no entry in the CK interval table it looks the id times 1000 up
    and returns that entry, and an empty list when there is none either.
    [hasCkCoverage] resolves its argument with [frameId] and looks only
    that id up. *)
Theorem ckCoverage_falls_back_to_id_times_1000 (m : SpiceManager)
    (target : string) (id : Z) :
  naifId tk target m = Returned id ->
  - 2 ^ 31 <= id * 1000 < 2 ^ 31 ->
  ckCoverage tk target m =
    Returned
      match _ckIntervals m !! id with
      | Some l => l
      | None => default [] (_ckIntervals m !! (id * 1000))
      end /\
  forall frame et,
    hasCkCoverage tk frame et m =
      Outcome_map
        (fun fid => inside_some_interval (default [] (_ckIntervals m !! fid)) et)
        (frameId tk frame m).
Proof.
  intros Hid Hrange. split.
  - unfold ckCoverage. rewrite Hid. simpl.
    destruct (_ckIntervals m !! id); [done|].
    replace ((INT_MIN <=? id * 1000) && (id * 1000 <=? INT_MAX)) with true.
    + by destruct (_ckIntervals m !! (id * 1000)).
    + symmetry. apply andb_true_iff. unfold INT_MIN, INT_MAX. split; lia.
  - intros frame et. unfold hasCkCoverage.
    destruct (frameId tk frame m) as [fid| |]; simpl; [|done..].
    by destruct (_ckIntervals m !! fid).
Qed.

End Coverage.

(** C5, the claim as stated fails: with the probe's only interval
    [(100, 200)] recorded, the query time 100, equal to the lower bound, is
    reported as not covered. *)
Lemma hasSpkCoverage_lower_bound_uncovered :
  naifId Demo.toolkit "PROBE" (Demo.probe_manager true) = Returned (-98) /\
  _spkIntervals (Demo.probe_manager true) !! (-98) = Some [(of_Z 100, of_Z 200)] /\
  hasSpkCoverage Demo.toolkit "PROBE" (of_Z 100) (Demo.probe_manager true)
    = Returned false.
Proof. repeat split; vm_compute; reflexivity. Qed.

(** An instance: the probe at time 100, the lower bound of its only interval. *)
Lemma hasSpkCoverage_at_lower_bound_witness :
  exists covered,
    hasSpkCoverage Demo.toolkit "PROBE" (of_Z 100) (Demo.probe_manager true)
      = Returned covered /\ covered = false.
Proof.
  destruct (hasSpkCoverage_at_lower_bound Demo.toolkit (Demo.probe_manager true)
              "PROBE" (-98) [(of_Z 100, of_Z 200)] (of_Z 100) (of_Z 200))
    as (covered & Hc & _ & Hsingle).
  - reflexivity.
  - discriminate.
  - reflexivity.
  - apply list_elem_of_here.
  - exists covered. split; [exact Hc | apply Hsingle; reflexivity].
Defined.

(** An instance: the probe, id -98, whose CK data is recorded under -98000. *)
Lemma ckCoverage_falls_back_to_id_times_1000_witness :
  ckCoverage Demo.toolkit "PROBE"
    (set_ck {[ -98000 := [(of_Z 100, of_Z 200)] ]} ∅ (Demo.manager0 true))
  = Returned [(of_Z 100, of_Z 200)].
Proof.
  destruct (ckCoverage_falls_back_to_id_times_1000 Demo.toolkit
              (set_ck {[ -98000 := [(of_Z 100, of_Z 200)] ]} ∅ (Demo.manager0 true))
              "PROBE" (-98)) as [H _]; [reflexivity | lia |].
  exact H.
Defined.

(** ** Kernel registry *)

Lemma same_registry_refl w : same_registry w w.
Proof. by repeat split. Qed.

Lemma same_registry_trans w1 w2 w3 :
  same_registry w1 w2 -> same_registry w2 w3 -> same_registry w1 w3.
Proof.
  intros (A1 & A2 & A3 & A4) (B1 & B2 & B3 & B4).
  repeat split; congruence.
Qed.

Lemma indexing_ret {A} (a : A) : indexing (ret a).
Proof. intros w. split; [apply same_registry_refl | by exists a]. Qed.

Lemma indexing_bind {A B} (c : M A) (k : A -> M B) :
  indexing c -> (forall a, indexing (k a)) -> indexing (bind c k).
Proof.
  intros Hc Hk w. unfold bind.
  destruct (Hc w) as [Hs Hr].
  destruct (c w) as [[a| |] w'] eqn:E; simpl in *.
  - destruct (Hk a w') as [Hs' Hr']. split.
    + eapply same_registry_trans; eauto.
    + intros Hq. apply Hr'. destruct Hs as (_ & _ & -> & _). exact Hq.
  - split; [done|]. intros Hq. destruct (Hr Hq) as [? ?]. discriminate.
  - split; [done|]. intros Hq. destruct (Hr Hq) as [? ?]. discriminate.
Qed.

Lemma indexing_signal : indexing signal.
Proof. intros w. split; [by repeat split | by exists tt]. Qed.

Lemma indexing_call {A} (primitive : option A) (buffer : A) :
  indexing (call primitive buffer).
Proof.
  destruct primitive; simpl; [apply indexing_ret|].
  apply indexing_bind; [apply indexing_signal | intros; apply indexing_ret].
Qed.

Lemma check_failed_run (msg : string) (w : World) :
  check_failed msg w =
    if failed w then
      if _useExceptions (manager w)
      then (Thrown (SpiceError msg), clear_failed w)
      else (Returned tt, clear_failed w)
    else (Returned tt, w).
Proof.
  unfold check_failed, bind, failed_c, throwSpiceError, bind, get_manager,
    reset_c, throw, ret, clear_failed.
  destruct (failed w); [|done]. by destruct (_useExceptions (manager w)).
Qed.

Lemma indexing_check_failed (msg : string) : indexing (check_failed msg).
Proof.
  intros w. unfold check_failed, bind, failed_c, throwSpiceError, bind,
    get_manager, reset_c, throw, ret.
  destruct (failed w); simpl; [|split; [apply same_registry_refl | by exists tt]].
  destruct (_useExceptions (manager w)) eqn:E; simpl.
  - split; [by repeat split | discriminate].
  - split; [by repeat split | by exists tt].
Qed.

Lemma indexing_insert_spk (obj : Z) (b e : double) : indexing (insert_spk obj b e).
Proof. intros w. split; [by repeat split | by exists tt]. Qed.

Lemma indexing_insert_ck (frame : Z) (b e : double) : indexing (insert_ck frame b e).
Proof. intros w. split; [by repeat split | by exists tt]. Qed.

Lemma indexing_fetch_intervals msg ins cover :
  (forall b e, indexing (ins b e)) -> indexing (fetch_intervals msg ins cover).
Proof.
  intros Hins. induction cover as [|[b e] rest IH]; simpl; [apply indexing_ret|].
  apply indexing_bind; [apply indexing_check_failed|]. intros _.
  apply indexing_bind; [apply Hins|]. intros _. exact IH.
Qed.

Lemma indexing_scan_objects msg cov ins ids :
  (forall obj b e, indexing (ins obj b e)) -> indexing (scan_objects msg cov ins ids).
Proof.
  intros Hins. induction ids as [|obj rest IH]; simpl; [apply indexing_ret|].
  apply indexing_bind; [apply indexing_call|]. intros cover.
  apply indexing_bind; [apply indexing_check_failed|]. intros _.
  apply indexing_bind; [by apply indexing_fetch_intervals|]. intros _. exact IH.
Qed.

Lemma indexing_obj_on_cell tk path :
  indexing (spkobj_on_cell tk path) /\ indexing (ckobj_on_cell tk path).
Proof.
  split; intros w.
  - unfold spkobj_on_cell. destruct (spkobj_c tk path (spkIds w));
      (split; [by repeat split | by eexists]).
  - unfold ckobj_on_cell. destruct (ckobj_c tk path (ckIds w));
      (split; [by repeat split | by eexists]).
Qed.

Lemma indexing_findSpkCoverage tk path : indexing (findSpkCoverage tk path).
Proof.
  unfold findSpkCoverage.
  apply indexing_bind; [apply indexing_obj_on_cell|]. intros ids.
  apply indexing_bind; [apply indexing_check_failed|]. intros _.
  apply indexing_scan_objects, indexing_insert_spk.
Qed.

Lemma indexing_findCkCoverage tk path : indexing (findCkCoverage tk path).
Proof.
  unfold findCkCoverage.
  apply indexing_bind; [apply indexing_obj_on_cell|]. intros ids.
  apply indexing_bind; [apply indexing_check_failed|]. intros _.
  apply indexing_scan_objects, indexing_insert_ck.
Qed.

Section Registry.

Variable tk : Toolkit.

Lemma release_coverage (it : nat) (info : KernelInformation.t) (path : string)
    (w : World) :
  coverage_tables (manager (release it info path w).2) = coverage_tables (manager w).
Proof.
  unfold release, bind, get_manager, put_manager, record_call.
  destruct (KernelInformation.refCount info =? 1); [done|].
  by destruct (KernelInformation.refCount info =? INT_MIN).
Qed.

Lemma load_tail_spec (path : string) (w : World) :
  match load_tail tk path w with
  | (Returned h, w1) => registered path w w1 h /\ poolCalls w1 = poolCalls w
  | (_, w1) => same_registry w w1 /\ _useExceptions (manager w) = true
  end.
Proof.
  unfold load_tail.
  set (c := if is_coverage_extension _ _ _ then _ else _).
  assert (Hc : indexing c).
  { subst c. destruct (is_coverage_extension _ ".bc" ".BC");
      [apply indexing_findCkCoverage|].
    destruct (is_coverage_extension _ ".bsp" ".BSP");
      [apply indexing_findSpkCoverage | apply indexing_ret]. }
  unfold bind at 1. destruct (Hc w) as [Hs Hq].
  destruct (c w) as [[[]| |] w'] eqn:E; simpl in Hs, Hq.
  - destruct Hs as (H1 & H2 & H3 & H4).
    unfold bind, get_manager, put_manager, ret; simpl.
    unfold registered; simpl. rewrite H1, H2, H3, H4. by repeat split.
  - split; [done|]. destruct (_useExceptions (manager w)); [done|].
    destruct Hq as [? ?]; [done | discriminate].
  - split; [done|]. destruct (_useExceptions (manager w)); [done|].
    destruct Hq as [? ?]; [done | discriminate].
Qed.

Lemma find_if_lookup_None {A} (pred : A -> bool) (l : list A) :
  Forall (fun a => pred a = false) l -> l !! find_if pred l = None.
Proof.
  induction 1 as [|a l Ha _ IH]; simpl; [done|]. by rewrite Ha.
Qed.

Lemma find_if_app_last {A} (pred : A -> bool) (l : list A) (a : A) :
  Forall (fun a => pred a = false) l -> pred a = true ->
  find_if pred (l ++ [a]) = length l.
Proof.
  intros Hl Ha. induction Hl as [|b l Hb _ IH]; simpl; [by rewrite Ha|].
  by rewrite Hb, IH.
Qed.


Lemma delete_app_last {A} (l : list A) (a : A) :
  delete (length l) (l ++ [a]) = l.
Proof. induction l as [|b l IH]; simpl; [done|]. by f_equal. Qed.

(** A first load of a path: the branch taken. *)
Lemma loadKernel_new (filePath : string) (w : World) :
  _loadedKernels (manager w)
    !! find_if (has_path (absPath tk filePath)) (_loadedKernels (manager w)) = None ->
  loadKernel tk filePath w =
    (record_call (Furnsh (absPath tk filePath)) ;;;
     (if furnsh_c tk (absPath tk filePath) then ret tt else signal) ;;;
     check_failed "Kernel loading" ;;;
     load_tail tk (absPath tk filePath)) w.
Proof.
  intros Hnone. unfold loadKernel, bind at 1, get_manager at 1.
  by rewrite Hnone.
Qed.

Lemma loadKernel_not_loaded (filePath : string) (w : World) :
  Forall (fun k => has_path (absPath tk filePath) k = false)
         (_loadedKernels (manager w)) ->
  loadKernel tk filePath w =
    (record_call (Furnsh (absPath tk filePath)) ;;;
     (if furnsh_c tk (absPath tk filePath) then ret tt else signal) ;;;
     check_failed "Kernel loading" ;;;
     load_tail tk (absPath tk filePath)) w.
Proof. intros Hfresh. by apply loadKernel_new, find_if_lookup_None. Qed.

Lemma with_registry_same (w : World) :
  with_registry (_loadedKernels (manager w)) w = w.
Proof. by destruct w as [[] ? ?]. Qed.

Lemma registry_ok_same (w w' : World) :
  same_registry w w' -> registry_ok (manager w) -> registry_ok (manager w').
Proof. intros (H1 & H2 & _) [Hl Hk]. unfold registry_ok. by rewrite H1, H2. Qed.

(** The handles stay those the counter assigned, as long as it does not
    wrap around. *)
Lemma registry_ok_invariant (filePath : string) (kernelId : KernelHandle)
    (w : World) :
  registry_ok (manager w) ->
  (_lastAssignedKernel (manager w) + 1 < 2 ^ 32 - 1 ->
   registry_ok (manager (loadKernel tk filePath w).2)) /\
  registry_ok (manager (unloadKernel kernelId w).2) /\
  registry_ok (manager (unloadKernel_path tk filePath w).2).
Proof.
  intros [Hlast Hids].
  assert (Halter : forall f it,
            (forall k, KernelInformation.id (f k) = KernelInformation.id k) ->
            registry_ok (set_loadedKernels (alter f it (_loadedKernels (manager w)))
                           (manager w))).
  { intros f it Hf. split; [exact Hlast|]. simpl.
    apply Forall_alter; [exact Hids|]. intros k _ Hk. by rewrite Hf. }
  assert (Hrel : forall it info path,
            registry_ok (manager (release it info path w).2)).
  { intros it info path. unfold release, bind, get_manager, record_call.
    destruct (_ =? 1); simpl;
      [|destruct (_ =? INT_MIN); simpl; [by split | by apply Halter]].
    split; [exact Hlast|]. simpl. by apply Forall_delete. }
  split; [|split].
  - intros Hroom.
    destruct (_loadedKernels (manager w)
                !! find_if (has_path (absPath tk filePath)) (_loadedKernels (manager w)))
      as [info|] eqn:E.
    + unfold loadKernel, bind at 1, get_manager at 1. rewrite E.
      destruct (_ =? INT_MAX); simpl; [by split | by apply Halter].
    + rewrite (loadKernel_new _ _ E). destruct w as [m f calls sids cids].
      cbn [manager] in *.
      unfold bind at 1, record_call at 1. cbn [manager failed poolCalls spkIds ckIds].
      assert (Htail : forall w', manager w' = m ->
                registry_ok (manager (load_tail tk (absPath tk filePath) w').2)).
      { intros w' Hm. pose proof (load_tail_spec (absPath tk filePath) w') as H.
        destruct (load_tail _ _ w') as [[h| |] w1]; simpl.
        - destruct H as [(-> & Hks & Hl1 & _) _]. rewrite Hm in *.
          unfold registry_ok. rewrite Hks, Hl1. unfold uint_wrap.
          rewrite Z.mod_small by lia. split; [lia|].
          apply Forall_app. split.
          + eapply Forall_impl; [exact Hids|]. simpl. lia.
          + repeat constructor; simpl; lia.
        - destruct H as [H _]. eapply registry_ok_same; [exact H|].
          rewrite Hm. by split.
        - destruct H as [H _]. eapply registry_ok_same; [exact H|].
          rewrite Hm. by split. }
      assert (Hstep : forall w', manager w' = m ->
                registry_ok (manager
                  ((check_failed "Kernel loading" ;;;
                    load_tail tk (absPath tk filePath)) w').2)).
      { intros [m' f' calls' sids' cids'] Hm. simpl in Hm. subst m'.
        unfold bind at 1. rewrite check_failed_run. unfold clear_failed.
        cbn [manager failed poolCalls spkIds ckIds].
        destruct f'; [destruct (_useExceptions m)|]; simpl;
          [by split | by apply Htail..]. }
      unfold bind at 1. destruct (furnsh_c tk _); by apply Hstep.
  - unfold unloadKernel, bind at 1, get_manager at 1.
    destruct (_loadedKernels (manager w) !! _); [apply Hrel | by split].
  - unfold unloadKernel_path, bind at 1, get_manager at 1.
    destruct (_loadedKernels (manager w) !! _); [apply Hrel|].
    destruct (_useExceptions (manager w)); by split.
Qed.

(** C4, as amended.  When [furnsh_c] fails on a path that is not loaded:
    with exception handling on [loadKernel] throws and the manager is as
    before, so no record was created, no handle used and [loadedKernels]
    is unchanged; with exception handling off the error flag is reset and
    the load goes on as after a success, appending a record with the next
    handle and reference count 1. *)
Theorem loadKernel_furnsh_failure (filePath : string) (w : World) :
  Forall (fun k => has_path (absPath tk filePath) k = false)
         (_loadedKernels (manager w)) ->
  furnsh_c tk (absPath tk filePath) = false ->
  exists o w1,
    loadKernel tk filePath w = (o, w1) /\
    if _useExceptions (manager w) then
      o = Thrown (SpiceError "Kernel loading") /\
      manager w1 = manager w /\
      loadedKernels (manager w1) = loadedKernels (manager w)
    else
      o = Returned (uint_wrap (_lastAssignedKernel (manager w) + 1)) /\
      _loadedKernels (manager w1) =
        _loadedKernels (manager w) ++
        [KernelInformation.Build (absPath tk filePath)
           (uint_wrap (_lastAssignedKernel (manager w) + 1)) 1].
Proof.
  intros Hfresh Hfail. rewrite (loadKernel_not_loaded _ _ Hfresh), Hfail.
  destruct w as [m f calls sids cids]. cbn [manager].
  unfold bind at 1, record_call at 1. cbn [manager failed poolCalls spkIds ckIds].
  unfold bind at 1, signal at 1. cbn [manager failed poolCalls spkIds ckIds].
  unfold bind at 1. rewrite check_failed_run. unfold clear_failed.
  cbn [manager failed poolCalls spkIds ckIds].
  destruct (_useExceptions m) eqn:E.
  - do 2 eexists. split; [reflexivity|]. by repeat split.
  - 
    pose proof (load_tail_spec (absPath tk filePath)
                  {| manager := m; failed := false;
                     poolCalls := calls ++ [Furnsh (absPath tk filePath)];
                     spkIds := sids; ckIds := cids |}) as H.
    destruct (load_tail _ _ _) as [[h| |] w1]; cbn [manager] in H.
    + destruct H as [(-> & H2 & _) _]. do 2 eexists. by split.
    + destruct H as [_ H]. congruence.
    + destruct H as [_ H]. congruence.
Qed.


(** C8.  Unloading a kernel, by handle or by path, leaves the SPK and CK
    interval maps and both boundary-point sets as they were, whatever the
    outcome: also when the record is removed and [unload_c] is called. *)
Theorem unloadKernel_keeps_coverage (w : World) (kernelId : KernelHandle)
    (filePath : string) :
  coverage_tables (manager (unloadKernel kernelId w).2)
    = coverage_tables (manager w) /\
  coverage_tables (manager (unloadKernel_path tk filePath w).2)
    = coverage_tables (manager w).
Proof.
  split.
  - unfold unloadKernel, bind at 1, get_manager at 1.
    destruct (_loadedKernels (manager w) !! _); [apply release_coverage|done].
  - unfold unloadKernel_path, bind at 1, get_manager at 1.
    destruct (_loadedKernels (manager w) !! _); [apply release_coverage|].
    by destruct (_useExceptions (manager w)).
Qed.

End Registry.

(** C4, the claim as stated fails with exception handling off: [furnsh_c]
    rejects the file, yet [loadKernel] returns handle 1 and the registry,
    empty before, lists the file. *)
Lemma loadKernel_rejected_file_is_registered :
  furnsh_c Demo.toolkit (absPath Demo.toolkit "broken.bsp") = false /\
  loadedKernels (manager (Demo.world0 false)) = [] /\
  (loadKernel Demo.toolkit "broken.bsp" (Demo.world0 false)).1 = Returned 1 /\
  loadedKernels (manager (loadKernel Demo.toolkit "broken.bsp" (Demo.world0 false)).2)
    = ["broken.bsp"%string].
Proof. repeat split; vm_compute; reflexivity. Qed.

(** An instance: a file [furnsh_c] rejects, with exception handling on. *)
Lemma loadKernel_furnsh_failure_witness :
  exists w1,
    loadKernel Demo.toolkit "broken.bsp" (Demo.world0 true)
      = (Thrown (SpiceError "Kernel loading"), w1) /\
    loadedKernels (manager w1) = [].
Proof.
  destruct (loadKernel_furnsh_failure Demo.toolkit "broken.bsp" (Demo.world0 true))
    as (o & w1 & Hrun & -> & _ & Hks).
  - apply Forall_nil_2.
  - reflexivity.
  - exists w1. split; [exact Hrun | exact Hks].
Defined.


(** ** The coverage tables stay well formed

    The hypotheses the estimates are proved under hold of every manager the
    member functions build: the boundary sets stay ascending, and stay sets
    of doubles when the toolkit reports doubles. *)

Section Keeps.

Variable P : SpiceManager -> Prop.

Lemma keeps_ret {A} (a : A) : keeps P (ret a).
Proof. by intros w. Qed.

Lemma keeps_bind_with {A B} (Q : A -> Prop) (c : M A) (k : A -> M B) :
  keeps P c ->
  (forall w a w1, P (manager w) -> c w = (Returned a, w1) -> Q a) ->
  (forall a, Q a -> keeps P (k a)) ->
  keeps P (bind c k).
Proof.
  intros Hc HQ Hk w Hw. unfold bind. specialize (Hc w Hw). specialize (HQ w).
  destruct (c w) as [[a| |] w1]; simpl in *; [|done..].
  apply Hk; [by eapply HQ | done].
Qed.

Lemma keeps_bind {A B} (c : M A) (k : A -> M B) :
  keeps P c -> (forall a, keeps P (k a)) -> keeps P (bind c k).
Proof.
  intros Hc Hk. apply (keeps_bind_with (fun _ => True)); [done|done|].
  intros a _. apply Hk.
Qed.

Lemma keeps_call {A} (primitive : option A) (buffer : A) :
  keeps P (call primitive buffer).
Proof. by destruct primitive; intros w. Qed.

Lemma keeps_obj_on_cell tk (path : string) :
  keeps P (spkobj_on_cell tk path) /\ keeps P (ckobj_on_cell tk path).
Proof.
  split; intros w Hw.
  - unfold spkobj_on_cell. by destruct (spkobj_c tk path (spkIds w)).
  - unfold ckobj_on_cell. by destruct (ckobj_c tk path (ckIds w)).
Qed.

Lemma keeps_check_failed (msg : string) : keeps P (check_failed msg).
Proof.
  intros w Hw. rewrite check_failed_run.
  by destruct (failed w), (_useExceptions (manager w)).
Qed.

Lemma keeps_fetch_intervals msg ins (cover : intervals) :
  Forall (fun i => keeps P (ins i.1 i.2)) cover ->
  keeps P (fetch_intervals msg ins cover).
Proof.
  induction 1 as [|[b e] rest Hi _ IH]; simpl; [apply keeps_ret|].
  apply keeps_bind; [apply keeps_check_failed|]. intros _.
  apply keeps_bind; [exact Hi|]. intros _. exact IH.
Qed.

Lemma keeps_scan_objects msg cov ins (ids : list Z) :
  (forall obj cover, cov obj = Some cover ->
     Forall (fun i => keeps P (ins obj i.1 i.2)) cover) ->
  keeps P (scan_objects msg cov ins ids).
Proof.
  intros Hins. induction ids as [|obj rest IH]; simpl; [apply keeps_ret|].
  apply (keeps_bind_with
           (fun cover => Forall (fun i => keeps P (ins obj i.1 i.2)) cover));
    [apply keeps_call| |].
  - intros w cover w1 _. unfold call. destruct (cov obj) as [c|] eqn:E.
    + intros [= <- _]. by apply Hins.
    + unfold bind, signal, ret. intros [= <- _]. constructor.
  - intros cover Hcover.
    apply keeps_bind; [apply keeps_check_failed|]. intros _.
    apply keeps_bind; [by apply keeps_fetch_intervals|]. intros _. exact IH.
Qed.

(** Both overloads of [unloadKernel] keep what only depends on the
    coverage tables, and so does the first branch of [loadKernel]. *)
Hypothesis P_tables :
  forall m m', coverage_tables m' = coverage_tables m -> P m -> P m'.

Lemma keeps_loadKernel tk (filePath : string) :
  (forall path, keeps P (findCkCoverage tk path)) ->
  (forall path, keeps P (findSpkCoverage tk path)) ->
  keeps P (loadKernel tk filePath).
Proof.
  intros Hck Hspk. unfold loadKernel.
  apply (keeps_bind_with P); [by intros w|by intros w a w1 Hw [= <- _]|].
  intros m Hm. destruct (_loadedKernels m !! _) as [info|].
  - destruct (_ =? INT_MAX); [by intros w|].
    intros w _. simpl. by apply (P_tables m).
  - apply keeps_bind; [by intros w|]. intros _.
    apply keeps_bind; [by destruct (furnsh_c tk _); intros w|]. intros _.
    apply keeps_bind; [apply keeps_check_failed|]. intros _.
    apply keeps_bind.
    { destruct (is_coverage_extension _ ".bc" ".BC"); [apply Hck|].
      destruct (is_coverage_extension _ ".bsp" ".BSP"); [apply Hspk|].
      apply keeps_ret. }
    intros _ w Hw. simpl. by apply (P_tables (manager w)).
Qed.

Lemma keeps_unloadKernel tk (kernelId : KernelHandle) (filePath : string) :
  keeps P (unloadKernel kernelId) /\ keeps P (unloadKernel_path tk filePath).
Proof.
  assert (Hrel : forall it info path, keeps P (release it info path)).
  { intros it info path w Hw. unfold release, bind, get_manager.
    destruct (_ =? 1); simpl; [by apply (P_tables (manager w))|].
    destruct (_ =? INT_MIN); simpl; [done | by apply (P_tables (manager w))]. }
  split; intros w Hw.
  - unfold unloadKernel, bind at 1, get_manager at 1.
    destruct (_loadedKernels (manager w) !! _); [by apply Hrel|done].
  - unfold unloadKernel_path, bind at 1, get_manager at 1.
    destruct (_loadedKernels (manager w) !! _); [by apply Hrel|].
    by destruct (_useExceptions (manager w)).
Qed.

End Keeps.

Lemma boundary_sorted_tables (m m' : SpiceManager) :
  coverage_tables m' = coverage_tables m -> boundary_sorted m -> boundary_sorted m'.
Proof. unfold coverage_tables, boundary_sorted. intros [= _ _ -> ->]. done. Qed.

Lemma boundary_doubles_tables (m m' : SpiceManager) :
  coverage_tables m' = coverage_tables m -> boundary_doubles m -> boundary_doubles m'.
Proof. unfold coverage_tables, boundary_doubles. intros [= _ _ -> _]. done. Qed.

Lemma inserted_sorted (b e : double) (o : option DoubleSet.t) :
  (forall s, o = Some s -> DoubleSet.sorted s) ->
  DoubleSet.sorted (DoubleSet.insert b (DoubleSet.insert e (default [] o))).
Proof.
  intros Ho. do 2 apply DoubleSetFacts.insert_sorted.
  destruct o as [s|]; simpl; [by apply Ho | constructor].
Qed.

Lemma insert_spk_sorted (obj : Z) (b e : double) :
  keeps boundary_sorted (insert_spk obj b e).
Proof.
  intros w [Hspk Hck]. split; simpl; [|exact Hck].
  intros id s. rewrite lookup_insert. case_decide as E.
  - intros [= <-]. apply inserted_sorted. apply Hspk.
  - apply Hspk.
Qed.

Lemma insert_ck_sorted (frame : Z) (b e : double) :
  keeps boundary_sorted (insert_ck frame b e).
Proof.
  intros w [Hspk Hck]. split; simpl; [exact Hspk|].
  intros id s. rewrite lookup_insert. case_decide as E.
  - intros [= <-]. apply inserted_sorted. apply Hck.
  - apply Hck.
Qed.

(** Loading and unloading kernels keeps every boundary set ascending. *)
Lemma boundary_sorted_invariant tk (filePath : string) (kernelId : KernelHandle) :
  keeps boundary_sorted (loadKernel tk filePath) /\
  keeps boundary_sorted (unloadKernel kernelId) /\
  keeps boundary_sorted (unloadKernel_path tk filePath).
Proof.
  split; [|apply keeps_unloadKernel, boundary_sorted_tables].
  apply keeps_loadKernel; [apply boundary_sorted_tables| |]; intros path.
  - unfold findCkCoverage.
    apply keeps_bind; [apply keeps_obj_on_cell|]. intros ids.
    apply keeps_bind; [apply keeps_check_failed|]. intros _.
    apply keeps_scan_objects. intros obj cover _.
    apply Forall_forall. intros i _. apply insert_ck_sorted.
  - unfold findSpkCoverage.
    apply keeps_bind; [apply keeps_obj_on_cell|]. intros ids.
    apply keeps_bind; [apply keeps_check_failed|]. intros _.
    apply keeps_scan_objects. intros obj cover _.
    apply Forall_forall. intros i _. apply insert_spk_sorted.
Qed.

Lemma insert_spk_doubles (obj : Z) (b e : double) :
  is_double b -> is_double e -> keeps boundary_doubles (insert_spk obj b e).
Proof.
  intros Hb He w Hw id s. simpl. rewrite lookup_insert. case_decide as E.
  - intros [= <-]. apply Forall_forall. intros x Hx.
    apply DoubleSetFacts.insert_elem in Hx as [->|Hx]; [done|].
    apply DoubleSetFacts.insert_elem in Hx as [->|Hx]; [done|].
    destruct (_spkCoverageTimes (manager w) !! obj) as [s0|] eqn:E0; simpl in Hx.
    + by apply (proj1 (Forall_forall _ _) (Hw _ _ E0)).
    + by apply elem_of_nil in Hx.
  - apply Hw.
Qed.

(** Loading and unloading kernels keeps the SPK boundary points doubles,
    when [spkcov_c] reports doubles. *)
Lemma boundary_doubles_invariant tk (filePath : string) (kernelId : KernelHandle) :
  coverage_doubles tk ->
  keeps boundary_doubles (loadKernel tk filePath) /\
  keeps boundary_doubles (unloadKernel kernelId) /\
  keeps boundary_doubles (unloadKernel_path tk filePath).
Proof.
  intros Htk.
  split; [|apply keeps_unloadKernel, boundary_doubles_tables].
  apply keeps_loadKernel; [apply boundary_doubles_tables| |]; intros path.
  - unfold findCkCoverage.
    apply keeps_bind; [apply keeps_obj_on_cell|]. intros ids.
    apply keeps_bind; [apply keeps_check_failed|]. intros _.
    apply keeps_scan_objects. intros obj cover _.
    apply Forall_forall. intros i _ w Hw. exact Hw.
  - unfold findSpkCoverage.
    apply keeps_bind; [apply keeps_obj_on_cell|]. intros ids.
    apply keeps_bind; [apply keeps_check_failed|]. intros _.
    apply keeps_scan_objects. intros obj cover Hcover.
    eapply Forall_impl; [exact (Htk _ _ _ Hcover)|].
    intros i [H1 H2]. by apply insert_spk_doubles.
Qed.

(** ** Frame transformations *)

Section Transform.

Variable tk : Toolkit.

(** Whatever [pxform_c] does, [positionTransformMatrix] never reaches the
    estimator: a failure is thrown with exception handling on, and with it
    off [throwSpiceError] has reset the flag before [success] is read. *)
Lemma positionTransformMatrix_run (sourceFrame destinationFrame : string)
    (ephemerisTime : double) (w : World) :
  positionTransformMatrix tk sourceFrame destinationFrame ephemerisTime w =
    let result :=
      default (dmat3_diag one)
              (pxform_c tk sourceFrame destinationFrame ephemerisTime) in
    let signalled :=
      failed w ||
      negb (bool_decide (is_Some
              (pxform_c tk sourceFrame destinationFrame ephemerisTime))) in
    if signalled && _useExceptions (manager w)
    then (Thrown (SpiceError ""), clear_failed w)
    else (Returned (transpose result), clear_failed w).
Proof.
  unfold positionTransformMatrix.
  destruct w as [m f calls sids cids].
  destruct (pxform_c tk sourceFrame destinationFrame ephemerisTime) as [r|];
    cbn [call default from_option id].
  - unfold bind at 1, ret at 1. unfold bind at 1. rewrite check_failed_run.
    cbn [failed manager]. destruct f, (_useExceptions m); reflexivity.
  - unfold bind at 1, bind at 1, signal, ret at 1. unfold bind at 1.
    rewrite check_failed_run.
    cbn [failed manager]. destruct f, (_useExceptions m); reflexivity.
Qed.

End Transform.

(** C3, the code at a failing input.  At time 50 [pxform_c] fails for the
    probe's frame, and the estimator would answer with the rotation known
    at the first boundary, 100.  [positionTransformMatrix] does not: with
    exception handling off it returns the untouched identity matrix, with
    exception handling on it throws. *)
Theorem positionTransformMatrix_fallback_unreachable :
  pxform_c Demo.toolkit "PROBE_FRAME" "J2000" (of_Z 50) = None /\
  (getEstimatedTransformMatrix Demo.toolkit "PROBE_FRAME" "J2000" (of_Z 50)
     (Demo.frame_world false)).1 = Returned Demo.quarter_turn /\
  (positionTransformMatrix Demo.toolkit "PROBE_FRAME" "J2000" (of_Z 50)
     (Demo.frame_world false)).1 = Returned (dmat3_diag one) /\
  transpose Demo.quarter_turn <> dmat3_diag one /\
  (positionTransformMatrix Demo.toolkit "PROBE_FRAME" "J2000" (of_Z 50)
     (Demo.frame_world true)).1 = Thrown (SpiceError "").
Proof.
  split; [reflexivity|]. split; [vm_compute; reflexivity|].
  split; [rewrite positionTransformMatrix_run; reflexivity|].
  split; [discriminate|].
  rewrite positionTransformMatrix_run; reflexivity.
Qed.

(** ** Position estimates *)

Section Estimation.

Variable tk : Toolkit.
Variable w : World.
Variables target observer referenceFrame : string.
Variable aberrationCorrection : AberrationCorrection.t.
Variable lightTime : double.
Variable targetId : Z.
Variable coveredTimes : DoubleSet.t.

Hypothesis target_id : naifId tk target (manager w) = Returned targetId.
(** The barycenter, id 0, is covered at all times, so it is never estimated
    (see [uncovered_not_barycenter]); for it the function returns the zero
    vector before it reads the table. *)
Hypothesis not_barycenter : targetId <> 0.
Hypothesis boundary_points :
  _spkCoverageTimes (manager w) !! targetId = Some coveredTimes.
Hypothesis no_pending_error : failed w = false.

Local Abbreviation exact_at :=
  (exact_position tk target observer referenceFrame aberrationCorrection).
Local Abbreviation estimate_at t :=
  (getEstimatedPosition tk target observer referenceFrame aberrationCorrection
     t lightTime w).

Lemma estimate_enters (ephemerisTime : double) :
  estimate_at ephemerisTime =
    (let abcorr := AberrationCorrection.to_cstr aberrationCorrection in
     let pos := dvec3_splat zero in
     if Nat.eqb (DoubleSet.lower_bound coveredTimes ephemerisTime)
                (DoubleSet.begin coveredTimes) then
       let* first :=
         deref_or_undefined
           (DoubleSet.deref coveredTimes (DoubleSet.begin coveredTimes)) in
       let* r := call (spkpos_c tk target first referenceFrame abcorr observer)
                      (pos, lightTime) in
       check_failed "Error estimating position" ;;;
       ret r
     else if Nat.eqb (DoubleSet.upper_bound coveredTimes ephemerisTime)
                     (DoubleSet.end_ coveredTimes) then
       let* last := deref_or_undefined (DoubleSet.rbegin coveredTimes) in
       let* r := call (spkpos_c tk target last referenceFrame abcorr observer)
                      (pos, lightTime) in
       check_failed "Error estimating position" ;;;
       ret r
     else
       let* timeEarlier :=
         deref_or_undefined
           (DoubleSet.deref coveredTimes
              (Nat.pred (DoubleSet.lower_bound coveredTimes ephemerisTime))) in
       let* earlier :=
         call_uninit (spkpos_c tk target timeEarlier referenceFrame abcorr observer) in
       let* timeLater :=
         deref_or_undefined
           (DoubleSet.deref coveredTimes
              (DoubleSet.upper_bound coveredTimes ephemerisTime)) in
       let* later :=
         call_uninit (spkpos_c tk target timeLater referenceFrame abcorr observer) in
       check_failed "Error estimating position" ;;;
       match earlier, later with
       | Some (posEarlier, ltEarlier), Some (posLater, ltLater) =>
           let t := ((ephemerisTime - timeEarlier) / (timeLater - timeEarlier))%D in
           ret (vlerp posEarlier posLater t, lerp ltEarlier ltLater t)
       | _, _ => undefined
       end) w.
Proof.
  unfold getEstimatedPosition.
  unfold bind at 1, lift at 1. rewrite target_id.
  destruct (Z.eqb_spec targetId 0) as [E|_]; [done|].
  unfold bind at 1, get_manager at 1. by rewrite boundary_points.
Qed.

(** Before the first boundary point: the exact position there. *)
Lemma estimate_before_first (time first : double) (rest : DoubleSet.t)
    (r : dvec3 * double) :
  coveredTimes = first :: rest ->
  (first <? time)%D = false ->
  exact_at first = Some r ->
  estimate_at time = (Returned r, w).
Proof.
  intros Hset Hlow Hexact. rewrite estimate_enters, Hset.
  unfold DoubleSet.begin, DoubleSet.end_, DoubleSet.deref.
  cbn [DoubleSet.lower_bound]. rewrite Hlow.
  change ((first :: rest) !! 0%nat) with (Some first).
  cbn [Nat.eqb deref_or_undefined].
  unfold exact_position in Hexact.
  unfold bind at 1, ret at 1. rewrite Hexact.
  unfold call, bind at 1, ret at 1. unfold bind. rewrite check_failed_run.
  by rewrite no_pending_error.
Qed.

(** After the last boundary point: the exact position there. *)
Lemma estimate_after_last (time last : double) (r : dvec3 * double) :
  DoubleSet.lower_bound coveredTimes time <> 0%nat ->
  DoubleSet.upper_bound coveredTimes time = length coveredTimes ->
  DoubleSet.rbegin coveredTimes = Some last ->
  exact_at last = Some r ->
  estimate_at time = (Returned r, w).
Proof.
  intros Hlow Hup Hlast Hexact. rewrite estimate_enters.
  unfold DoubleSet.begin, DoubleSet.end_.
  apply Nat.eqb_neq in Hlow. rewrite Hlow.
  rewrite Hup, Nat.eqb_refl, Hlast.
  unfold exact_position in Hexact.
  unfold deref_or_undefined, bind at 1, ret at 1. rewrite Hexact.
  unfold call, bind at 1, ret at 1. unfold bind. rewrite check_failed_run.
  by rewrite no_pending_error.
Qed.

(** Between two boundary points: the linear blend of the exact positions
    and light times at the two points the iterators give. *)
Lemma estimate_between (time before after : double)
    (posEarlier posLater : dvec3) (ltEarlier ltLater : double) :
  DoubleSet.lower_bound coveredTimes time <> 0%nat ->
  DoubleSet.upper_bound coveredTimes time <> length coveredTimes ->
  coveredTimes !! Nat.pred (DoubleSet.lower_bound coveredTimes time) = Some before ->
  coveredTimes !! DoubleSet.upper_bound coveredTimes time = Some after ->
  exact_at before = Some (posEarlier, ltEarlier) ->
  exact_at after = Some (posLater, ltLater) ->
  estimate_at time =
    (Returned (vlerp posEarlier posLater ((time - before) / (after - before))%D,
               lerp ltEarlier ltLater ((time - before) / (after - before))%D), w).
Proof.
  intros Hlow Hup Hb Ha Hexb Hexa. rewrite estimate_enters.
  unfold DoubleSet.begin, DoubleSet.end_, DoubleSet.deref.
  apply Nat.eqb_neq in Hlow, Hup. rewrite Hlow, Hup, Hb, Ha.
  unfold exact_position in Hexb, Hexa.
  unfold deref_or_undefined, bind at 1, ret at 1.
  unfold bind at 1. rewrite Hexb. unfold call_uninit at 1, ret at 1.
  unfold bind at 1, ret at 1.
  unfold bind at 1. rewrite Hexa. unfold call_uninit at 1, ret at 1.
  unfold bind. rewrite check_failed_run.
  by rewrite no_pending_error.
Qed.

(** C1.  With the boundary points 100 and 200 the estimate at 50 is the
    exact position at 100, at 250 the exact position at 200, and at 150
    the blend of both, position and light time, with weight 0.5.  In
    general, when [before] is the greatest boundary point below the time
    and [after] the least one above it, the estimate blends the exact
    values at [before] and [after] with weight
    [(time - before) / (after - before)]. *)
Theorem getEstimatedPosition_boundary_law :
  (coveredTimes = [of_Z 100; of_Z 200] ->
   forall p100 lt100 p200 lt200,
     exact_at (of_Z 100) = Some (p100, lt100) ->
     exact_at (of_Z 200) = Some (p200, lt200) ->
     estimate_at (of_Z 50) = (Returned (p100, lt100), w) /\
     estimate_at (of_Z 250) = (Returned (p200, lt200), w) /\
     estimate_at (of_Z 150) =
       (Returned (vadd (vscale p100 half) (vscale p200 half),
                  (lt100 * half + lt200 * half)%D), w)) /\
  (forall time before after posEarlier ltEarlier posLater ltLater,
     DoubleSet.sorted coveredTimes ->
     before ∈ coveredTimes -> after ∈ coveredTimes ->
     DoubleSet.lt before time -> DoubleSet.lt time after ->
     (forall e, e ∈ coveredTimes -> DoubleSet.lt e time -> (before <? e)%D = false) ->
     (forall e, e ∈ coveredTimes -> DoubleSet.lt time e -> (e <? after)%D = false) ->
     exact_at before = Some (posEarlier, ltEarlier) ->
     exact_at after = Some (posLater, ltLater) ->
     let t := ((time - before) / (after - before))%D in
     estimate_at time =
       (Returned (vadd (vscale posEarlier (one - t)%D) (vscale posLater t),
                  (ltEarlier * (one - t) + ltLater * t)%D), w)).
Proof.
  split.
  - intros Hset p100 lt100 p200 lt200 H100 H200. repeat split.
    + by apply (estimate_before_first (of_Z 50) (of_Z 100) [of_Z 200]).
    + apply (estimate_after_last (of_Z 250) (of_Z 200)); try done;
        rewrite Hset; vm_compute; congruence.
    + apply (estimate_between (of_Z 150) (of_Z 100) (of_Z 200) p100 p200 lt100 lt200);
        try done; rewrite Hset; vm_compute; congruence.
  - intros time before after pE ltE pL ltL Hs Hb Ha Hbt Hta Hg Hl Hexb Hexa t.
    destruct (DoubleSetFacts.bracket coveredTimes time before after) as (H1 & H2 & H3 & H4);
      try done.
    by apply estimate_between.
Qed.

End Estimation.

(** An instance: the probe seen from the Sun, estimated at 50, 250 and 150. *)
Lemma getEstimatedPosition_boundary_law_witness :
  let estimate_at t :=
    (getEstimatedPosition Demo.toolkit "PROBE" "SUN" "J2000"
       (AberrationCorrection.Build AberrationCorrection.LightTime
                                   AberrationCorrection.Reception)
       t zero (Demo.probe_world true)).1 in
  estimate_at (of_Z 50) = Returned (dvec3_splat (of_Z 100), of_Z 100) /\
  estimate_at (of_Z 250) = Returned (dvec3_splat (of_Z 200), of_Z 200) /\
  estimate_at (of_Z 150) = Returned (dvec3_splat (of_Z 150), of_Z 150).
Proof.
  intros estimate_at.
  destruct (getEstimatedPosition_boundary_law Demo.toolkit (Demo.probe_world true)
              "PROBE" "SUN" "J2000"
              (AberrationCorrection.Build AberrationCorrection.LightTime
                                          AberrationCorrection.Reception)
              zero (-98) [of_Z 100; of_Z 200])
    as [H _]; [reflexivity | discriminate | reflexivity | reflexivity |].
  destruct (H eq_refl (dvec3_splat (of_Z 100)) (of_Z 100)
              (dvec3_splat (of_Z 200)) (of_Z 200) eq_refl eq_refl)
    as (H50 & H250 & H150).
  unfold estimate_at.
  rewrite H50, H250, H150. repeat split.
Defined.

(** ** Symmetry of [targetPosition] *)

Lemma bind_Returned {A B} (c : M A) (k : A -> M B) (w w2 : World) (b : B) :
  bind c k w = (Returned b, w2) ->
  exists a w1, c w = (Returned a, w1) /\ k a w1 = (Returned b, w2).
Proof.
  unfold bind. destruct (c w) as [[a| |] w1]; [|discriminate..].
  intros H. by exists a, w1.
Qed.

Lemma vlerp_is_double (a b : dvec3) (t : double) :
  vec_is_double a -> vec_is_double b -> is_double t ->
  vec_is_double (vlerp a b t).
Proof.
  intros (A1 & A2 & A3) (B1 & B2 & B3) Ht.
  assert (H1 : is_double (one - t)%D) by (by apply DoubleFacts.SFsub_valid).
  repeat split; simpl;
    apply DoubleFacts.SFadd_valid; by apply DoubleFacts.SFmul_valid.
Qed.

Lemma vscale_neg_one (p : dvec3) :
  vec_is_double p -> vscale p neg_one = vopp p.
Proof.
  intros (H1 & H2 & H3). unfold vscale, vopp, Double.mul, Double.opp.
  by rewrite !DoubleFacts.mul_neg_one.
Qed.

Lemma vopp_involutive (p : dvec3) : vopp (vopp p) = p.
Proof.
  destruct p. unfold vopp, Double.opp. simpl.
  by rewrite !DoubleFacts.opp_involutive.
Qed.

Section Symmetry.

Variable tk : Toolkit.
Hypothesis tk_doubles : toolkit_doubles tk.

(** The position [getEstimatedPosition] returns is made of doubles. *)
Lemma estimate_is_double (target observer referenceFrame : string)
    (aberrationCorrection : AberrationCorrection.t)
    (ephemerisTime lightTime : double) (w w' : World) (r : dvec3 * double) :
  is_double ephemerisTime -> boundary_doubles (manager w) ->
  getEstimatedPosition tk target observer referenceFrame aberrationCorrection
    ephemerisTime lightTime w = (Returned r, w') ->
  vec_is_double r.1.
Proof.
  intros Het Hset. unfold getEstimatedPosition.
  intros (targetId & w1 & Hid & Hrun)%bind_Returned.
  unfold lift in Hid. injection Hid as Hid <-.
  assert (Hzero : vec_is_double (dvec3_splat zero)) by done.
  destruct (targetId =? 0); [injection Hrun as <- _; exact Hzero|].
  apply bind_Returned in Hrun as (m & w2 & Hm & Hrun).
  injection Hm as <- <-.
  destruct (_spkCoverageTimes (manager w) !! targetId) as [coveredTimes|] eqn:Hs;
    [|destruct (_useExceptions (manager w));
      [discriminate | injection Hrun as <- _; exact Hzero]].
  pose proof (Hset _ _ Hs) as Hd. rewrite Forall_forall in Hd.
  assert (Hcall : forall et w3 w4 r',
            is_double et ->
            call (spkpos_c tk target et referenceFrame
                    (AberrationCorrection.to_cstr aberrationCorrection) observer)
                 (dvec3_splat zero, lightTime) w3 = (Returned r', w4) ->
            vec_is_double r'.1).
  { intros et w3 w4 r' Hv. unfold call.
    destruct (spkpos_c tk target et referenceFrame _ observer) as [[p lt]|] eqn:E.
    - intros [= <- _]. by apply (tk_doubles _ _ _ _ _ _ _ Hv E).
    - intros (_ & _ & _ & [= <- _])%bind_Returned. exact Hzero. }
  destruct (Nat.eqb _ _).
  { apply bind_Returned in Hrun as (first & w3 & Hfirst & Hrun).
    apply bind_Returned in Hrun as (r' & w4 & Hr & Hrun).
    apply bind_Returned in Hrun as (_ & w5 & _ & [= <- _]).
    eapply Hcall; [|exact Hr]. apply Hd.
    unfold DoubleSet.deref, deref_or_undefined in Hfirst.
    destruct (coveredTimes !! _) eqn:E; [|discriminate].
    injection Hfirst as <- _. by eapply list_elem_of_lookup_2. }
  destruct (Nat.eqb _ _).
  { apply bind_Returned in Hrun as (tlast & w3 & Hlast & Hrun).
    apply bind_Returned in Hrun as (r' & w4 & Hr & Hrun).
    apply bind_Returned in Hrun as (_ & w5 & _ & [= <- _]).
    eapply Hcall; [|exact Hr]. apply Hd.
    unfold DoubleSet.rbegin, deref_or_undefined in Hlast.
    destruct (last coveredTimes) eqn:E; [|discriminate].
    injection Hlast as <- _. by apply last_Some_elem_of. }
  apply bind_Returned in Hrun as (timeEarlier & w3 & HtE & Hrun).
  apply bind_Returned in Hrun as (earlier & w4 & HE & Hrun).
  apply bind_Returned in Hrun as (timeLater & w5 & HtL & Hrun).
  apply bind_Returned in Hrun as (later & w6 & HL & Hrun).
  apply bind_Returned in Hrun as (_ & w7 & _ & Hrun).
  assert (Hderef : forall it w3 w4 t,
            deref_or_undefined (DoubleSet.deref coveredTimes it) w3 = (Returned t, w4) ->
            is_double t).
  { intros it wa wb t. unfold DoubleSet.deref, deref_or_undefined.
    destruct (coveredTimes !! it) eqn:E; [|discriminate].
    intros [= <- _]. apply Hd. by eapply list_elem_of_lookup_2. }
  apply Hderef in HtE, HtL.
  assert (Huninit : forall et w3 w4 p lt,
            is_double et ->
            call_uninit (spkpos_c tk target et referenceFrame
                    (AberrationCorrection.to_cstr aberrationCorrection) observer)
                 w3 = (Returned (Some (p, lt)), w4) ->
            vec_is_double p).
  { intros et wa wb p lt Hv. unfold call_uninit.
    destruct (spkpos_c tk target et referenceFrame _ observer) as [[p' lt']|] eqn:E.
    - intros [= <- _ _]. by apply (tk_doubles _ _ _ _ _ _ _ Hv E).
    - intros (_ & _ & _ & [=])%bind_Returned. }
  destruct earlier as [[posEarlier ltEarlier]|]; [|discriminate].
  destruct later as [[posLater ltLater]|]; [|discriminate].
  injection Hrun as <- _. simpl.
  apply vlerp_is_double.
  - exact (Huninit _ _ _ _ _ HtE HE).
  - exact (Huninit _ _ _ _ _ HtL HL).
  - apply DoubleFacts.SFdiv_valid; by apply DoubleFacts.SFsub_valid.
Qed.

(** The branch [targetPosition] takes, from the two coverage answers. *)
Lemma targetPosition_dispatch (target observer referenceFrame : string)
    (aberrationCorrection : AberrationCorrection.t)
    (ephemerisTime lightTime : double) (w : World)
    (targetHasCoverage observerHasCoverage : bool) :
  hasSpkCoverage tk target ephemerisTime (manager w) = Returned targetHasCoverage ->
  hasSpkCoverage tk observer ephemerisTime (manager w) = Returned observerHasCoverage ->
  targetPosition tk target observer referenceFrame aberrationCorrection
    ephemerisTime lightTime w =
  (if negb targetHasCoverage && negb observerHasCoverage then
     let* m := get_manager in
     if _useExceptions m then
       throw (NoSpkCoverage target observer ephemerisTime)
     else ret (dvec3_splat zero, lightTime)
   else if targetHasCoverage && observerHasCoverage then
     let* r := call (spkpos_c tk target ephemerisTime referenceFrame
                       (AberrationCorrection.to_cstr aberrationCorrection) observer)
                    (dvec3_splat zero, lightTime) in
     check_failed "Error getting position" ;;;
     ret r
   else if targetHasCoverage then
     let* r := getEstimatedPosition tk observer target referenceFrame
                 aberrationCorrection ephemerisTime lightTime in
     ret (vscale r.1 neg_one, r.2)
   else
     getEstimatedPosition tk target observer referenceFrame
       aberrationCorrection ephemerisTime lightTime) w.
Proof.
  intros HT HO. unfold targetPosition.
  unfold bind at 1, lift at 1. rewrite HT.
  unfold bind at 1, lift at 1. by rewrite HO.
Qed.

(** C2.  When exactly one of two bodies has SPK coverage at the time,
    the estimation path estimates the uncovered body relative to the
    covered one, whichever way round the call is made: [targetPosition] of
    the uncovered body seen from the covered one is that estimate, and
    [targetPosition] with the roles exchanged is the same estimate with the
    position negated.  So [targetPosition] of the one seen from the other
    is the negation of [targetPosition] with the roles exchanged: the same
    outcome with the position negated. *)
Theorem targetPosition_antisymmetric (A B referenceFrame : string)
    (aberrationCorrection : AberrationCorrection.t)
    (ephemerisTime lightTime : double) (w : World) (coveredA coveredB : bool) :
  hasSpkCoverage tk A ephemerisTime (manager w) = Returned coveredA ->
  hasSpkCoverage tk B ephemerisTime (manager w) = Returned coveredB ->
  coveredA <> coveredB ->
  is_double ephemerisTime -> boundary_doubles (manager w) ->
  let uncovered := if coveredA then B else A in
  let covered := if coveredA then A else B in
  let estimate :=
    getEstimatedPosition tk uncovered covered referenceFrame aberrationCorrection
      ephemerisTime lightTime w in
  targetPosition tk uncovered covered referenceFrame aberrationCorrection
    ephemerisTime lightTime w = estimate /\
  targetPosition tk covered uncovered referenceFrame aberrationCorrection
    ephemerisTime lightTime w = negated estimate /\
  targetPosition tk A B referenceFrame aberrationCorrection
    ephemerisTime lightTime w
  = negated (targetPosition tk B A referenceFrame aberrationCorrection
               ephemerisTime lightTime w).
Proof.
  intros HA HB Hxor Het Hset uncovered covered estimate.
  assert (Hpair : forall U C,
            hasSpkCoverage tk U ephemerisTime (manager w) = Returned false ->
            hasSpkCoverage tk C ephemerisTime (manager w) = Returned true ->
            let est := getEstimatedPosition tk U C referenceFrame
                         aberrationCorrection ephemerisTime lightTime w in
            targetPosition tk U C referenceFrame aberrationCorrection
              ephemerisTime lightTime w = est /\
            targetPosition tk C U referenceFrame aberrationCorrection
              ephemerisTime lightTime w = negated est /\
            est = negated (negated est)).
  { intros U C HU HC est.
    rewrite (targetPosition_dispatch U C _ _ _ _ w false true HU HC).
    rewrite (targetPosition_dispatch C U _ _ _ _ w true false HC HU).
    cbn [negb andb]. split; [done|].
    unfold bind, negated. subst est.
    destruct (getEstimatedPosition tk U C _ _ _ _ w) as [[r| |] w'] eqn:E;
      [|done..].
    apply estimate_is_double in E; [|done..].
    unfold ret. simpl. rewrite vscale_neg_one by done.
    rewrite vopp_involutive. by destruct r. }
  destruct coveredA, coveredB; try done.
  - (* A is covered: B is estimated relative to A *)
    destruct (Hpair B A HB HA) as (H1 & H2 & H3).
    split; [exact H1|]. split; [exact H2|]. by rewrite H1, H2.
  - (* B is covered: A is estimated relative to B *)
    destruct (Hpair A B HA HB) as (H1 & H2 & H3).
    split; [exact H1|]. split; [exact H2|]. by rewrite H1, H2.
Qed.

End Symmetry.

(** The demonstration toolkit and manager are well formed. *)
Lemma demo_toolkit_doubles : toolkit_doubles Demo.toolkit.
Proof.
  intros targ et ref abcorr obs p lt Het. simpl.
  destruct (String.eqb targ "PROBE"); [|discriminate].
  intros [= <- _]. by repeat split.
Qed.

Lemma demo_boundary_doubles (useExceptions : bool) :
  boundary_doubles (Demo.probe_manager useExceptions).
Proof.
  intros id s. simpl. intros [_ <-]%lookup_singleton_Some.
  by repeat constructor.
Qed.

(** An instance: the probe, not covered at 50, and the barycenter. *)
Lemma targetPosition_antisymmetric_witness :
  let position_of target observer :=
    targetPosition Demo.toolkit target observer "J2000"
      (AberrationCorrection.Build AberrationCorrection.None_
                                  AberrationCorrection.Reception)
      (of_Z 50) zero (Demo.probe_world true) in
  let estimate :=
    getEstimatedPosition Demo.toolkit "PROBE" "SSB" "J2000"
      (AberrationCorrection.Build AberrationCorrection.None_
                                  AberrationCorrection.Reception)
      (of_Z 50) zero (Demo.probe_world true) in
  position_of "PROBE" "SSB" = estimate /\
  position_of "SSB" "PROBE" = negated estimate /\
  position_of "PROBE" "SSB" = negated (position_of "SSB" "PROBE") /\
  (position_of "PROBE" "SSB").1 = Returned (dvec3_splat (of_Z 100), of_Z 100) /\
  (position_of "SSB" "PROBE").1 = Returned (dvec3_splat (of_Z (-100)), of_Z 100).
Proof.
  intros position_of estimate.
  destruct (targetPosition_antisymmetric Demo.toolkit demo_toolkit_doubles
              "PROBE" "SSB" "J2000"
              (AberrationCorrection.Build AberrationCorrection.None_
                                          AberrationCorrection.Reception)
              (of_Z 50) zero (Demo.probe_world true) false true)
    as (H1 & H2 & H3).
  - reflexivity.
  - reflexivity.
  - discriminate.
  - reflexivity.
  - apply demo_boundary_doubles.
  - split; [exact H1|]. split; [exact H2|]. split; [exact H3|].
    split; vm_compute; reflexivity.
Defined.


(** ** What the indexer records *)

Lemma check_failed_calm (msg : string) (w : World) :
  calm w -> check_failed msg w = (Returned tt, clear_failed w).
Proof.
  intros Hw. rewrite check_failed_run. destruct w as [m f calls sids cids].
  unfold calm, clear_failed in *. simpl in *.
  destruct f; [|done]. destruct Hw as [->|]; done.
Qed.

Lemma record_times_app (l1 l2 : intervals) (o : option DoubleSet.t) :
  record_times (l1 ++ l2) o = record_times l2 (record_times l1 o).
Proof. unfold record_times. by rewrite foldl_app. Qed.

Lemma windows_of_absent (cov : Z -> option intervals) (id : Z) (ids : list Z) :
  id ∉ ids -> windows_of cov id ids = [].
Proof.
  induction ids as [|obj rest IH]; [done|].
  intros [Hne Hrest]%not_elem_of_cons. simpl.
  destruct (Z.eqb_spec obj id) as [->|_]; [done|]. by apply IH.
Qed.

(** An id the cell holds once is asked for once. *)
Lemma windows_of_once (cov : Z -> option intervals) (id : Z) (ids : list Z) :
  NoDup ids -> id ∈ ids -> windows_of cov id ids = default [] (cov id).
Proof.
  induction ids as [|obj rest IH]; intros Hnd Hin.
  - by apply elem_of_nil in Hin.
  - apply NoDup_cons in Hnd as [Hobj Hnd]. simpl.
    destruct (Z.eqb_spec obj id) as [->|Hne].
    + by rewrite windows_of_absent, app_nil_r.
    + apply elem_of_cons in Hin as [->|Hin]; [done|]. by apply IH.
Qed.

Section Appends.

Variable tbl : SpiceManager -> gmap Z intervals.
Variable tms : SpiceManager -> gmap Z DoubleSet.t.
Variable ins : Z -> double -> double -> M unit.

Hypothesis ins_spec :
  forall obj b e w,
    exists w',
      ins obj b e w = (Returned tt, w') /\
      failed w' = failed w /\ same_registry w w' /\
      (spkIds w' = spkIds w /\ ckIds w' = ckIds w) /\
      forall id,
        default [] (tbl (manager w') !! id)
          = default [] (tbl (manager w) !! id)
              ++ (if obj =? id then [(b, e)] else []) /\
        tms (manager w') !! id
          = record_times (if obj =? id then [(b, e)] else [])
                         (tms (manager w) !! id).

Lemma fetch_intervals_appends (msg : string) (obj : Z) (cover : intervals) :
  forall w,
    calm w ->
    exists w',
      fetch_intervals msg (ins obj) cover w = (Returned tt, w') /\
      calm w' /\ same_registry w w' /\
      (spkIds w' = spkIds w /\ ckIds w' = ckIds w) /\
      forall id,
        default [] (tbl (manager w') !! id)
          = default [] (tbl (manager w) !! id)
              ++ (if obj =? id then cover else []) /\
        tms (manager w') !! id
          = record_times (if obj =? id then cover else [])
                         (tms (manager w) !! id).
Proof.
  induction cover as [|[b e] rest IH]; intros w Hw; simpl.
  - exists w. split; [done|]. split; [done|]. split; [apply same_registry_refl|].
    split; [done|].
    intros id. by destruct (obj =? id); rewrite app_nil_r.
  - unfold bind at 1. rewrite (check_failed_calm _ _ Hw).
    destruct (ins_spec obj b e (clear_failed w))
      as (w1 & E1 & Hf1 & Hs1 & [Hc1 Hc1'] & Ht1).
    unfold bind at 1. rewrite E1.
    destruct (IH w1) as (w2 & E2 & Hc2 & Hs2 & [Hd2 Hd2'] & Ht2); [by right|].
    exists w2. split; [exact E2|]. split; [exact Hc2|]. split; [|split].
    + eapply same_registry_trans; [|exact Hs2]. exact Hs1.
    + by rewrite Hd2, Hd2', Hc1, Hc1'.
    + intros id. destruct (Ht2 id) as [-> ->]. destruct (Ht1 id) as [-> ->].
      cbn [clear_failed manager].
      rewrite <- app_assoc. by destruct (obj =? id).
Qed.

Lemma scan_objects_appends (msg : string) (cov : Z -> option intervals)
    (ids : list Z) :
  forall w,
    calm w ->
    _useExceptions (manager w) = false \/ Forall (fun obj => is_Some (cov obj)) ids ->
    exists w',
      scan_objects msg cov ins ids w = (Returned tt, w') /\
      calm w' /\ same_registry w w' /\
      (spkIds w' = spkIds w /\ ckIds w' = ckIds w) /\
      forall id,
        default [] (tbl (manager w') !! id)
          = default [] (tbl (manager w) !! id) ++ windows_of cov id ids /\
        tms (manager w') !! id
          = record_times (windows_of cov id ids) (tms (manager w) !! id).
Proof.
  induction ids as [|obj rest IH]; intros w Hw Hok; simpl.
  - exists w. split; [done|]. split; [done|]. split; [apply same_registry_refl|].
    split; [done|]. intros id. by rewrite app_nil_r.
  - assert (Hcall : exists w0,
              call (cov obj) [] w = (Returned (default [] (cov obj)), w0) /\
              calm w0 /\ manager w0 = manager w /\ poolCalls w0 = poolCalls w /\
              spkIds w0 = spkIds w /\ ckIds w0 = ckIds w).
    { destruct (cov obj) as [cover|] eqn:E; simpl.
      - by exists w.
      - eexists. split; [reflexivity|]. split; [|done].
        left. simpl. destruct Hok as [Hok|Hok]; [done|].
        apply Forall_cons in Hok as [[? Hok] _]. congruence. }
    destruct Hcall as (w0 & E0 & Hc0 & Hm0 & Hp0 & Hi0 & Hi0').
    unfold bind at 1. rewrite E0.
    unfold bind at 1. rewrite (check_failed_calm _ _ Hc0).
    destruct (fetch_intervals_appends msg obj (default [] (cov obj))
                (clear_failed w0)) as (w1 & E1 & Hc1 & Hs1 & [Hd1 Hd1'] & Ht1);
      [by right|].
    unfold bind at 1. rewrite E1.
    assert (Hs01 : same_registry w w1).
    { destruct Hs1 as (A1 & A2 & A3 & A4).
      cbn [clear_failed manager poolCalls] in *.
      rewrite Hm0 in *. by repeat split; [| | |rewrite A4]. }
    destruct (IH w1) as (w2 & E2 & Hc2 & Hs2 & [Hd2 Hd2'] & Ht2); [done| |].
    { destruct Hok as [Hok|Hok]; [left|right].
      - destruct Hs01 as (_ & _ & -> & _). exact Hok.
      - by apply Forall_cons in Hok as [_ Hok]. }
    exists w2. split; [exact E2|]. split; [exact Hc2|]. split; [|split].
    + eapply same_registry_trans; [exact Hs01 | exact Hs2].
    + rewrite Hd2, Hd2', Hd1, Hd1'. by cbn [clear_failed spkIds ckIds].
    + intros id. destruct (Ht2 id) as [-> ->]. destruct (Ht1 id) as [-> ->].
      cbn [clear_failed manager]. rewrite Hm0.
      by rewrite <- app_assoc, record_times_app.
Qed.

(** The shape shared by [findSpkCoverage] and [findCkCoverage]: the ids
    visited are those the cell holds once the toolkit has written to it. *)
Lemma find_coverage_appends (msg1 msg2 : string) (on_cell : M (list Z))
    (cov : Z -> option intervals) (w w0 : World) (ids : list Z) :
  on_cell w = (Returned ids, w0) ->
  calm w0 -> manager w0 = manager w -> poolCalls w0 = poolCalls w ->
  _useExceptions (manager w) = false \/
    Forall (fun obj => is_Some (cov obj)) ids ->
  exists w',
    (let* ids := on_cell in
     check_failed msg1 ;;; scan_objects msg2 cov ins ids) w = (Returned tt, w') /\
    same_registry w w' /\
    (spkIds w' = spkIds w0 /\ ckIds w' = ckIds w0) /\
    forall id,
      default [] (tbl (manager w') !! id)
        = default [] (tbl (manager w) !! id) ++ windows_of cov id ids /\
      tms (manager w') !! id
        = record_times (windows_of cov id ids) (tms (manager w) !! id).
Proof.
  intros E0 Hc0 Hm0 Hp0 Hok.
  unfold bind at 1. rewrite E0.
  unfold bind at 1. rewrite (check_failed_calm _ _ Hc0).
  destruct (scan_objects_appends msg2 cov ids (clear_failed w0))
    as (w2 & E2 & Hc2 & Hs2 & Hd2 & Ht2); [by right| |].
  { cbn [clear_failed manager]. rewrite Hm0. tauto. }
  exists w2. split; [exact E2|]. split; [|split; [exact Hd2|]].
  - destruct Hs2 as (A1 & A2 & A3 & A4). cbn [clear_failed manager poolCalls] in *.
    rewrite Hm0 in *. by repeat split; [| | |rewrite A4].
  - intros id. destruct (Ht2 id) as [-> ->]. cbn [clear_failed manager].
    by rewrite Hm0.
Qed.

End Appends.

Lemma insert_spk_appends (obj : Z) (b e : double) (w : World) :
  exists w',
    insert_spk obj b e w = (Returned tt, w') /\
    failed w' = failed w /\ same_registry w w' /\
    (spkIds w' = spkIds w /\ ckIds w' = ckIds w) /\
    forall id,
      default [] (_spkIntervals (manager w') !! id)
        = default [] (_spkIntervals (manager w) !! id)
            ++ (if obj =? id then [(b, e)] else []) /\
      _spkCoverageTimes (manager w') !! id
        = record_times (if obj =? id then [(b, e)] else [])
                       (_spkCoverageTimes (manager w) !! id).
Proof.
  exists (insert_spk obj b e w).2.
  split; [reflexivity|]. split; [done|]. split; [by repeat split|].
  split; [done|].
  intros id. simpl. rewrite !lookup_insert.
  destruct (Z.eqb_spec obj id) as [->|Hne].
  - by rewrite !decide_True.
  - rewrite !decide_False by done. by rewrite app_nil_r.
Qed.

Lemma insert_ck_appends (frame : Z) (b e : double) (w : World) :
  exists w',
    insert_ck frame b e w = (Returned tt, w') /\
    failed w' = failed w /\ same_registry w w' /\
    (spkIds w' = spkIds w /\ ckIds w' = ckIds w) /\
    forall id,
      default [] (_ckIntervals (manager w') !! id)
        = default [] (_ckIntervals (manager w) !! id)
            ++ (if frame =? id then [(b, e)] else []) /\
      _ckCoverageTimes (manager w') !! id
        = record_times (if frame =? id then [(b, e)] else [])
                       (_ckCoverageTimes (manager w) !! id).
Proof.
  exists (insert_ck frame b e w).2.
  split; [reflexivity|]. split; [done|]. split; [by repeat split|].
  split; [done|].
  intros id. simpl. rewrite !lookup_insert.
  destruct (Z.eqb_spec frame id) as [->|Hne].
  - by rewrite !decide_True.
  - rewrite !decide_False by done. by rewrite app_nil_r.
Qed.

(** C6.  For an id other than 0, a time is covered exactly when it lies
    strictly inside one of the intervals recorded for the id, whether or
    not they overlap; the id 0 is always covered.  With the single
    interval [100, 200] every time strictly between the bounds is covered
    and 50 and 250 are not.  And indexing a file that declares [100, 200]
    for an id new to the tables records exactly that interval and its two
    bounds for the id: this whatever other ids the id cell of the indexer
    holds once [spkobj_c] has written to it, those of earlier files
    included, as long as the cell holds each id once and, with exception
    handling on, the toolkit reads a window for each of them. *)
Theorem hasSpkCoverage_iff_inside tk (m : SpiceManager) (target : string)
    (X : Z) :
  naifId tk target m = Returned X ->
  (X = 0 -> forall et, hasSpkCoverage tk target et m = Returned true) /\
  (X <> 0 ->
     (forall et, exists covered,
        hasSpkCoverage tk target et m = Returned covered /\
        (covered = true <->
         exists i, i ∈ default [] (_spkIntervals m !! X) /\
                   (i.1 <? et)%D = true /\ (et <? i.2)%D = true)) /\
     (_spkIntervals m !! X = Some [(of_Z 100, of_Z 200)] ->
        (forall et, (of_Z 100 <? et)%D = true -> (et <? of_Z 200)%D = true ->
                    hasSpkCoverage tk target et m = Returned true) /\
        hasSpkCoverage tk target (of_Z 50) m = Returned false /\
        hasSpkCoverage tk target (of_Z 250) m = Returned false) /\
     (forall path w ids,
        manager w = m -> failed w = false ->
        _spkIntervals m !! X = None ->
        _spkCoverageTimes m !! X = None ->
        spkobj_c tk path (spkIds w) = Some ids ->
        X ∈ ids -> NoDup ids ->
        _useExceptions m = false \/
          Forall (fun obj => is_Some (spkcov_c tk path obj)) ids ->
        spkcov_c tk path X = Some [(of_Z 100, of_Z 200)] ->
        exists w',
          findSpkCoverage tk path w = (Returned tt, w') /\
          _spkIntervals (manager w') !! X = Some [(of_Z 100, of_Z 200)] /\
          _spkCoverageTimes (manager w') !! X = Some [of_Z 100; of_Z 200])).
Proof.
  intros Hid. split.
  - intros -> et. unfold hasSpkCoverage. by rewrite Hid.
  - intros Hnz. split; [|split].
    + intros et. rewrite (hasSpkCoverage_body tk m target X et Hid Hnz).
      eexists; split; [reflexivity|].
      rewrite inside_some_interval_true.
      split; intros (i & Hi & H1 & H2); exists i; repeat split; try done.
      * by rewrite <- gtb_ltb.
      * by rewrite gtb_ltb.
    + intros Hivs. repeat split.
      * intros et H1 H2.
        rewrite (hasSpkCoverage_body tk m target X et Hid Hnz), Hivs.
        cbn [default from_option id inside_some_interval fst snd].
        by rewrite H1, gtb_ltb, H2.
      * by rewrite (hasSpkCoverage_body tk m target X _ Hid Hnz), Hivs.
      * by rewrite (hasSpkCoverage_body tk m target X _ Hid Hnz), Hivs.
    + intros path w ids Hm Hf Hnone Hnone' Hobj Hin Hnd Hok Hcov. subst m.
      destruct (find_coverage_appends _spkIntervals _spkCoverageTimes
                  insert_spk insert_spk_appends
                  "Error finding Spk ID for coverage" "Error finding Spk coverage"
                  (spkobj_on_cell tk path) (spkcov_c tk path) w
                  (spkobj_on_cell tk path w).2 ids)
        as (w' & Hrun & _ & _ & Htbl).
      * unfold spkobj_on_cell. by rewrite Hobj.
      * right. unfold spkobj_on_cell. by rewrite Hobj.
      * unfold spkobj_on_cell. by rewrite Hobj.
      * unfold spkobj_on_cell. by rewrite Hobj.
      * exact Hok.
      * exists w'. split; [exact Hrun|].
        destruct (Htbl X) as [Hivs Htms].
        rewrite (windows_of_once _ _ _ Hnd Hin), Hcov in Hivs, Htms.
        rewrite Hnone in Hivs. rewrite Hnone' in Htms. split; [|exact Htms].
        destruct (_spkIntervals (manager w') !! X) as [l|];
          cbn [default from_option id app] in Hivs; [by rewrite Hivs | done].
Qed.

(** An instance: the probe, covered on (100, 200), at 150, 50 and 250; and
    the probe's file indexed after the relay's, whose id the cell still
    holds. *)
Lemma hasSpkCoverage_iff_inside_witness :
  (hasSpkCoverage Demo.toolkit "PROBE" (of_Z 150) (Demo.probe_manager true)
     = Returned true /\
   hasSpkCoverage Demo.toolkit "PROBE" (of_Z 50) (Demo.probe_manager true)
     = Returned false /\
   hasSpkCoverage Demo.toolkit "PROBE" (of_Z 250) (Demo.probe_manager true)
     = Returned false) /\
  let w := (findSpkCoverage Scenario.two_files "relay.bsp" (Demo.world0 true)).2 in
  spkIds w = [-77] /\
  spkobj_c Scenario.two_files "probe.bsp" (spkIds w) = Some [-98; -77] /\
  exists w',
    findSpkCoverage Scenario.two_files "probe.bsp" w = (Returned tt, w') /\
    _spkIntervals (manager w') !! (-98) = Some [(of_Z 100, of_Z 200)] /\
    _spkCoverageTimes (manager w') !! (-98) = Some [of_Z 100; of_Z 200].
Proof.
  split.
  - destruct (hasSpkCoverage_iff_inside Demo.toolkit (Demo.probe_manager true)
                "PROBE" (-98)) as [_ H]; [reflexivity|].
    destruct H as (_ & H & _); [discriminate|].
    destruct H as (H150 & H50 & H250); [reflexivity|].
    split; [apply H150; reflexivity | split; assumption].
  - intros w. split; [reflexivity|]. split; [reflexivity|].
    destruct (hasSpkCoverage_iff_inside Scenario.two_files (manager w)
                "PROBE" (-98)) as [_ H]; [reflexivity|].
    destruct H as (_ & _ & H); [discriminate|].
    apply (H "probe.bsp" w [-98; -77]); try reflexivity.
    + rewrite elem_of_cons. by left.
    + apply NoDup_cons. split; [|apply NoDup_singleton].
      rewrite list_elem_of_singleton. discriminate.
    + right. repeat constructor; by eexists.
Defined.

(** * Further properties *)

(** Arithmetic on a world the demonstration toolkit computes. *)
Ltac by_running := by vm_compute.

(** ** The registry, record by record *)

Lemma find_if_lookup_Some {A} (pred : A -> bool) (l : list A) (a : A) :
  l !! find_if pred l = Some a -> pred a = true.
Proof.
  induction l as [|b l IH]; simpl; [done|].
  destruct (pred b) eqn:E; simpl; [by intros [= <-] | exact IH].
Qed.

Lemma find_if_lookup_None_inv {A} (pred : A -> bool) (l : list A) :
  l !! find_if pred l = None -> Forall (fun a => pred a = false) l.
Proof.
  induction l as [|b l IH]; simpl; [constructor|].
  destruct (pred b) eqn:E; simpl; [done|]. intros H. constructor; auto.
Qed.

(** The first match is the only one when the key is held once. *)
Lemma find_if_unique {A} (pred : A -> bool) (l : list A) (i : nat) (a : A) :
  l !! i = Some a -> pred a = true ->
  (forall j b, l !! j = Some b -> pred b = true -> j = i) ->
  find_if pred l = i.
Proof.
  revert i. induction l as [|b l IH]; intros i Hi Ha Huniq; [done|]. simpl.
  destruct (pred b) eqn:E.
  - by apply (Huniq 0%nat b).
  - destruct i as [|i]; simpl in Hi; [congruence|]. f_equal.
    apply IH; [done..|]. intros j c Hj Hc.
    specialize (Huniq (S j) c Hj Hc). congruence.
Qed.

Lemma map_alter_same {A B} (g : A -> B) (f : A -> A) (i : nat) (l : list A) :
  (forall x, g (f x) = g x) -> map g (alter f i l) = map g l.
Proof.
  intros Hf. revert i. induction l as [|a l IH]; intros [|i]; simpl; [done..| |].
  - by rewrite Hf.
  - f_equal. apply IH.
Qed.

Lemma NoDup_map_delete {A B} (g : A -> B) (i : nat) (l : list A) :
  NoDup (map g l) -> NoDup (map g (delete i l)).
Proof.
  intros H. eapply sublist_NoDup; [exact H|].
  change (g <$> delete i l `sublist_of` g <$> l).
  apply fmap_sublist, sublist_delete.
Qed.

Lemma release_run (it : nat) (info : KernelInformation.t) (path : string)
    (w : World) :
  release it info path w =
    if KernelInformation.refCount info =? 1
    then (Returned tt,
          {| manager := set_loadedKernels (delete it (_loadedKernels (manager w)))
                          (manager w);
             failed := failed w; poolCalls := poolCalls w ++ [Unload path];
             spkIds := spkIds w; ckIds := ckIds w |})
    else if KernelInformation.refCount info =? INT_MIN then (Undefined, w)
    else (Returned tt,
          with_registry (alter decr_refCount it (_loadedKernels (manager w))) w).
Proof.
  unfold release, bind, get_manager, put_manager, record_call, with_registry.
  destruct (_ =? 1); [done|]. by destruct (_ =? INT_MIN).
Qed.

(** [loadKernel] after the call of [furnsh_c]. *)
Lemma load_after_furnsh tk (path : string) (w : World) :
  match (check_failed "Kernel loading" ;;; load_tail tk path) w with
  | (Returned h, w1) => registered path w w1 h /\ poolCalls w1 = poolCalls w
  | (_, w1) => same_registry w w1 /\ _useExceptions (manager w) = true
  end.
Proof.
  unfold bind at 1. rewrite check_failed_run.
  destruct (failed w) eqn:Hf; [destruct (_useExceptions (manager w)) eqn:Hx|].
  - split; [by repeat split | done].
  - pose proof (load_tail_spec tk path (clear_failed w)) as H.
    destruct (load_tail tk path (clear_failed w)) as [[h| |] w1];
      cbn [clear_failed manager poolCalls spkIds ckIds] in H; rewrite ?Hx in H; exact H.
  - apply (load_tail_spec tk path w).
Qed.

(** The two branches of [loadKernel]. *)
Lemma loadKernel_cases tk (filePath : string) (w : World) :
  let path := absPath tk filePath in
  let ks := _loadedKernels (manager w) in
  let it := find_if (has_path path) ks in
  match ks !! it with
  | Some info =>
      loadKernel tk filePath w
        = if KernelInformation.refCount info =? INT_MAX then (Undefined, w)
          else (Returned (KernelInformation.id info),
                with_registry (alter incr_refCount it ks) w)
  | None =>
      match loadKernel tk filePath w with
      | (Returned h, w1) => registered path w w1 h
      | (_, w1) =>
          _loadedKernels (manager w1) = ks /\
          _lastAssignedKernel (manager w1) = _lastAssignedKernel (manager w) /\
          _useExceptions (manager w1) = _useExceptions (manager w) /\
          _useExceptions (manager w) = true
      end /\
      poolCalls (loadKernel tk filePath w).2 = poolCalls w ++ [Furnsh path]
  end.
Proof.
  intros path ks it.
  destruct (ks !! it) as [info|] eqn:E.
  - unfold loadKernel, bind at 1, get_manager at 1. fold path ks it. rewrite E.
    by destruct (_ =? INT_MAX).
  - rewrite (loadKernel_new tk _ _ E). fold path.
    unfold bind at 1, record_call at 1. unfold bind at 1.
    set (w' := fun f => {| manager := manager w; failed := f;
                           poolCalls := poolCalls w ++ [Furnsh path];
                           spkIds := spkIds w; ckIds := ckIds w |}).
    assert (H : forall f,
      match (check_failed "Kernel loading" ;;; load_tail tk path) (w' f) with
      | (Returned h, w1) => registered path w w1 h
      | (_, w1) =>
          _loadedKernels (manager w1) = ks /\
          _lastAssignedKernel (manager w1) = _lastAssignedKernel (manager w) /\
          _useExceptions (manager w1) = _useExceptions (manager w) /\
          _useExceptions (manager w) = true
      end /\
      poolCalls ((check_failed "Kernel loading" ;;; load_tail tk path) (w' f)).2
        = poolCalls w ++ [Furnsh path]).
    { intros f. pose proof (load_after_furnsh tk path (w' f)) as H.
      destruct ((check_failed "Kernel loading" ;;; load_tail tk path) (w' f))
        as [[h| |] w1]; simpl in *.
      - by destruct H as [H ->].
      - destruct H as [(H1 & H2 & H3 & H4) H5]. by rewrite H4.
      - destruct H as [(H1 & H2 & H3 & H4) H5]. by rewrite H4. }
    destruct (furnsh_c tk path); [apply (H (failed w)) | apply (H true)].
Qed.

Lemma release_distinct (it : nat) (info : KernelInformation.t) (path : string)
    (w : World) :
  _loadedKernels (manager w) !! it = Some info ->
  registry_distinct (manager w) ->
  registry_distinct (manager (release it info path w).2).
Proof.
  intros Hit (Hp & Hi & Hr). rewrite release_run.
  destruct (KernelInformation.refCount info =? 1) eqn:E;
    [|destruct (KernelInformation.refCount info =? INT_MIN); [done|]];
    unfold registry_distinct;
    cbn [snd manager with_registry set_loadedKernels _loadedKernels].
  - repeat split; [by apply NoDup_map_delete.. | by apply Forall_delete].
  - repeat split; [by rewrite map_alter_same.. |].
    apply Forall_alter; [exact Hr|]. intros k Hk Hk1. simpl.
    assert (k = info) as -> by congruence.
    apply Z.eqb_neq in E. lia.
Qed.

(** The registry stays one of distinct paths and handles. *)
Lemma registry_distinct_kept tk (filePath : string)
    (kernelId : KernelHandle) (w : World) :
  registry_ok (manager w) ->
  registry_distinct (manager w) ->
  (room_to_load (manager w) ->
   registry_distinct (manager (loadKernel tk filePath w).2)) /\
  registry_distinct (manager (unloadKernel kernelId w).2) /\
  registry_distinct (manager (unloadKernel_path tk filePath w).2).
Proof.
  intros [Hlast Hids] Hd. split; [|split].
  - intros [Hroom Hcounts]. destruct Hd as (Hp & Hi & Hr).
    pose proof (loadKernel_cases tk filePath w) as H. cbv zeta in H.
    destruct (_loadedKernels (manager w) !! _) as [info|] eqn:E.
    + rewrite H. destruct (_ =? INT_MAX); [done|]. unfold registry_distinct.
      cbn [snd manager with_registry set_loadedKernels _loadedKernels].
      repeat split; [by rewrite map_alter_same.. |].
      apply Forall_alter; [exact Hr|]. intros k Hk Hk1. simpl.
      pose proof (proj1 (Forall_forall _ _) Hcounts k
                    (list_elem_of_lookup_2 _ _ _ Hk)) as Hk2. simpl in Hk2.
      lia.
    + apply find_if_lookup_None_inv in E.
      destruct H as [H _].
      destruct (loadKernel tk filePath w) as [[h| |] w1]; cbn [snd].
      * destruct H as (-> & Hks & _ & _). unfold registry_distinct.
        rewrite Hks, !map_app. simpl. repeat split.
        -- apply NoDup_app. split; [done|]. split; [|apply NoDup_singleton].
           intros p Hp1 ->%list_elem_of_singleton.
           apply list_elem_of_fmap in Hp1 as (k & Hk1 & Hk2).
           pose proof (proj1 (Forall_forall _ _) E k Hk2) as Hk3. simpl in Hk3.
           unfold has_path in Hk3. apply String.eqb_neq in Hk3. congruence.
        -- apply NoDup_app. split; [done|]. split; [|apply NoDup_singleton].
           intros i Hi1 ->%list_elem_of_singleton.
           apply list_elem_of_fmap in Hi1 as (k & Hk1 & Hk2).
           pose proof (proj1 (Forall_forall _ _) Hids k Hk2) as Hk3. simpl in Hk3.
           unfold uint_wrap in Hk1. rewrite Z.mod_small in Hk1 by lia. lia.
        -- apply Forall_app. split; [done|]. repeat constructor; simpl; lia.
      * destruct H as (Hks & _). unfold registry_distinct. by rewrite Hks.
      * destruct H as (Hks & _). unfold registry_distinct. by rewrite Hks.
  - unfold unloadKernel, bind at 1, get_manager at 1.
    destruct (_loadedKernels (manager w) !! _) eqn:E; [by apply release_distinct | done].
  - unfold unloadKernel_path, bind at 1, get_manager at 1.
    destruct (_loadedKernels (manager w) !! _) eqn:E; [by apply release_distinct|].
    by destruct (_useExceptions (manager w)).
Qed.

(** X1.  The registry stays well formed: the handles are those the counter
    assigned, between 1 and its value, there is one record per path and per
    handle, and every reference count is at least 1.  Both overloads of
    [unloadKernel] keep it so, and so does [loadKernel] while neither the
    counter nor a reference count is at its greatest value. *)
Theorem registry_wf_invariant tk (filePath : string) (kernelId : KernelHandle)
    (w : World) :
  registry_wf (manager w) ->
  (room_to_load (manager w) ->
   registry_wf (manager (loadKernel tk filePath w).2)) /\
  registry_wf (manager (unloadKernel kernelId w).2) /\
  registry_wf (manager (unloadKernel_path tk filePath w).2).
Proof.
  intros [Hok Hd].
  destruct (registry_ok_invariant tk filePath kernelId w Hok) as (A1 & A2 & A3).
  destruct (registry_distinct_kept tk filePath kernelId w Hok Hd) as (B1 & B2 & B3).
  split; [|split; by split].
  intros Hroom. split; [apply A1, Hroom | by apply B1].
Qed.

(** X2.  Unloading an unknown kernel: by handle it does nothing; by path
    it throws with exception handling on and does nothing with it off.  In
    every case the manager and the toolkit are left as they were. *)
Theorem unloadKernel_unknown tk (kernelId : KernelHandle) (filePath : string)
    (w : World) :
  (Forall (fun k => has_id kernelId k = false) (_loadedKernels (manager w)) ->
   unloadKernel kernelId w = (Returned tt, w)) /\
  (Forall (fun k => has_path (absPath tk filePath) k = false)
          (_loadedKernels (manager w)) ->
   unloadKernel_path tk filePath w =
     (if _useExceptions (manager w)
      then Thrown (NotLoaded (absPath tk filePath)) else Returned tt, w)).
Proof.
  split; intros H%find_if_lookup_None.
  - unfold unloadKernel, bind at 1, get_manager at 1. by rewrite H.
  - unfold unloadKernel_path, bind at 1, get_manager at 1. rewrite H.
    by destruct (_useExceptions (manager w)).
Qed.

Lemma uint_wrap_small (n : Z) : 0 <= n < 2 ^ 32 -> uint_wrap n = n.
Proof. intros H. unfold uint_wrap. by rewrite Z.mod_small. Qed.

(** X3.  A handle is not used again: a path loaded for the first time gets
    the counter's next value; once unloaded, the registry lists what it
    listed before, and loading the same path again returns the value after
    that one. *)
Theorem handle_not_reused tk (filePath : string) (w w1 w3 : World)
    (h1 h2 : KernelHandle) :
  registry_ok (manager w) ->
  _lastAssignedKernel (manager w) + 2 < 2 ^ 32 ->
  Forall (fun k => has_path (absPath tk filePath) k = false)
         (_loadedKernels (manager w)) ->
  loadKernel tk filePath w = (Returned h1, w1) ->
  loadKernel tk filePath (unloadKernel h1 w1).2 = (Returned h2, w3) ->
  h1 = _lastAssignedKernel (manager w) + 1 /\
  _loadedKernels (manager (unloadKernel h1 w1).2) = _loadedKernels (manager w) /\
  h2 = h1 + 1.
Proof.
  intros [Hlast Hids] Hroom Hfresh Hload1 Hload2.
  pose proof (loadKernel_cases tk filePath w) as H. cbv zeta in H.
  rewrite (find_if_lookup_None _ _ Hfresh), Hload1 in H.
  destruct H as [(Hh1 & Hks & Hl1 & _) _].
  rewrite uint_wrap_small in Hh1 by lia.
  assert (Hun : unloadKernel h1 w1 =
            (Returned tt,
             {| manager := set_loadedKernels (_loadedKernels (manager w)) (manager w1);
                failed := failed w1;
                poolCalls := poolCalls w1 ++ [Unload (absPath tk filePath)];
                spkIds := spkIds w1; ckIds := ckIds w1 |})).
  { unfold unloadKernel, bind at 1, get_manager at 1. rewrite Hks.
    rewrite find_if_app_last; cycle 1.
    - eapply Forall_impl; [exact Hids|]. intros k Hk. simpl in Hk.
      unfold has_id. apply Z.eqb_neq. lia.
    - unfold has_id. simpl. apply Z.eqb_refl.
    - rewrite list_lookup_middle by done. rewrite release_run. simpl.
      by rewrite Hks, delete_app_last. }
  rewrite Hun in Hload2 |- *. cbn [snd manager set_loadedKernels _loadedKernels] in *.
  split; [exact Hh1|]. split; [done|].
  match type of Hload2 with loadKernel _ _ ?w2 = _ =>
    pose proof (loadKernel_cases tk filePath w2) as H end.
  cbv zeta in H. cbn [manager set_loadedKernels _loadedKernels] in H.
  rewrite (find_if_lookup_None _ _ Hfresh), Hload2 in H.
  destruct H as [(Hh2 & _) _]. cbn in Hh2. rewrite Hl1 in Hh2.
  rewrite uint_wrap_small in Hh2 by lia. exact Hh2.
Qed.

Lemma with_registry_twice (ks ks' : list KernelInformation.t) (w : World) :
  with_registry ks (with_registry ks' w) = with_registry ks w.
Proof. done. Qed.

(** X4.  Loading a path that is already registered returns the handle of
    its record without calling the toolkit or indexing again; unloading it
    after that, by the handle returned or by the path, leaves the manager
    and the toolkit exactly as they were, wherever the record stands in the
    registry and whatever its reference count below [INT_MAX]. *)
Theorem load_unload_restores tk (filePath : string) (w : World)
    (info : KernelInformation.t) :
  registry_distinct (manager w) ->
  info ∈ _loadedKernels (manager w) ->
  KernelInformation.path info = absPath tk filePath ->
  KernelInformation.refCount info < 2 ^ 31 - 1 ->
  let w1 := (loadKernel tk filePath w).2 in
  loadKernel tk filePath w = (Returned (KernelInformation.id info), w1) /\
  poolCalls w1 = poolCalls w /\
  coverage_tables (manager w1) = coverage_tables (manager w) /\
  unloadKernel (KernelInformation.id info) w1 = (Returned tt, w) /\
  unloadKernel_path tk filePath w1 = (Returned tt, w).
Proof.
  intros (Hp & Hi & Hr) Hin Hpath Hcount.
  apply list_elem_of_lookup_1 in Hin as [i Hi1].
  set (ks := _loadedKernels (manager w)) in *.
  pose proof (proj1 (Forall_forall _ _) Hr info
                (list_elem_of_lookup_2 _ _ _ Hi1)) as Hr1. simpl in Hr1.
  assert (Hkey : forall {B} (g : KernelInformation.t -> B) l j b a,
            NoDup (map g l) -> l !! i = Some a -> l !! j = Some b ->
            g b = g a -> j = i).
  { intros B g l j b a Hnd Hli Hlj Hg.
    change (map g l) with (g <$> l) in Hnd.
    apply (NoDup_lookup (g <$> l) j i (g a)); [done| |];
      rewrite list_lookup_fmap; [rewrite Hlj | rewrite Hli]; simpl; congruence. }
  assert (Hfind : find_if (has_path (absPath tk filePath)) ks = i).
  { apply (find_if_unique _ _ _ info Hi1).
    - unfold has_path. by apply String.eqb_eq.
    - intros j b Hj Hb. apply (Hkey _ KernelInformation.path ks j b info Hp Hi1 Hj).
      unfold has_path in Hb. apply String.eqb_eq in Hb. congruence. }
  pose proof (loadKernel_cases tk filePath w) as H. cbv zeta in H.
  fold ks in H. rewrite Hfind, Hi1 in H.
  assert (Hmax : (KernelInformation.refCount info =? INT_MAX) = false)
    by (apply Z.eqb_neq; unfold INT_MAX; lia).
  rewrite Hmax in H.
  intros w1. subst w1. rewrite H. cbn [snd]. split; [done|].
  split; [done|]. split; [done|].
  set (ks1 := alter incr_refCount i ks).
  assert (Hi2 : ks1 !! i = Some (incr_refCount info)).
  { subst ks1. by rewrite list_lookup_alter_eq, Hi1. }
  assert (Hrel : release i (incr_refCount info) (KernelInformation.path info)
                   (with_registry ks1 w) = (Returned tt, w)).
  { rewrite release_run. cbn [incr_refCount KernelInformation.refCount].
    destruct (KernelInformation.refCount info + 1 =? 1) eqn:E;
      [apply Z.eqb_eq in E; lia|].
    destruct (KernelInformation.refCount info + 1 =? INT_MIN) eqn:E2;
      [apply Z.eqb_eq in E2; unfold INT_MIN in E2; lia|].
    f_equal. cbn [manager with_registry set_loadedKernels _loadedKernels].
    subst ks1. rewrite list_alter_alter_eq.
    rewrite (list_alter_ext _ (fun x => x) ks ks i); [| |done].
    - rewrite list_alter_id by done. rewrite with_registry_twice.
      apply with_registry_same.
    - intros k Hk. assert (k = info) as -> by congruence.
      unfold compose, decr_refCount, incr_refCount. simpl.
      replace (KernelInformation.refCount info + 1 - 1)
        with (KernelInformation.refCount info) by lia.
      by destruct info. }
  split.
  - unfold unloadKernel, bind at 1, get_manager at 1.
    cbn [manager with_registry set_loadedKernels _loadedKernels]. fold ks1.
    assert (Hfind2 : find_if (has_id (KernelInformation.id info)) ks1 = i).
    { apply (find_if_unique _ _ _ _ Hi2).
      - unfold has_id. simpl. apply Z.eqb_refl.
      - intros j b Hj Hb.
        apply (Hkey _ KernelInformation.id ks1 j b (incr_refCount info)).
        + subst ks1. by rewrite map_alter_same.
        + exact Hi2.
        + done.
        + unfold has_id in Hb. apply Z.eqb_eq in Hb. done. }
    rewrite Hfind2, Hi2. exact Hrel.
  - unfold unloadKernel_path, bind at 1, get_manager at 1.
    cbn [manager with_registry set_loadedKernels _loadedKernels]. fold ks1.
    assert (Hfind2 : find_if (has_path (absPath tk filePath)) ks1 = i).
    { apply (find_if_unique _ _ _ _ Hi2).
      - unfold has_path. simpl. by apply String.eqb_eq.
      - intros j b Hj Hb.
        apply (Hkey _ KernelInformation.path ks1 j b (incr_refCount info)).
        + subst ks1. by rewrite map_alter_same.
        + exact Hi2.
        + done.
        + unfold has_path in Hb. apply String.eqb_eq in Hb. simpl. congruence. }
    rewrite Hfind2, Hi2. rewrite <- Hpath. exact Hrel.
Qed.

(** An instance of X1: the registry once the probe's kernel is loaded. *)
Lemma registry_wf_invariant_witness :
  let w1 := (loadKernel Demo.toolkit "probe.bsp" (Demo.world0 true)).2 in
  registry_wf (manager (loadKernel Demo.toolkit "probe.bsp" w1).2) /\
  registry_wf (manager (unloadKernel 1 w1).2) /\
  registry_wf (manager (unloadKernel_path Demo.toolkit "probe.bsp" w1).2).
Proof.
  intros w1.
  destruct (registry_wf_invariant Demo.toolkit "probe.bsp" 1 w1)
    as (Hload & Hunload & Hpath).
  - subst w1. split; [split; [by_running|]; repeat constructor; by_running|].
    repeat split; cbn; repeat constructor; try by_running; apply not_elem_of_nil.
  - split; [|split; [exact Hunload | exact Hpath]].
    apply Hload. subst w1. split; [by_running|]. repeat constructor; by_running.
Defined.

(** An instance of X2: nothing is loaded. *)
Lemma unloadKernel_unknown_witness :
  unloadKernel 7 (Demo.world0 true) = (Returned tt, Demo.world0 true) /\
  unloadKernel_path Demo.toolkit "probe.bsp" (Demo.world0 true)
    = (Thrown (NotLoaded "probe.bsp"), Demo.world0 true) /\
  unloadKernel_path Demo.toolkit "probe.bsp" (Demo.world0 false)
    = (Returned tt, Demo.world0 false).
Proof.
  split; [|split].
  - apply (unloadKernel_unknown Demo.toolkit 7 "probe.bsp" (Demo.world0 true)).
    apply Forall_nil_2.
  - apply (unloadKernel_unknown Demo.toolkit 7 "probe.bsp" (Demo.world0 true)).
    apply Forall_nil_2.
  - apply (unloadKernel_unknown Demo.toolkit 7 "probe.bsp" (Demo.world0 false)).
    apply Forall_nil_2.
Defined.

(** An instance of X3: the probe's kernel gets handle 1, then handle 2. *)
Lemma handle_not_reused_witness :
  let w1 := (loadKernel Demo.toolkit "probe.bsp" (Demo.world0 true)).2 in
  let w2 := (unloadKernel 1 w1).2 in
  (loadKernel Demo.toolkit "probe.bsp" (Demo.world0 true)).1 = Returned 1 /\
  _loadedKernels (manager w2) = [] /\
  (loadKernel Demo.toolkit "probe.bsp" w2).1 = Returned 2.
Proof.
  intros w1 w2.
  destruct (handle_not_reused Demo.toolkit "probe.bsp" (Demo.world0 true) w1
              (loadKernel Demo.toolkit "probe.bsp" w2).2 1 2)
    as (_ & Hks & _).
  - split; [cbn; lia | apply Forall_nil_2].
  - cbn. lia.
  - apply Forall_nil_2.
  - vm_compute. reflexivity.
  - vm_compute. reflexivity.
  - split; [vm_compute; reflexivity|]. split; [exact Hks|].
    vm_compute. reflexivity.
Defined.

(** An instance of X4: the probe's kernel, loaded once before. *)
Lemma load_unload_restores_witness :
  let w := (loadKernel Demo.toolkit "probe.bsp" (Demo.world0 true)).2 in
  let w1 := (loadKernel Demo.toolkit "probe.bsp" w).2 in
  loadKernel Demo.toolkit "probe.bsp" w = (Returned 1, w1) /\
  poolCalls w1 = poolCalls w /\
  coverage_tables (manager w1) = coverage_tables (manager w) /\
  unloadKernel 1 w1 = (Returned tt, w) /\
  unloadKernel_path Demo.toolkit "probe.bsp" w1 = (Returned tt, w).
Proof.
  intros w.
  apply (load_unload_restores Demo.toolkit "probe.bsp" w
           (KernelInformation.Build "probe.bsp" 1 1)).
  - subst w. repeat split; cbn; repeat constructor; try by_running;
      apply not_elem_of_nil.
  - apply list_elem_of_here.
  - reflexivity.
  - cbn. lia.
Defined.

(** ** The coverage tables only grow *)


Lemma insert_nonempty (v : double) (s : DoubleSet.t) : DoubleSet.insert v s <> [].
Proof.
  destruct s as [|e s]; simpl; [done|].
  destruct (v <? e)%D; [done|]. by destruct (e <? v)%D.
Qed.



Lemma boundaries_of_insert (ivs : gmap Z intervals) (times : gmap Z DoubleSet.t)
    (obj : Z) (b e : double) :
  boundaries_of ivs times ->
  boundaries_of
    (<[obj := default [] (ivs !! obj) ++ [(b, e)]]> ivs)
    (<[obj := DoubleSet.insert b (DoubleSet.insert e (default [] (times !! obj)))]>
       times).
Proof.
  intros H id s. rewrite !lookup_insert. case_decide as E.
  - subst id. intros [= <-]. split; [apply insert_nonempty|].
    intros x Hx. simpl.
    apply DoubleSetFacts.insert_elem in Hx as [->|Hx];
      [exists (b, e); rewrite elem_of_app, list_elem_of_singleton; tauto|].
    apply DoubleSetFacts.insert_elem in Hx as [->|Hx];
      [exists (b, e); rewrite elem_of_app, list_elem_of_singleton; tauto|].
    destruct (times !! obj) as [s0|] eqn:E0; simpl in Hx;
      [|by apply elem_of_nil in Hx].
    destruct (H obj s0 E0) as [_ H2]. destruct (H2 x Hx) as (i & Hi1 & Hi2).
    exists i. rewrite elem_of_app. tauto.
  - apply H.
Qed.



Lemma tables_consistent_tables (m m' : SpiceManager) :
  coverage_tables m' = coverage_tables m ->
  tables_consistent m -> tables_consistent m'.
Proof. unfold coverage_tables, tables_consistent. by intros [= -> -> -> ->]. Qed.

(** What every insertion keeps the indexer keeps. *)
Lemma keeps_find_coverage (P : SpiceManager -> Prop) tk (path : string) :
  ((forall obj b e, keeps P (insert_spk obj b e)) ->
   keeps P (findSpkCoverage tk path)) /\
  ((forall obj b e, keeps P (insert_ck obj b e)) ->
   keeps P (findCkCoverage tk path)).
Proof.
  split; intros Hins.
  - unfold findSpkCoverage.
    apply keeps_bind; [apply keeps_obj_on_cell|]. intros ids.
    apply keeps_bind; [apply keeps_check_failed|]. intros _.
    apply keeps_scan_objects. intros obj cover _.
    apply Forall_forall. intros i _. apply Hins.
  - unfold findCkCoverage.
    apply keeps_bind; [apply keeps_obj_on_cell|]. intros ids.
    apply keeps_bind; [apply keeps_check_failed|]. intros _.
    apply keeps_scan_objects. intros obj cover _.
    apply Forall_forall. intros i _. apply Hins.
Qed.

(** What every insertion keeps, the member functions that change the
    manager keep. *)
Lemma keeps_members (P : SpiceManager -> Prop) tk (filePath : string)
    (kernelId : KernelHandle) :
  (forall m m', coverage_tables m' = coverage_tables m -> P m -> P m') ->
  (forall obj b e, keeps P (insert_spk obj b e)) ->
  (forall obj b e, keeps P (insert_ck obj b e)) ->
  keeps P (loadKernel tk filePath) /\
  keeps P (unloadKernel kernelId) /\
  keeps P (unloadKernel_path tk filePath).
Proof.
  intros Htables Hspk Hck.
  split; [|by apply keeps_unloadKernel].
  apply keeps_loadKernel; [done| |]; intros path; by apply keeps_find_coverage.
Qed.




(** The boundary sets follow the intervals. *)
Lemma tables_consistent_kept tk (filePath : string)
    (kernelId : KernelHandle) (w : World) :
  tables_consistent (manager w) ->
  tables_consistent (manager (loadKernel tk filePath w).2) /\
  tables_consistent (manager (unloadKernel kernelId w).2) /\
  tables_consistent (manager (unloadKernel_path tk filePath w).2).
Proof.
  intros Hw.
  destruct (keeps_members tables_consistent tk filePath kernelId)
    as (H1 & H2 & H3).
  - apply tables_consistent_tables.
  - intros obj b e w0 [Hs Hc]. split; [|exact Hc]. by apply boundaries_of_insert.
  - intros obj b e w0 [Hs Hc]. split; [exact Hs|]. by apply boundaries_of_insert.
  - split; [by apply H1|]. split; [by apply H2 | by apply H3].
Qed.

(** X6.  The coverage tables stay well formed: loading and unloading
    kernels keep every boundary set ascending, inhabited, and made of ends
    of intervals recorded for the same id. *)
Theorem tables_wf_invariant tk (filePath : string) (kernelId : KernelHandle)
    (w : World) :
  tables_wf (manager w) ->
  tables_wf (manager (loadKernel tk filePath w).2) /\
  tables_wf (manager (unloadKernel kernelId w).2) /\
  tables_wf (manager (unloadKernel_path tk filePath w).2).
Proof.
  intros [Hc Hs].
  destruct (tables_consistent_kept tk filePath kernelId w Hc) as (A1 & A2 & A3).
  destruct (boundary_sorted_invariant tk filePath kernelId) as (B1 & B2 & B3).
  split; [|split]; (split; [done|]); [by apply B1 | by apply B2 | by apply B3].
Qed.


Lemma demo_tables_consistent (useExceptions : bool) :
  tables_consistent (Demo.probe_manager useExceptions).
Proof.
  split; intros id s; simpl; [|by rewrite lookup_empty].
  intros [<- <-]%lookup_singleton_Some. split; [done|].
  intros x Hx. rewrite lookup_singleton_eq. simpl.
  exists (of_Z 100, of_Z 200). split; [apply list_elem_of_here|].
  rewrite !elem_of_cons, elem_of_nil in Hx. simpl. tauto.
Qed.

(** An instance of X6: the probe's kernel loaded on top of its coverage. *)
Lemma tables_wf_invariant_witness :
  tables_wf
    (manager (loadKernel Demo.toolkit "probe.bsp" (Demo.probe_world true)).2).
Proof.
  apply (tables_wf_invariant Demo.toolkit "probe.bsp" 1 (Demo.probe_world true)).
  split; [apply demo_tables_consistent|].
  split; intros id s; simpl; [|by rewrite lookup_empty].
  intros [<- <-]%lookup_singleton_Some. repeat constructor.
Defined.

(** ** What the coverage indexer records *)

(** X7.  What the indexer records.  The ids [findSpkCoverage] visits are
    those its id cell holds once [spkobj_c] has written to it.  The cell is
    static: with the ids of the file it holds the ids that earlier files
    left in it, and when [spkobj_c] fails with exception handling off it
    holds those alone.  With exception handling off, or when no error is
    pending and the toolkit writes the ids and reads a window for every id
    of the cell, [findSpkCoverage] returns, leaves the registry alone,
    leaves the cell as [spkobj_c] wrote it, and the intervals of every id
    are those recorded before followed by the windows the file gives for
    that id, the ids of the cell taken in order: nothing is merged, nothing
    dropped, and a window indexed a second time is recorded a second time.
    A window that cannot be read counts as empty.  [findCkCoverage] does
    the same with its own cell and the CK tables. *)
Theorem find_coverage_appends_windows tk (path : string) (w : World) :
  let spkCell := default (spkIds w) (spkobj_c tk path (spkIds w)) in
  let ckCell := default (ckIds w) (ckobj_c tk path (ckIds w)) in
  (_useExceptions (manager w) = false \/
     (failed w = false /\ is_Some (spkobj_c tk path (spkIds w)) /\
      Forall (fun obj => is_Some (spkcov_c tk path obj)) spkCell) ->
   exists w',
     findSpkCoverage tk path w = (Returned tt, w') /\
     same_registry w w' /\
     spkIds w' = spkCell /\ ckIds w' = ckIds w /\
     forall id,
       default [] (_spkIntervals (manager w') !! id)
         = default [] (_spkIntervals (manager w) !! id)
             ++ windows_of (spkcov_c tk path) id spkCell) /\
  (_useExceptions (manager w) = false \/
     (failed w = false /\ is_Some (ckobj_c tk path (ckIds w)) /\
      Forall (fun obj => is_Some (ckcov_c tk path obj)) ckCell) ->
   exists w',
     findCkCoverage tk path w = (Returned tt, w') /\
     same_registry w w' /\
     ckIds w' = ckCell /\ spkIds w' = spkIds w /\
     forall id,
       default [] (_ckIntervals (manager w') !! id)
         = default [] (_ckIntervals (manager w) !! id)
             ++ windows_of (ckcov_c tk path) id ckCell).
Proof.
  intros spkCell ckCell. split; intros Hok.
  - destruct (find_coverage_appends _spkIntervals _spkCoverageTimes
                insert_spk insert_spk_appends
                "Error finding Spk ID for coverage" "Error finding Spk coverage"
                (spkobj_on_cell tk path) (spkcov_c tk path) w
                (spkobj_on_cell tk path w).2 spkCell)
      as (w' & Hrun & Hreg & [Hc Hc'] & Htbl).
    + subst spkCell. unfold spkobj_on_cell.
      by destruct (spkobj_c tk path (spkIds w)).
    + unfold spkobj_on_cell. destruct (spkobj_c tk path (spkIds w)); simpl.
      * destruct Hok as [Hok|(Hok & _)]; [by left | by right].
      * left. simpl. destruct Hok as [Hok|(_ & [? Hok] & _)]; [done | congruence].
    + unfold spkobj_on_cell. by destruct (spkobj_c tk path (spkIds w)).
    + unfold spkobj_on_cell. by destruct (spkobj_c tk path (spkIds w)).
    + tauto.
    + exists w'. split; [exact Hrun|]. split; [exact Hreg|].
      split; [|split; [|intros id; exact (proj1 (Htbl id))]].
      * rewrite Hc. subst spkCell. unfold spkobj_on_cell.
        by destruct (spkobj_c tk path (spkIds w)).
      * rewrite Hc'. unfold spkobj_on_cell.
        by destruct (spkobj_c tk path (spkIds w)).
  - destruct (find_coverage_appends _ckIntervals _ckCoverageTimes
                insert_ck insert_ck_appends
                "Error finding Ck Coverage" "Error finding Ck Coverage"
                (ckobj_on_cell tk path) (ckcov_c tk path) w
                (ckobj_on_cell tk path w).2 ckCell)
      as (w' & Hrun & Hreg & [Hc Hc'] & Htbl).
    + subst ckCell. unfold ckobj_on_cell.
      by destruct (ckobj_c tk path (ckIds w)).
    + unfold ckobj_on_cell. destruct (ckobj_c tk path (ckIds w)); simpl.
      * destruct Hok as [Hok|(Hok & _)]; [by left | by right].
      * left. simpl. destruct Hok as [Hok|(_ & [? Hok] & _)]; [done | congruence].
    + unfold ckobj_on_cell. by destruct (ckobj_c tk path (ckIds w)).
    + unfold ckobj_on_cell. by destruct (ckobj_c tk path (ckIds w)).
    + tauto.
    + exists w'. split; [exact Hrun|]. split; [exact Hreg|].
      split; [|split; [|intros id; exact (proj1 (Htbl id))]].
      * rewrite Hc'. subst ckCell. unfold ckobj_on_cell.
        by destruct (ckobj_c tk path (ckIds w)).
      * rewrite Hc. unfold ckobj_on_cell.
        by destruct (ckobj_c tk path (ckIds w)).
Qed.

(** An instance of X7: the relay's file indexed after the probe's.  The
    cell still holds the probe's id, the relay's file is asked for it and
    its answer, [300, 400], is recorded for the probe. *)
Lemma find_coverage_appends_windows_witness :
  spkIds (Demo.probe_world true) = [-98] /\
  exists w',
    findSpkCoverage Scenario.two_files "relay.bsp" (Demo.probe_world true)
      = (Returned tt, w') /\
    spkIds w' = [-98; -77] /\
    default [] (_spkIntervals (manager w') !! (-98))
      = [(of_Z 100, of_Z 200); (of_Z 300, of_Z 400)] /\
    default [] (_spkIntervals (manager w') !! (-77)) = [(of_Z 0, of_Z 50)].
Proof.
  split; [reflexivity|].
  destruct (find_coverage_appends_windows Scenario.two_files "relay.bsp"
              (Demo.probe_world true)) as [H _].
  destruct H as (w' & Hrun & _ & Hcell & _ & Hivs).
  - right. split; [reflexivity|]. split; [by eexists|].
    repeat constructor; by eexists.
  - exists w'. split; [exact Hrun|]. split; [exact Hcell|].
    rewrite (Hivs (-98)), (Hivs (-77)). by split.
Defined.

(** ** The extension decides which tables a load may touch *)

Lemma keeps_loadKernel_dispatch (P : SpiceManager -> Prop) tk (filePath : string) :
  let path := absPath tk filePath in
  (forall m m', coverage_tables m' = coverage_tables m -> P m -> P m') ->
  (is_coverage_extension (extension tk path) ".bc" ".BC" = true ->
   keeps P (findCkCoverage tk path)) ->
  (is_coverage_extension (extension tk path) ".bc" ".BC" = false ->
   is_coverage_extension (extension tk path) ".bsp" ".BSP" = true ->
   keeps P (findSpkCoverage tk path)) ->
  keeps P (loadKernel tk filePath).
Proof.
  intros path P_tables Hck Hspk. unfold loadKernel. fold path.
  apply (keeps_bind_with P P); [by intros w|by intros w a w1 Hw [= <- _]|].
  intros m Hm. destruct (_loadedKernels m !! _) as [info|].
  - destruct (_ =? INT_MAX); [by intros w|].
    intros w _. simpl. by apply (P_tables m).
  - apply keeps_bind; [by intros w|]. intros _.
    apply keeps_bind; [by destruct (furnsh_c tk _); intros w|]. intros _.
    apply keeps_bind; [apply keeps_check_failed|]. intros _.
    apply keeps_bind.
    { destruct (is_coverage_extension _ ".bc" ".BC"); [by apply Hck|].
      destruct (is_coverage_extension _ ".bsp" ".BSP"); [by apply Hspk|].
      apply keeps_ret. }
    intros _ w Hw. simpl. by apply (P_tables (manager w)).
Qed.

(** X8.  The extension of the file decides which tables [loadKernel] may
    touch: unless it is [.bc] or [.BC] the CK tables are left as they were,
    and when it is [.bc] or [.BC], or is not [.bsp] or [.BSP], the SPK tables
    are.  A file with another extension changes no coverage table. *)
Theorem loadKernel_extension_dispatch tk (filePath : string) (w : World) :
  let ext := extension tk (absPath tk filePath) in
  let m' := manager (loadKernel tk filePath w).2 in
  (is_coverage_extension ext ".bc" ".BC" = false ->
   _ckIntervals m' = _ckIntervals (manager w) /\
   _ckCoverageTimes m' = _ckCoverageTimes (manager w)) /\
  (is_coverage_extension ext ".bc" ".BC" = true \/
   is_coverage_extension ext ".bsp" ".BSP" = false ->
   _spkIntervals m' = _spkIntervals (manager w) /\
   _spkCoverageTimes m' = _spkCoverageTimes (manager w)).
Proof.
  intros ext m'. split; intros Hext.
  - apply (keeps_loadKernel_dispatch
             (fun m => _ckIntervals m = _ckIntervals (manager w) /\
                       _ckCoverageTimes m = _ckCoverageTimes (manager w))
             tk filePath); [| | |done].
    + unfold coverage_tables. by intros m1 m2 [= _ -> _ ->].
    + fold ext. congruence.
    + intros _ _. apply keeps_find_coverage. by intros obj b e w0.
  - apply (keeps_loadKernel_dispatch
             (fun m => _spkIntervals m = _spkIntervals (manager w) /\
                       _spkCoverageTimes m = _spkCoverageTimes (manager w))
             tk filePath); [| | |done].
    + unfold coverage_tables. by intros m1 m2 [= -> _ -> _].
    + intros _. apply keeps_find_coverage. by intros obj b e w0.
    + fold ext. intros H1 H2. destruct Hext; congruence.
Qed.

(** An instance of X8: the probe's [.bsp] file loaded into a manager that
    holds CK coverage. *)
Lemma loadKernel_extension_dispatch_witness :
  let m' := manager (loadKernel Demo.toolkit "probe.bsp" (Demo.frame_world true)).2 in
  _ckIntervals m' = _ckIntervals (manager (Demo.frame_world true)) /\
  _ckCoverageTimes m' = _ckCoverageTimes (manager (Demo.frame_world true)).
Proof.
  apply (loadKernel_extension_dispatch Demo.toolkit "probe.bsp"
           (Demo.frame_world true)).
  reflexivity.
Defined.

(** ** The estimators stay within their boundary sets *)

Lemma lower_bound_le (s : DoubleSet.t) (x : double) :
  (DoubleSet.lower_bound s x <= length s)%nat.
Proof. induction s as [|e s IH]; simpl; [lia|]. destruct (e <? x)%D; lia. Qed.

Lemma upper_bound_le (s : DoubleSet.t) (x : double) :
  (DoubleSet.upper_bound s x <= length s)%nat.
Proof. induction s as [|e s IH]; simpl; [lia|]. destruct (x <? e)%D; lia. Qed.

(** The three iterators the estimators dereference point into the set. *)
Lemma boundary_iterators (s : DoubleSet.t) (x : double) :
  s <> [] ->
  is_Some (DoubleSet.deref s (DoubleSet.begin s)) /\
  is_Some (DoubleSet.rbegin s) /\
  (DoubleSet.lower_bound s x <> DoubleSet.begin s ->
   is_Some (DoubleSet.deref s (Nat.pred (DoubleSet.lower_bound s x)))) /\
  (DoubleSet.upper_bound s x <> DoubleSet.end_ s ->
   is_Some (DoubleSet.deref s (DoubleSet.upper_bound s x))).
Proof.
  intros Hne. unfold DoubleSet.deref, DoubleSet.begin, DoubleSet.end_, DoubleSet.rbegin.
  split; [by destruct s|]. split.
  { destruct (last s) eqn:E; [by eexists|]. by apply last_None in E. }
  split; intros H; apply lookup_lt_is_Some.
  - pose proof (lower_bound_le s x). lia.
  - pose proof (upper_bound_le s x). lia.
Qed.

Lemma bind_call_defined {A B} (p : option A) (buffer : A) (k : A -> M B)
    (w : World) :
  (forall a w', (k a w').1 <> Undefined) ->
  (bind (call p buffer) k w).1 <> Undefined.
Proof. intros Hk. unfold bind. destruct p; simpl; apply Hk. Qed.

Lemma bind_check_defined {B} (msg : string) (k : M B) (w : World) :
  (forall w', (k w').1 <> Undefined) ->
  ((check_failed msg ;;; k) w).1 <> Undefined.
Proof.
  intros Hk. unfold bind. rewrite check_failed_run.
  destruct (failed w); [destruct (_useExceptions (manager w))|]; simpl;
    [done | apply Hk..].
Qed.

Lemma call_check_defined {A} (p : option A) (buffer : A) (msg : string) (w : World) :
  ((let* r := call p buffer in check_failed msg ;;; ret r) w).1 <> Undefined.
Proof.
  apply bind_call_defined. intros a w1. by apply bind_check_defined.
Qed.

(** X9.  While every boundary set has an element, the estimators never
    dereference an end iterator: [getEstimatedTransformMatrix] always
    returns or throws, and so does [getEstimatedPosition] with exception
    handling on. *)
Theorem estimators_defined tk (w : World) (fromFrame toFrame : string)
    (target observer referenceFrame : string)
    (aberrationCorrection : AberrationCorrection.t)
    (ephemerisTime lightTime : double) :
  tables_consistent (manager w) ->
  (getEstimatedTransformMatrix tk fromFrame toFrame ephemerisTime w).1
    <> Undefined /\
  (_useExceptions (manager w) = true ->
   (getEstimatedPosition tk target observer referenceFrame aberrationCorrection
      ephemerisTime lightTime w).1 <> Undefined).
Proof.
  intros [Hspk Hck]. split.
  - unfold getEstimatedTransformMatrix.
    unfold bind at 1, lift at 1.
    destruct (frameId tk fromFrame (manager w)) as [id| |] eqn:Eid; cbn [fst];
      [|done|by unfold frameId in Eid; destruct (_ && _)].
    unfold bind at 1, get_manager at 1.
    destruct (_ckCoverageTimes (manager w) !! id) as [s|] eqn:Es;
      [|by destruct (_useExceptions (manager w))].
    destruct (Hck id s Es) as [Hne _].
    destruct (boundary_iterators s ephemerisTime Hne)
      as ([first Hfirst] & [tlast Hlast] & Hlb & Hub).
    destruct (Nat.eqb_spec (DoubleSet.lower_bound s ephemerisTime) (DoubleSet.begin s))
      as [E1|E1].
    { rewrite Hfirst. unfold bind at 1, deref_or_undefined, ret at 1.
      apply call_check_defined. }
    destruct (Nat.eqb_spec (DoubleSet.upper_bound s ephemerisTime) (DoubleSet.end_ s))
      as [E2|E2].
    { rewrite Hlast. unfold bind at 1, deref_or_undefined, ret at 1.
      apply call_check_defined. }
    destruct (Hlb E1) as [earlier ->]. destruct (Hub E2) as [later ->].
    unfold bind at 1, deref_or_undefined, ret at 1.
    unfold bind at 1, ret at 1.
    apply bind_call_defined. intros r1 w1.
    apply bind_check_defined. intros w2.
    apply bind_call_defined. intros r2 w3. by apply bind_check_defined.
  - intros Hx. unfold getEstimatedPosition.
    unfold bind at 1, lift at 1.
    destruct (naifId tk target (manager w)) as [id| |] eqn:Eid; cbn [fst];
      [|done|by unfold naifId in Eid; rewrite Hx in Eid;
                destruct (bods2c_c _ _) as [? []]].
    destruct (id =? 0); [done|].
    unfold bind at 1, get_manager at 1.
    destruct (_spkCoverageTimes (manager w) !! id) as [s|] eqn:Es;
      [|by destruct (_useExceptions (manager w))].
    destruct (Hspk id s Es) as [Hne _].
    destruct (boundary_iterators s ephemerisTime Hne)
      as ([first Hfirst] & [tlast Hlast] & Hlb & Hub).
    destruct (Nat.eqb_spec (DoubleSet.lower_bound s ephemerisTime) (DoubleSet.begin s))
      as [E1|E1].
    { rewrite Hfirst. unfold bind at 1, deref_or_undefined, ret at 1.
      apply call_check_defined. }
    destruct (Nat.eqb_spec (DoubleSet.upper_bound s ephemerisTime) (DoubleSet.end_ s))
      as [E2|E2].
    { rewrite Hlast. unfold bind at 1, deref_or_undefined, ret at 1.
      apply call_check_defined. }
    destruct (Hlb E1) as [earlier ->]. destruct (Hub E2) as [later ->].
    unfold bind at 1, deref_or_undefined, ret at 1.
    destruct w as [m f calls sids cids]. cbn [manager] in Hx.
    unfold call_uninit, bind, signal, ret. cbv beta iota.
    destruct (spkpos_c tk target earlier referenceFrame
                (AberrationCorrection.to_cstr aberrationCorrection) observer)
      as [[p1 l1]|]; cbv beta iota;
      destruct (spkpos_c tk target later referenceFrame
                  (AberrationCorrection.to_cstr aberrationCorrection) observer)
        as [[p2 l2]|]; cbv beta iota;
      rewrite check_failed_run; cbn [failed manager]; rewrite ?Hx; by destruct f.
Qed.

(** An instance of X9: the probe's frame, estimated between its boundary
    points. *)
Lemma estimators_defined_witness :
  (getEstimatedTransformMatrix Demo.toolkit "PROBE_FRAME" "J2000" (of_Z 150)
     (Demo.frame_world true)).1 <> Undefined.
Proof.
  apply (estimators_defined Demo.toolkit (Demo.frame_world true)
           "PROBE_FRAME" "J2000" "PROBE" "SSB" "J2000"
           (AberrationCorrection.Build AberrationCorrection.None_
                                       AberrationCorrection.Reception)
           (of_Z 150) zero).
  split; intros id s; simpl; [by rewrite lookup_empty|].
  intros [<- <-]%lookup_singleton_Some. split; [done|].
  intros x Hx. rewrite lookup_singleton_eq. simpl.
  exists (of_Z 100, of_Z 200). split; [apply list_elem_of_here|].
  rewrite !elem_of_cons, elem_of_nil in Hx. simpl. tauto.
Defined.

(** ** Rotation estimates *)

Lemma upper_bound_end (s : DoubleSet.t) (x : double) :
  Forall (fun e => (x <? e)%D = false) s ->
  DoubleSet.upper_bound s x = length s.
Proof.
  intros H. rewrite <- (app_nil_r s) at 1.
  rewrite DoubleSetFacts.upper_bound_app by done. simpl. lia.
Qed.

Section RotationEstimation.

Variable tk : Toolkit.
Variable w : World.
Variables fromFrame toFrame : string.
Variable idFrame : Z.
Variable coveredTimes : DoubleSet.t.

Hypothesis frame_id : frameId tk fromFrame (manager w) = Returned idFrame.
Hypothesis boundary_points :
  _ckCoverageTimes (manager w) !! idFrame = Some coveredTimes.
Hypothesis no_pending_error : failed w = false.

Local Abbreviation rotation_at := (pxform_c tk fromFrame toFrame).
Local Abbreviation estimate_at t :=
  (getEstimatedTransformMatrix tk fromFrame toFrame t w).

Lemma rotation_estimate_enters (time : double) :
  estimate_at time =
    (let result := dmat3_diag one in
     if Nat.eqb (DoubleSet.lower_bound coveredTimes time)
                (DoubleSet.begin coveredTimes) then
       let* first :=
         deref_or_undefined
           (DoubleSet.deref coveredTimes (DoubleSet.begin coveredTimes)) in
       let* result := call (pxform_c tk fromFrame toFrame first) result in
       check_failed "Error estimating transform matrix" ;;;
       ret result
     else if Nat.eqb (DoubleSet.upper_bound coveredTimes time)
                     (DoubleSet.end_ coveredTimes) then
       let* last := deref_or_undefined (DoubleSet.rbegin coveredTimes) in
       let* result := call (pxform_c tk fromFrame toFrame last) result in
       check_failed "Error estimating transform matrix" ;;;
       ret result
     else
       let* earlier :=
         deref_or_undefined
           (DoubleSet.deref coveredTimes
              (Nat.pred (DoubleSet.lower_bound coveredTimes time))) in
       let* later :=
         deref_or_undefined
           (DoubleSet.deref coveredTimes (DoubleSet.upper_bound coveredTimes time)) in
       let* earlierTransform :=
         call (pxform_c tk fromFrame toFrame earlier) (dmat3_diag one) in
       check_failed "Error estimating transform matrix" ;;;
       let* laterTransform :=
         call (pxform_c tk fromFrame toFrame later) (dmat3_diag one) in
       check_failed "Error estimating transform matrix" ;;;
       let t := ((time - earlier) / (later - earlier))%D in
       ret (mlerp earlierTransform laterTransform t)) w.
Proof.
  unfold getEstimatedTransformMatrix.
  unfold bind at 1, lift at 1. rewrite frame_id.
  unfold bind at 1, get_manager at 1. by rewrite boundary_points.
Qed.

Lemma call_check_run {A} (p : option A) (buffer r : A) (msg : string) :
  p = Some r ->
  (let* r := call p buffer in check_failed msg ;;; ret r) w = (Returned r, w).
Proof.
  intros ->. unfold call, bind at 1, ret at 1. unfold bind.
  rewrite check_failed_run. by rewrite no_pending_error.
Qed.

(** X10.  The boundary law of [getEstimatedTransformMatrix], for a frame
    with recorded boundary points and no error pending: at or before the
    first point it returns the rotation [pxform_c] gives at the first
    point, after the last point the rotation at the last point, and
    strictly between two neighbouring points [before] and [after] the
    entrywise blend of the rotations there with weight
    [(time - before) / (after - before)].  The toolkit and the manager are
    left as they were. *)
Theorem getEstimatedTransformMatrix_boundary_law :
  DoubleSet.sorted coveredTimes ->
  (forall time first rest r,
     coveredTimes = first :: rest ->
     (first <? time)%D = false ->
     rotation_at first = Some r ->
     estimate_at time = (Returned r, w)) /\
  (forall time first rest tlast r,
     coveredTimes = first :: rest ->
     (first <? time)%D = true ->
     Forall (fun e => (time <? e)%D = false) coveredTimes ->
     last coveredTimes = Some tlast ->
     rotation_at tlast = Some r ->
     estimate_at time = (Returned r, w)) /\
  (forall time before after rEarlier rLater,
     before ∈ coveredTimes -> after ∈ coveredTimes ->
     DoubleSet.lt before time -> DoubleSet.lt time after ->
     (forall e, e ∈ coveredTimes -> DoubleSet.lt e time -> (before <? e)%D = false) ->
     (forall e, e ∈ coveredTimes -> DoubleSet.lt time e -> (e <? after)%D = false) ->
     rotation_at before = Some rEarlier ->
     rotation_at after = Some rLater ->
     let t := ((time - before) / (after - before))%D in
     estimate_at time =
       (Returned (madd (mscale rEarlier (one - t)%D) (mscale rLater t)), w)).
Proof.
  intros Hs. split; [|split].
  - intros time first rest r Hset Hlow Hr. rewrite rotation_estimate_enters, Hset.
    unfold DoubleSet.begin, DoubleSet.end_, DoubleSet.deref.
    cbn [DoubleSet.lower_bound]. rewrite Hlow.
    change ((first :: rest) !! 0%nat) with (Some first).
    cbn [Nat.eqb deref_or_undefined].
    unfold bind at 1, ret at 1. by apply call_check_run.
  - intros time first rest tlast r Hset Hlow Hup Hlast Hr.
    assert (Hlb : Nat.eqb (DoubleSet.lower_bound coveredTimes time) 0 = false).
    { rewrite Hset. cbn [DoubleSet.lower_bound]. by rewrite Hlow. }
    rewrite rotation_estimate_enters.
    unfold DoubleSet.begin, DoubleSet.end_, DoubleSet.rbegin.
    rewrite Hlb, (upper_bound_end _ _ Hup), Nat.eqb_refl, Hlast.
    cbn [deref_or_undefined].
    unfold bind at 1, ret at 1. by apply call_check_run.
  - intros time before after rE rL Hb Ha Hbt Hta Hg Hl HrE HrL t.
    destruct (DoubleSetFacts.bracket coveredTimes time before after)
      as (H1 & H2 & H3 & H4); try done.
    rewrite rotation_estimate_enters.
    unfold DoubleSet.begin, DoubleSet.end_, DoubleSet.deref.
    apply Nat.eqb_neq in H1, H2. rewrite H1, H2, H3, H4.
    unfold deref_or_undefined, bind at 1, ret at 1.
    unfold bind at 1, ret at 1.
    unfold bind at 1. rewrite HrE. unfold call at 1, ret at 1.
    unfold bind at 1. rewrite check_failed_run, no_pending_error.
    unfold bind at 1. rewrite HrL. unfold call at 1, ret at 1.
    unfold bind. rewrite check_failed_run. by rewrite no_pending_error.
Qed.

End RotationEstimation.

(** An instance of X10: the probe's frame, whose rotation is known at 100
    only, estimated at 50. *)
Lemma getEstimatedTransformMatrix_boundary_law_witness :
  getEstimatedTransformMatrix Demo.toolkit "PROBE_FRAME" "J2000" (of_Z 50)
    (Demo.frame_world true)
  = (Returned Demo.quarter_turn, Demo.frame_world true).
Proof.
  destruct (getEstimatedTransformMatrix_boundary_law Demo.toolkit
              (Demo.frame_world true) "PROBE_FRAME" "J2000" (-98000)
              [of_Z 100; of_Z 200]) as [H _];
    [reflexivity | reflexivity | reflexivity | |].
  - repeat constructor.
  - by apply (H (of_Z 50) (of_Z 100) [of_Z 200]).
Defined.

(** ** No error is left pending *)

Section Effects.

Variable R : World -> World -> Prop.
Hypothesis R_same : forall w w', same_state w w' -> R w w'.
Hypothesis R_trans : forall w1 w2 w3, R w1 w2 -> R w2 w3 -> R w1 w3.


(** A step that changes nothing. *)
Lemma effect_pure {A} (c : M A) : (forall w, (c w).2 = w) -> effect R true c.
Proof.
  intros Hc w Hpre _. rewrite Hc. split; [by apply Hpre | by apply R_same].
Qed.

Lemma effect_ret {A} (a : A) : effect R true (ret a).
Proof. by apply effect_pure. Qed.

Lemma effect_check_failed (msg : string) : effect R false (check_failed msg).
Proof.
  intros w _ _. rewrite check_failed_run.
  destruct (failed w) eqn:E; [destruct (_useExceptions (manager w))|];
    (split; [done | by apply R_same]).
Qed.

Lemma effect_bind {A B} (pre : bool) (c : M A) (k : A -> M B) :
  effect R pre c -> (forall a, effect R true (k a)) -> effect R pre (bind c k).
Proof.
  intros Hc Hk w Hpre. unfold bind. specialize (Hc w Hpre).
  destruct (c w) as [[a| |] w1]; cbn [fst snd] in *; [|by auto..].
  intros Hdef. destruct Hc as [Hf HR]; [done|].
  destruct (Hk a w1) as [Hf2 HR2]; [done..|]. split; [done|]. by eapply R_trans.
Qed.

(** A step that does not throw and keeps the error flag. *)
Lemma effect_quiet_step {A B} (pre : bool) (c : M A) (k : A -> M B) :
  (forall w, match c w with
             | (Returned _, w') => R w w' /\ failed w' = failed w
             | (Thrown _, _) => False
             | (Undefined, _) => True
             end) ->
  (forall a, effect R pre (k a)) -> effect R pre (bind c k).
Proof.
  intros Hc Hk w Hpre. unfold bind. specialize (Hc w).
  destruct (c w) as [[a| |] w1]; cbn [fst snd]; [|done..].
  destruct Hc as [HR Hf]. intros Hdef.
  destruct (Hk a w1) as [Hf2 HR2]; [by rewrite Hf|done|].
  split; [done|]. by eapply R_trans.
Qed.

(** A step that does not throw and may signal an error. *)
Lemma effect_noisy_step {A B} (pre : bool) (c : M A) (k : A -> M B) :
  (forall w, match c w with
             | (Returned _, w') => R w w'
             | (Thrown _, _) => False
             | (Undefined, _) => True
             end) ->
  (forall a, effect R false (k a)) -> effect R pre (bind c k).
Proof.
  intros Hc Hk w Hpre. unfold bind. specialize (Hc w).
  destruct (c w) as [[a| |] w1]; cbn [fst snd]; [|done..].
  intros Hdef. destruct (Hk a w1) as [Hf2 HR2]; [done..|].
  split; [done|]. by eapply R_trans.
Qed.

Lemma effect_call {A B} (pre : bool) (p : option A) (buffer : A) (k : A -> M B) :
  (forall a, effect R false (k a)) -> effect R pre (bind (call p buffer) k).
Proof.
  apply effect_noisy_step. intros w. destruct p; simpl; by apply R_same.
Qed.

Lemma effect_call_uninit {A B} (pre : bool) (p : option A) (k : option A -> M B) :
  (forall a, effect R false (k a)) -> effect R pre (bind (call_uninit p) k).
Proof.
  apply effect_noisy_step. intros w. destruct p; simpl; by apply R_same.
Qed.

Lemma effect_deref {A B} (pre : bool) (o : option A) (k : A -> M B) :
  (forall a, effect R pre (k a)) -> effect R pre (bind (deref_or_undefined o) k).
Proof.
  apply effect_quiet_step. intros w. destruct o; simpl; [|done].
  split; [by apply R_same | done].
Qed.

Lemma effect_get_manager {B} (pre : bool) (k : SpiceManager -> M B) :
  (forall a, effect R pre (k a)) -> effect R pre (bind get_manager k).
Proof.
  apply effect_quiet_step. intros w. simpl. split; [by apply R_same | done].
Qed.

Lemma effect_call_check {A B} (pre : bool) (p : option A) (buffer : A)
    (msg : string) (k : A -> M B) :
  (forall a, effect R true (k a)) ->
  effect R pre (let* r := call p buffer in check_failed msg ;;; k r).
Proof.
  intros Hk. apply effect_call. intros a.
  apply effect_bind; [apply effect_check_failed|]. intros _. apply Hk.
Qed.

Lemma effect_getEstimatedPosition tk (target observer referenceFrame : string)
    (aberrationCorrection : AberrationCorrection.t)
    (ephemerisTime lightTime : double) :
  effect R true
    (getEstimatedPosition tk target observer referenceFrame aberrationCorrection
       ephemerisTime lightTime).
Proof.
  unfold getEstimatedPosition.
  apply effect_bind; [by apply effect_pure|]. intros targetId.
  destruct (targetId =? 0); [apply effect_ret|].
  apply effect_get_manager. intros m.
  destruct (_spkCoverageTimes m !! targetId) as [s|];
    [|destruct (_useExceptions m); by apply effect_pure].
  destruct (Nat.eqb _ _).
  { apply effect_deref. intros first. apply effect_call_check.
    intros r. apply effect_ret. }
  destruct (Nat.eqb _ _).
  { apply effect_deref. intros tlast. apply effect_call_check.
    intros r. apply effect_ret. }
  apply effect_deref. intros timeEarlier.
  apply effect_call_uninit. intros earlier.
  apply effect_deref. intros timeLater.
  apply effect_call_uninit. intros later.
  apply effect_bind; [apply effect_check_failed|]. intros _.
  destruct earlier as [[? ?]|], later as [[? ?]|]; by apply effect_pure.
Qed.

Lemma effect_getEstimatedTransformMatrix tk (fromFrame toFrame : string)
    (time : double) :
  effect R true (getEstimatedTransformMatrix tk fromFrame toFrame time).
Proof.
  unfold getEstimatedTransformMatrix.
  apply effect_bind; [by apply effect_pure|]. intros idFrame.
  apply effect_get_manager. intros m.
  destruct (_ckCoverageTimes m !! idFrame) as [s|];
    [|destruct (_useExceptions m); by apply effect_pure].
  destruct (Nat.eqb _ _).
  { apply effect_deref. intros first. apply effect_call_check.
    intros r. apply effect_ret. }
  destruct (Nat.eqb _ _).
  { apply effect_deref. intros tlast. apply effect_call_check.
    intros r. apply effect_ret. }
  apply effect_deref. intros earlier.
  apply effect_deref. intros later.
  apply effect_call_check. intros earlierTransform.
  apply effect_call_check. intros laterTransform. apply effect_ret.
Qed.

Lemma effect_targetPosition tk (target observer referenceFrame : string)
    (aberrationCorrection : AberrationCorrection.t)
    (ephemerisTime lightTime : double) :
  effect R true
    (targetPosition tk target observer referenceFrame aberrationCorrection
       ephemerisTime lightTime).
Proof.
  unfold targetPosition.
  apply effect_bind; [by apply effect_pure|]. intros targetHasCoverage.
  apply effect_bind; [by apply effect_pure|]. intros observerHasCoverage.
  destruct (negb targetHasCoverage && negb observerHasCoverage).
  { apply effect_get_manager. intros m.
    destruct (_useExceptions m); by apply effect_pure. }
  destruct (targetHasCoverage && observerHasCoverage).
  { apply effect_call_check. intros r. apply effect_ret. }
  destruct targetHasCoverage.
  - apply effect_bind; [apply effect_getEstimatedPosition|].
    intros r. apply effect_ret.
  - apply effect_getEstimatedPosition.
Qed.

Lemma effect_frameTransformationMatrix tk (from to : string) (time : double) :
  effect R true (frameTransformationMatrix tk from to time).
Proof.
  unfold frameTransformationMatrix.
  apply effect_call_check. intros r. apply effect_ret.
Qed.

(** The member functions that change the manager: any two worlds are
    related. *)
Hypothesis R_any : forall w w', R w w'.








End Effects.

Lemma same_state_world (w w' : World) :
  failed w = false -> failed w' = false -> same_state w w' -> w' = w.
Proof.
  destruct w, w'. unfold same_state. simpl.
  intros -> -> (-> & -> & -> & ->). done.
Qed.

Lemma same_state_trans (w1 w2 w3 : World) :
  same_state w1 w2 -> same_state w2 w3 -> same_state w1 w3.
Proof.
  unfold same_state. intros (? & ? & ? & ?) (? & ? & ? & ?).
  repeat split; congruence.
Qed.

(** X11.  The queries change nothing: entered with no error pending,
    [targetPosition], both estimators and [frameTransformationMatrix]
    leave the manager, the pool and the error flag exactly as they found
    them, whether they return or throw; [positionTransformMatrix] and
    [hasNaifId] leave no error pending even when one was. *)
Theorem queries_restore_the_world tk (w : World)
    (target observer referenceFrame fromFrame toFrame : string)
    (aberrationCorrection : AberrationCorrection.t)
    (ephemerisTime lightTime : double) :
  let position :=
    targetPosition tk target observer referenceFrame aberrationCorrection
      ephemerisTime lightTime w in
  let estimate :=
    getEstimatedPosition tk target observer referenceFrame aberrationCorrection
      ephemerisTime lightTime w in
  let rotationEstimate :=
    getEstimatedTransformMatrix tk fromFrame toFrame ephemerisTime w in
  let rotation := frameTransformationMatrix tk fromFrame toFrame ephemerisTime w in
  (failed w = false ->
   (position.1 <> Undefined -> position.2 = w) /\
   (estimate.1 <> Undefined -> estimate.2 = w) /\
   (rotationEstimate.1 <> Undefined -> rotationEstimate.2 = w) /\
   rotation.2 = w) /\
  (positionTransformMatrix tk fromFrame toFrame ephemerisTime w).2
    = clear_failed w /\
  (hasNaifId tk target w).2 = clear_failed w.
Proof.
  intros position estimate rotationEstimate rotation. split; [|split].
  - intros Hw.
    assert (H : forall {A} (c : M A),
              effect same_state true c -> (c w).1 <> Undefined -> (c w).2 = w).
    { intros A c Hc Hdef. destruct (Hc w) as [Hf Hs]; [done..|].
      by apply same_state_world. }
    repeat split.
    + apply H. by apply effect_targetPosition; [|apply same_state_trans].
    + apply H. by apply effect_getEstimatedPosition; [|apply same_state_trans].
    + apply H. by apply effect_getEstimatedTransformMatrix; [|apply same_state_trans].
    + apply H.
      * by apply effect_frameTransformationMatrix; [|apply same_state_trans].
      * apply bind_call_defined. intros r w1. by apply bind_check_defined.
  - rewrite positionTransformMatrix_run. cbv zeta. by destruct (_ && _).
  - unfold hasNaifId. by destruct (bods2c_c tk target).
Qed.

(** An instance of X11: the probe, estimated from the barycenter at 50. *)
Lemma queries_restore_the_world_witness :
  (targetPosition Demo.toolkit "PROBE" "SSB" "J2000"
     (AberrationCorrection.Build AberrationCorrection.None_
                                 AberrationCorrection.Reception)
     (of_Z 50) zero (Demo.probe_world true)).2 = Demo.probe_world true.
Proof.
  destruct (queries_restore_the_world Demo.toolkit (Demo.probe_world true)
              "PROBE" "SSB" "J2000" "PROBE_FRAME" "J2000"
              (AberrationCorrection.Build AberrationCorrection.None_
                                          AberrationCorrection.Reception)
              (of_Z 50) zero) as [H _].
  destruct (H eq_refl) as (H1 & _). apply H1. vm_compute. discriminate.
Defined.



(** ** Positions without an estimate *)

(** X13.  When the target and the observer are both covered, or both
    uncovered, [targetPosition] makes no estimate.  Both covered, it
    returns what [spkpos_c] computes, and when [spkpos_c] fails it throws
    with exception handling on and returns the zero vector and the caller's
    light time with it off.  Both uncovered, it throws with exception
    handling on and returns the zero vector and the caller's light time
    with it off.  The world is left as it was. *)
Theorem targetPosition_without_estimate tk (target observer referenceFrame : string)
    (aberrationCorrection : AberrationCorrection.t)
    (ephemerisTime lightTime : double) (w : World) (covered : bool) :
  failed w = false ->
  hasSpkCoverage tk target ephemerisTime (manager w) = Returned covered ->
  hasSpkCoverage tk observer ephemerisTime (manager w) = Returned covered ->
  targetPosition tk target observer referenceFrame aberrationCorrection
    ephemerisTime lightTime w =
  (if covered then
     match exact_position tk target observer referenceFrame aberrationCorrection
             ephemerisTime with
     | Some r => Returned r
     | None =>
         if _useExceptions (manager w)
         then Thrown (SpiceError "Error getting position")
         else Returned (dvec3_splat zero, lightTime)
     end
   else
     if _useExceptions (manager w)
     then Thrown (NoSpkCoverage target observer ephemerisTime)
     else Returned (dvec3_splat zero, lightTime),
   w).
Proof.
  intros Hw HT HO.
  rewrite (targetPosition_dispatch tk target observer _ _ _ _ w covered covered HT HO).
  destruct w as [m f calls sids cids]. simpl in Hw. subst f.
  destruct covered; cbn [negb andb].
  - unfold exact_position.
    destruct (spkpos_c tk target ephemerisTime referenceFrame _ observer) as [r|].
    + unfold call, bind at 1, ret at 1. unfold bind. by rewrite check_failed_run.
    + unfold call, bind at 1, bind at 1, signal, ret at 1. unfold bind.
      rewrite check_failed_run. unfold clear_failed. simpl.
      by destruct (_useExceptions m).
  - unfold bind, get_manager. simpl. by destruct (_useExceptions m).
Qed.

(** An instance of X13: the Sun, never covered, seen from itself. *)
Lemma targetPosition_without_estimate_witness :
  targetPosition Demo.toolkit "SUN" "SUN" "J2000"
    (AberrationCorrection.Build AberrationCorrection.None_
                                AberrationCorrection.Reception)
    (of_Z 50) one (Demo.probe_world false)
  = (Returned (dvec3_splat zero, one), Demo.probe_world false).
Proof.
  apply (targetPosition_without_estimate Demo.toolkit "SUN" "SUN" "J2000"
           (AberrationCorrection.Build AberrationCorrection.None_
                                       AberrationCorrection.Reception)
           (of_Z 50) one (Demo.probe_world false) false); reflexivity.
Defined.

(** ** The two frame transformations *)

(** X14.  Entered with no error pending, [positionTransformMatrix] does
    what [frameTransformationMatrix] does: the same matrix returned, the
    transpose of what [pxform_c] wrote, and the same world left; when one
    throws the other throws, with another message.  The estimator makes no
    difference between them. *)
Theorem positionTransformMatrix_as_frameTransformationMatrix tk
    (sourceFrame destinationFrame : string) (ephemerisTime : double) (w : World) :
  failed w = false ->
  positionTransformMatrix tk sourceFrame destinationFrame ephemerisTime w =
    match frameTransformationMatrix tk sourceFrame destinationFrame ephemerisTime w with
    | (Thrown _, w') => (Thrown (SpiceError ""), w')
    | r => r
    end /\
  forall r,
    pxform_c tk sourceFrame destinationFrame ephemerisTime = Some r ->
    frameTransformationMatrix tk sourceFrame destinationFrame ephemerisTime w
      = (Returned (transpose r), w) /\
    transpose (transpose r) = r.
Proof.
  intros Hw. rewrite positionTransformMatrix_run.
  unfold frameTransformationMatrix.
  destruct w as [m f calls sids cids]. simpl in Hw. subst f.
  destruct (pxform_c tk sourceFrame destinationFrame ephemerisTime) as [r0|];
    cbn [call default from_option id].
  - unfold bind at 1, ret at 1. unfold bind. rewrite check_failed_run. simpl.
    split; [done|]. intros r [= <-]. split; [done|].
    by destruct r0 as [[] [] []].
  - unfold bind at 1, bind at 1, signal, ret at 1. unfold bind.
    rewrite check_failed_run. simpl. split; [|done].
    by destruct (_useExceptions m).
Qed.

(** An instance of X14: the probe's frame at 100. *)
Lemma positionTransformMatrix_as_frameTransformationMatrix_witness :
  positionTransformMatrix Demo.toolkit "PROBE_FRAME" "J2000" (of_Z 100)
    (Demo.frame_world true)
  = (Returned (transpose Demo.quarter_turn), Demo.frame_world true).
Proof.
  destruct (positionTransformMatrix_as_frameTransformationMatrix Demo.toolkit
              "PROBE_FRAME" "J2000" (of_Z 100) (Demo.frame_world true) eq_refl)
    as [H1 H2].
  destruct (H2 Demo.quarter_turn eq_refl) as [H3 _].
  rewrite H1, H3. reflexivity.
Defined.

(** ** Names *)

(** X15.  The predicates tell what the look-ups do.  [frameId] throws
    exactly when [hasFrameId] is false and exception handling is on; with
    exception handling off it then returns 0, which is the id of no frame;
    and an id it returns for a frame that [hasFrameId] accepts is not 0.
    [naifId] throws exactly when [hasNaifId] returns false and exception
    handling is on. *)
Theorem has_id_predicts_lookup tk (body frame : string) (w : World) :
  (frameId tk frame (manager w) = Thrown (NoFrameId frame) <->
   hasFrameId tk frame = false /\ _useExceptions (manager w) = true) /\
  (hasFrameId tk frame = false -> _useExceptions (manager w) = false ->
   frameId tk frame (manager w) = Returned 0) /\
  (hasFrameId tk frame = true ->
   exists id, frameId tk frame (manager w) = Returned id /\ id <> 0) /\
  (naifId tk body (manager w) = Thrown (NoNaifId body) <->
   (hasNaifId tk body w).1 = Returned false /\ _useExceptions (manager w) = true).
Proof.
  unfold frameId, hasFrameId, naifId, hasNaifId.
  destruct (Z.eqb_spec (namfrm_c tk frame) 0) as [E|E];
    destruct (bods2c_c tk body) as [id [|]];
    destruct (_useExceptions (manager w)); simpl;
    repeat split; try done; try tauto; try (by intros [? ?]);
    try (intros _; by eexists); by rewrite ?E.
Qed.

(** An instance of X15: an unknown frame, with exception handling off. *)
Lemma has_id_predicts_lookup_witness :
  frameId Demo.toolkit "NOWHERE" (manager (Demo.world0 false)) = Returned 0.
Proof.
  destruct (has_id_predicts_lookup Demo.toolkit "PROBE" "NOWHERE"
              (Demo.world0 false)) as (_ & H & _).
  by apply H.
Defined.

(** ** Strings of the enumerations *)

(** X16.  The constructor of [AberrationCorrection] accepts the nine codes
    and nothing else, and the conversion gives back the code that was
    accepted.  In the other direction the direction of a correction of type
    [None] is lost: the conversion writes [NONE], which the constructor
    reads as a reception; every other correction comes back as it was. *)
Theorem aberration_correction_strings :
  (forall s a,
     AberrationCorrection.of_identifier s = Some a ->
     s ∈ AberrationCorrection.canonical_codes /\
     AberrationCorrection.to_cstr a = s) /\
  (forall a,
     AberrationCorrection.of_identifier (AberrationCorrection.to_cstr a) =
       Some (AberrationCorrection.Build (AberrationCorrection.type a)
               (match AberrationCorrection.type a with
                | AberrationCorrection.None_ => AberrationCorrection.Reception
                | _ => AberrationCorrection.direction a
                end))) /\
  AberrationCorrection.of_identifier "" = None /\
  AberrationCorrection.of_identifier "lt" = None.
Proof.
  split; [|split; [|by split]].
  - intros s a. unfold AberrationCorrection.of_identifier,
      AberrationCorrection.Mapping, AberrationCorrection.find.
    repeat (match goal with
            | |- context [String.eqb ?k s] =>
                destruct (String.eqb_spec k s) as [<-|_];
                [intros [= <-]; split; [|reflexivity];
                 unfold AberrationCorrection.canonical_codes;
                 rewrite !elem_of_cons; tauto|]
            end).
    discriminate.
  - by intros [[] []].
Qed.

(** X17.  The strings of [FieldOfViewMethod] and [TerminatorType]: the
    string of a value is read back as that value, a string that is read is
    the string of the value read, and any other string, lower case
    included, is out of range. *)
Theorem enumeration_strings :
  (forall m, fieldOfViewMethodFromString (FieldOfViewMethod.toString m) = Some m) /\
  (forall s m, fieldOfViewMethodFromString s = Some m ->
               FieldOfViewMethod.toString m = s) /\
  (forall t, terminatorTypeFromString (TerminatorType.toString t) = Some t) /\
  (forall s t, terminatorTypeFromString s = Some t ->
               TerminatorType.toString t = s) /\
  fieldOfViewMethodFromString "ellipsoid" = None /\
  terminatorTypeFromString "Umbral" = None.
Proof.
  split; [by intros []|]. split.
  { intros s m. unfold fieldOfViewMethodFromString, FieldOfViewMethod.Mapping, map_at.
    repeat (match goal with
            | |- context [String.eqb ?k s] =>
                destruct (String.eqb_spec k s) as [<-|_]; [by intros [= <-]|]
            end).
    discriminate. }
  split; [by intros []|]. split; [|by split].
  intros s t. unfold terminatorTypeFromString, TerminatorType.Mapping, map_at.
  repeat (match goal with
          | |- context [String.eqb ?k s] =>
              destruct (String.eqb_spec k s) as [<-|_]; [by intros [= <-]|]
          end).
  discriminate.
Qed.

(** ** Where two windows meet *)

Lemma ltb_asym (x y : double) : (x <? y)%D = true -> (y <? x)%D = false.
Proof.
  unfold ltb, SFltb. rewrite (SFcompare_antisym x y).
  by destruct (SFcompare x y) as [[]|].
Qed.

(** X18.  Where two windows of a target meet, at a time [b] that ends
    [(a, b)] and starts [(b, c)], the target counts as uncovered, since both
    ends of a window are excluded; and [targetPosition], for a covered
    observer, does not ask the toolkit for the position at [b]: it blends
    the positions at [a] and [c], the boundary points on either side, with
    weight [(b - a) / (c - a)]. *)
Theorem targetPosition_where_windows_meet tk
    (target observer referenceFrame : string)
    (aberrationCorrection : AberrationCorrection.t) (lightTime : double)
    (w : World) (targetId : Z) (a b c : double)
    (posA posC : dvec3) (ltA ltC : double) :
  failed w = false ->
  naifId tk target (manager w) = Returned targetId -> targetId <> 0 ->
  _spkIntervals (manager w) !! targetId = Some [(a, b); (b, c)] ->
  _spkCoverageTimes (manager w) !! targetId = Some [a; b; c] ->
  (a <? b)%D = true -> (b <? c)%D = true ->
  hasSpkCoverage tk observer b (manager w) = Returned true ->
  exact_position tk target observer referenceFrame aberrationCorrection a
    = Some (posA, ltA) ->
  exact_position tk target observer referenceFrame aberrationCorrection c
    = Some (posC, ltC) ->
  hasSpkCoverage tk target b (manager w) = Returned false /\
  let t := ((b - a) / (c - a))%D in
  targetPosition tk target observer referenceFrame aberrationCorrection b
    lightTime w
  = (Returned (vlerp posA posC t, lerp ltA ltC t), w).
Proof.
  intros Hw Hid Hnz Hivs Hset Hab Hbc Hobs HA HC.
  assert (Hcov : hasSpkCoverage tk target b (manager w) = Returned false).
  { rewrite (hasSpkCoverage_body tk _ _ targetId) by done.
    rewrite Hivs. cbn [default from_option id inside_some_interval fst snd].
    by rewrite gtb_ltb, !ltb_irrefl, Hab. }
  split; [exact Hcov|]. intros t.
  rewrite (targetPosition_dispatch tk target observer _ _ _ _ w false true Hcov Hobs).
  cbn [negb andb].
  assert (Hlb : DoubleSet.lower_bound [a; b; c] b = 1%nat).
  { cbn [DoubleSet.lower_bound]. by rewrite Hab, ltb_irrefl. }
  assert (Hub : DoubleSet.upper_bound [a; b; c] b = 2%nat).
  { cbn [DoubleSet.upper_bound]. by rewrite (ltb_asym a b Hab), ltb_irrefl, Hbc. }
  apply (estimate_between tk w target observer referenceFrame aberrationCorrection
           lightTime targetId [a; b; c] Hid Hnz Hset Hw b a c);
    rewrite ?Hlb, ?Hub; done.
Qed.

(** An instance of X18: the windows [100, 200] and [200, 300] of the probe,
    seen from the barycenter at 200. *)
Lemma targetPosition_where_windows_meet_witness :
  hasSpkCoverage Demo.toolkit "PROBE" (of_Z 200)
    (manager (Scenario.junction_world true)) = Returned false /\
  targetPosition Demo.toolkit "PROBE" "SSB" "J2000"
    (AberrationCorrection.Build AberrationCorrection.None_
                                AberrationCorrection.Reception)
    (of_Z 200) zero (Scenario.junction_world true)
  = (Returned (vlerp (dvec3_splat (of_Z 100)) (dvec3_splat (of_Z 300)) half,
               lerp (of_Z 100) (of_Z 300) half),
     Scenario.junction_world true).
Proof.
  apply (targetPosition_where_windows_meet Demo.toolkit "PROBE" "SSB" "J2000"
           (AberrationCorrection.Build AberrationCorrection.None_
                                       AberrationCorrection.Reception)
           zero (Scenario.junction_world true) (-98)
           (of_Z 100) (of_Z 200) (of_Z 300)
           (dvec3_splat (of_Z 100)) (dvec3_splat (of_Z 300))
           (of_Z 100) (of_Z 300)); try reflexivity.
  discriminate.
Defined.

(** ** The pool of the toolkit and the registry *)

Lemma pool_balance_app (calls : list PoolCall) (c : PoolCall) (p : string) :
  pool_balance (calls ++ [c]) p =
    pool_balance calls p +
    match c with
    | Furnsh q => if String.eqb q p then 1 else 0
    | Unload q => - (if String.eqb q p then 1 else 0)
    end.
Proof.
  induction calls as [|[q|q] calls IH]; simpl.
  - destruct c; simpl; lia.
  - rewrite IH. lia.
  - rewrite IH. lia.
Qed.

Lemma elem_of_map_delete {A B} (g : A -> B) (l : list A) (i : nat) (x : A) (y : B) :
  NoDup (map g l) -> l !! i = Some x ->
  y ∈ map g (delete i l) <-> y ∈ map g l /\ y <> g x.
Proof.
  intros Hnd Hi.
  apply list_elem_of_split_length in Hi as (l1 & l2 & -> & ->).
  rewrite delete_middle. rewrite !map_app in *. simpl in *.
  apply NoDup_app in Hnd as (_ & Hdis & Hnd2).
  apply NoDup_cons in Hnd2 as [Hx _].
  rewrite !elem_of_app, elem_of_cons. split.
  - intros [H|H]; (split; [tauto|]); intros ->.
    + apply (Hdis _ H). apply list_elem_of_here.
    + done.
  - tauto.
Qed.

Lemma release_in_step (it : nat) (info : KernelInformation.t) (w : World) :
  _loadedKernels (manager w) !! it = Some info ->
  NoDup (map KernelInformation.path (_loadedKernels (manager w))) ->
  pool_in_step w ->
  pool_in_step (release it info (KernelInformation.path info) w).2.
Proof.
  intros Hit Hnd Hw p. rewrite release_run.
  destruct (KernelInformation.refCount info =? 1);
    [|destruct (KernelInformation.refCount info =? INT_MIN); [apply Hw|]];
    cbn [snd].
  - cbn [poolCalls manager]. rewrite pool_balance_app, (Hw p).
    unfold loadedKernels. cbn [set_loadedKernels _loadedKernels].
    destruct (String.eqb_spec (KernelInformation.path info) p) as [<-|Hne].
    + rewrite bool_decide_true
        by (apply list_elem_of_fmap; exists info;
            split; [done | by eapply list_elem_of_lookup_2]).
      rewrite bool_decide_false; [done|].
      rewrite (elem_of_map_delete _ _ _ info) by done. tauto.
    + rewrite Z.add_0_r. simpl.
      assert (Hiff : p ∈ map KernelInformation.path (_loadedKernels (manager w)) <->
                     p ∈ map KernelInformation.path
                           (delete it (_loadedKernels (manager w)))).
      { rewrite (elem_of_map_delete _ _ _ info) by done. split; [|tauto].
        intros H. split; [done | congruence]. }
      by rewrite (bool_decide_ext _ _ Hiff).
  - cbn [poolCalls manager with_registry]. rewrite (Hw p).
    unfold loadedKernels. cbn [set_loadedKernels _loadedKernels].
    by rewrite map_alter_same.
Qed.

(** X19.  The pool of the toolkit and the registry stay in step: for
    every path, [furnsh_c] was called once more than [unload_c] when the
    path is registered, and as often when it is not.  Both overloads of
    [unloadKernel] keep it so, and so does every [loadKernel] that returns:
    a path loaded again is not given to the toolkit again, and it is taken
    from the toolkit when its last reference goes. *)
Theorem pool_in_step_invariant tk (filePath : string) (kernelId : KernelHandle)
    (w : World) :
  NoDup (loadedKernels (manager w)) ->
  pool_in_step w ->
  ((exists h, (loadKernel tk filePath w).1 = Returned h) ->
   pool_in_step (loadKernel tk filePath w).2) /\
  pool_in_step (unloadKernel kernelId w).2 /\
  pool_in_step (unloadKernel_path tk filePath w).2.
Proof.
  intros Hnd Hw. split; [|split].
  - intros [h Hh].
    pose proof (loadKernel_cases tk filePath w) as H. cbv zeta in H.
    destruct (_loadedKernels (manager w) !! _) as [info|] eqn:E.
    + rewrite H in Hh |- *.
      destruct (KernelInformation.refCount info =? INT_MAX); [discriminate|].
      intros p. cbn [snd poolCalls manager with_registry].
      rewrite (Hw p). unfold loadedKernels. cbn [set_loadedKernels _loadedKernels].
      by rewrite map_alter_same.
    + apply find_if_lookup_None_inv in E. destruct H as [H Hcalls].
      destruct (loadKernel tk filePath w) as [[h'| |] w1];
        cbn [fst snd] in *; [|discriminate..].
      destruct H as (_ & Hks & _). intros p.
      rewrite Hcalls, pool_balance_app, (Hw p). unfold loadedKernels.
      rewrite Hks, map_app. simpl.
      destruct (String.eqb_spec (absPath tk filePath) p) as [<-|Hne].
      * rewrite bool_decide_false.
        -- rewrite bool_decide_true; [done|].
           rewrite elem_of_app, list_elem_of_singleton. tauto.
        -- intros (k & Hk1 & Hk2)%list_elem_of_fmap.
           pose proof (proj1 (Forall_forall _ _) E k Hk2) as Hk3. simpl in Hk3.
           unfold has_path in Hk3. apply String.eqb_neq in Hk3. congruence.
      * rewrite Z.add_0_r.
        assert (Hiff :
                  p ∈ map KernelInformation.path (_loadedKernels (manager w)) <->
                  p ∈ map KernelInformation.path (_loadedKernels (manager w))
                        ++ [absPath tk filePath]).
        { rewrite elem_of_app, list_elem_of_singleton. split; [tauto|].
          intros [?|?]; [done | congruence]. }
        by rewrite (bool_decide_ext _ _ Hiff).
  - unfold unloadKernel, bind at 1, get_manager at 1.
    destruct (_loadedKernels (manager w) !! _) as [info|] eqn:E; [|done].
    by apply release_in_step.
  - unfold unloadKernel_path, bind at 1, get_manager at 1.
    destruct (_loadedKernels (manager w) !! _) as [info|] eqn:E.
    + pose proof (find_if_lookup_Some _ _ _ E) as Hp.
      unfold has_path in Hp. apply String.eqb_eq in Hp.
      rewrite <- Hp in E |- *. by apply release_in_step.
    + by destruct (_useExceptions (manager w)).
Qed.

(** An instance of X19: the probe's kernel loaded twice and unloaded once. *)
Lemma pool_in_step_invariant_witness :
  let w1 := (loadKernel Demo.toolkit "probe.bsp" (Demo.world0 true)).2 in
  let w2 := (loadKernel Demo.toolkit "probe.bsp" w1).2 in
  pool_in_step w1 /\ pool_in_step w2 /\ pool_in_step (unloadKernel 1 w2).2.
Proof.
  intros w1 w2.
  assert (H0 : pool_in_step (Demo.world0 true)).
  { by intros p. }
  destruct (pool_in_step_invariant Demo.toolkit "probe.bsp" 1 (Demo.world0 true))
    as (H1 & _); [apply NoDup_nil_2 | exact H0 |].
  assert (Hw1 : pool_in_step w1) by (apply H1; by exists 1).
  destruct (pool_in_step_invariant Demo.toolkit "probe.bsp" 1 w1)
    as (H2 & _); [subst w1; cbn; apply NoDup_singleton | exact Hw1 |].
  assert (Hw2 : pool_in_step w2) by (apply H2; by exists 1).
  destruct (pool_in_step_invariant Demo.toolkit "probe.bsp" 1 w2)
    as (_ & H3 & _); [subst w2 w1; cbn; apply NoDup_singleton | exact Hw2 |].
  done.
Defined.

(** X20.  A load that throws leaves the kernel with the toolkit.  When
    [loadKernel] throws for a path that is not registered, [furnsh_c] was
    called for it and [unload_c] was not, the registry and the handle
    counter are as before, and [unloadKernel] of the path throws as for a
    kernel that was never loaded: when the error came from the indexing,
    after [furnsh_c] accepted the file, the manager cannot take the kernel
    out of the pool again. *)
Theorem loadKernel_throw_leaves_kernel_in_pool tk (filePath : string)
    (w w1 : World) (e : SpiceException) :
  Forall (fun k => has_path (absPath tk filePath) k = false)
         (_loadedKernels (manager w)) ->
  loadKernel tk filePath w = (Thrown e, w1) ->
  poolCalls w1 = poolCalls w ++ [Furnsh (absPath tk filePath)] /\
  loadedKernels (manager w1) = loadedKernels (manager w) /\
  _lastAssignedKernel (manager w1) = _lastAssignedKernel (manager w) /\
  unloadKernel_path tk filePath w1 = (Thrown (NotLoaded (absPath tk filePath)), w1).
Proof.
  intros Hfresh Hload.
  pose proof (loadKernel_cases tk filePath w) as H. cbv zeta in H.
  rewrite (find_if_lookup_None _ _ Hfresh), Hload in H.
  destruct H as [(Hks & Hlast & Hx & Hx1) Hcalls]. cbn [snd] in Hcalls.
  split; [exact Hcalls|]. split; [unfold loadedKernels; by rewrite Hks|].
  split; [exact Hlast|].
  unfold unloadKernel_path, bind at 1, get_manager at 1.
  rewrite Hks, (find_if_lookup_None _ _ Hfresh), Hx, Hx1. done.
Qed.

(** An instance of X20: a toolkit that accepts the probe's file and cannot
    read its ids. *)
Lemma loadKernel_throw_leaves_kernel_in_pool_witness :
  furnsh_c Scenario.unreadable_toolkit "probe.bsp" = true /\
  exists w1,
    loadKernel Scenario.unreadable_toolkit "probe.bsp" (Demo.world0 true)
      = (Thrown (SpiceError "Error finding Spk ID for coverage"), w1) /\
    poolCalls w1 = [Furnsh "probe.bsp"] /\
    loadedKernels (manager w1) = [] /\
    unloadKernel_path Scenario.unreadable_toolkit "probe.bsp" w1
      = (Thrown (NotLoaded "probe.bsp"), w1).
Proof.
  split; [reflexivity|].
  exists (loadKernel Scenario.unreadable_toolkit "probe.bsp" (Demo.world0 true)).2.
  destruct (loadKernel_throw_leaves_kernel_in_pool Scenario.unreadable_toolkit
              "probe.bsp" (Demo.world0 true)
              (loadKernel Scenario.unreadable_toolkit "probe.bsp" (Demo.world0 true)).2
              (SpiceError "Error finding Spk ID for coverage"))
    as (H1 & H2 & _ & H4).
  - apply Forall_nil_2.
  - vm_compute. reflexivity.
  - split; [vm_compute; reflexivity|]. split; [exact H1|]. split; [exact H2|].
    exact H4.
Defined.

(** ** Estimates without boundary points *)

(** X21.  What the estimators answer without consulting the toolkit.  For
    the barycenter, id 0, [getEstimatedPosition] returns the zero vector
    and the caller's light time in both modes.  For a body, or a frame, of
    which no boundary point is recorded, the estimators throw with
    exception handling on; with it off [getEstimatedPosition] returns the
    zero vector and the caller's light time, and
    [getEstimatedTransformMatrix] the identity.  The world is left as it
    was. *)
Theorem estimators_without_boundary_points tk (w : World)
    (target observer referenceFrame fromFrame toFrame : string)
    (aberrationCorrection : AberrationCorrection.t)
    (ephemerisTime lightTime : double) (targetId idFrame : Z) :
  naifId tk target (manager w) = Returned targetId ->
  frameId tk fromFrame (manager w) = Returned idFrame ->
  let estimate :=
    getEstimatedPosition tk target observer referenceFrame aberrationCorrection
      ephemerisTime lightTime w in
  (targetId = 0 -> estimate = (Returned (dvec3_splat zero, lightTime), w)) /\
  (targetId <> 0 -> _spkCoverageTimes (manager w) !! targetId = None ->
   estimate =
     (if _useExceptions (manager w) then Thrown (NoPosition target)
      else Returned (dvec3_splat zero, lightTime), w)) /\
  (_ckCoverageTimes (manager w) !! idFrame = None ->
   getEstimatedTransformMatrix tk fromFrame toFrame ephemerisTime w =
     (if _useExceptions (manager w) then Thrown (NoTransform fromFrame toFrame)
      else Returned (dmat3_diag one), w)).
Proof.
  intros Hid Hfr estimate. subst estimate.
  split; [|split].
  - intros ->. unfold getEstimatedPosition. unfold bind at 1, lift at 1.
    by rewrite Hid.
  - intros Hnz Hnone. unfold getEstimatedPosition. unfold bind at 1, lift at 1.
    rewrite Hid. destruct (Z.eqb_spec targetId 0) as [|_]; [done|].
    unfold bind at 1, get_manager at 1. rewrite Hnone.
    by destruct (_useExceptions (manager w)).
  - intros Hnone. unfold getEstimatedTransformMatrix.
    unfold bind at 1, lift at 1. rewrite Hfr.
    unfold bind at 1, get_manager at 1. rewrite Hnone.
    by destruct (_useExceptions (manager w)).
Qed.

(** An instance of X21: the Sun, of which no kernel was indexed, and a
    frame without CK coverage. *)
Lemma estimators_without_boundary_points_witness :
  getEstimatedPosition Demo.toolkit "SUN" "PROBE" "J2000"
    (AberrationCorrection.Build AberrationCorrection.None_
                                AberrationCorrection.Reception)
    (of_Z 50) one (Demo.probe_world false)
  = (Returned (dvec3_splat zero, one), Demo.probe_world false) /\
  getEstimatedTransformMatrix Demo.toolkit "J2000" "PROBE_FRAME" (of_Z 50)
    (Demo.probe_world true)
  = (Thrown (NoTransform "J2000" "PROBE_FRAME"), Demo.probe_world true).
Proof.
  split.
  - destruct (estimators_without_boundary_points Demo.toolkit
                (Demo.probe_world false) "SUN" "PROBE" "J2000" "J2000" "PROBE_FRAME"
                (AberrationCorrection.Build AberrationCorrection.None_
                                            AberrationCorrection.Reception)
                (of_Z 50) one 10 1 eq_refl eq_refl) as (_ & H & _).
    by apply H.
  - destruct (estimators_without_boundary_points Demo.toolkit
                (Demo.probe_world true) "SUN" "PROBE" "J2000" "J2000" "PROBE_FRAME"
                (AberrationCorrection.Build AberrationCorrection.None_
                                            AberrationCorrection.Reception)
                (of_Z 50) one 10 1 eq_refl eq_refl) as (_ & _ & H).
    by apply H.
Defined.

(** ** The exception mode matters on errors only *)

Lemma mode_blind_ret {A} (a : A) : mode_blind (ret a).
Proof. by intros w a' w' [= <- <-]. Qed.

Lemma mode_blind_bind {A B} (c : M A) (k : A -> M B) :
  mode_blind c -> (forall a, mode_blind (k a)) -> mode_blind (bind c k).
Proof.
  intros Hc Hk w b w2 H.
  apply bind_Returned in H as (a & w1 & H1 & H2).
  unfold bind. rewrite (Hc _ _ _ H1). by apply Hk.
Qed.

(** A continuation that reads the manager. *)
Lemma mode_blind_get_manager {B} (k : SpiceManager -> M B) :
  (forall m w b w',
     k m w = (Returned b, w') ->
     k (setExceptionHandling false m) (exceptions_off w)
       = (Returned b, exceptions_off w')) ->
  mode_blind (bind get_manager k).
Proof. intros Hk w b w' H. by apply Hk. Qed.

Lemma mode_blind_lift {A} (f : SpiceManager -> Outcome A) :
  (forall m a, f m = Returned a -> f (setExceptionHandling false m) = Returned a) ->
  mode_blind (lift f).
Proof.
  intros Hf w a w'. unfold lift. intros [= H <-].
  cbn [exceptions_off manager]. by rewrite (Hf _ _ H).
Qed.

Lemma mode_blind_call {A} (p : option A) (buffer : A) : mode_blind (call p buffer).
Proof. destruct p; by intros w a' w' [= <- <-]. Qed.

Lemma mode_blind_call_uninit {A} (p : option A) : mode_blind (call_uninit p).
Proof. destruct p; by intros w a' w' [= <- <-]. Qed.

Lemma mode_blind_deref {A} (o : option A) : mode_blind (deref_or_undefined o).
Proof. destruct o; [apply mode_blind_ret | by intros w a w']. Qed.

Lemma mode_blind_check_failed (msg : string) : mode_blind (check_failed msg).
Proof.
  intros w a w'. rewrite !check_failed_run. simpl.
  destruct (failed w); [destruct (_useExceptions (manager w))|];
    by intros [= <- <-].
Qed.

Lemma mode_blind_call_check {A B} (p : option A) (buffer : A) (msg : string)
    (k : A -> M B) :
  (forall a, mode_blind (k a)) ->
  mode_blind (let* r := call p buffer in check_failed msg ;;; k r).
Proof.
  intros Hk. apply mode_blind_bind; [apply mode_blind_call|]. intros r.
  apply mode_blind_bind; [apply mode_blind_check_failed|]. intros _. apply Hk.
Qed.

Lemma naifId_mode_blind tk (body : string) (m : SpiceManager) (id : Z) :
  naifId tk body m = Returned id ->
  naifId tk body (setExceptionHandling false m) = Returned id.
Proof.
  unfold naifId. destruct (bods2c_c tk body) as [i success]. simpl.
  rewrite andb_false_r. destruct success; simpl; [done|].
  by destruct (_useExceptions m).
Qed.

Lemma frameId_mode_blind tk (frame : string) (m : SpiceManager) (id : Z) :
  frameId tk frame m = Returned id ->
  frameId tk frame (setExceptionHandling false m) = Returned id.
Proof.
  unfold frameId. simpl.
  rewrite andb_false_r. by destruct ((namfrm_c tk frame =? 0) && _useExceptions m).
Qed.

Lemma hasSpkCoverage_mode_blind tk (target : string) (et : double)
    (m : SpiceManager) (b : bool) :
  hasSpkCoverage tk target et m = Returned b ->
  hasSpkCoverage tk target et (setExceptionHandling false m) = Returned b.
Proof.
  unfold hasSpkCoverage.
  destruct (naifId tk target m) as [id| |] eqn:E; [|done..].
  by rewrite (naifId_mode_blind _ _ _ _ E).
Qed.

Lemma mode_blind_scan_objects (msg : string) (cov : Z -> option intervals)
    (ins : Z -> double -> double -> M unit) (ids : list Z) :
  (forall obj b e, mode_blind (ins obj b e)) ->
  mode_blind (scan_objects msg cov ins ids).
Proof.
  intros Hins. induction ids as [|obj rest IH]; simpl; [apply mode_blind_ret|].
  apply mode_blind_call_check. intros cover.
  apply mode_blind_bind; [|by intros _].
  induction cover as [|[b e] cover IHc]; simpl; [apply mode_blind_ret|].
  apply mode_blind_bind; [apply mode_blind_check_failed|]. intros _.
  apply mode_blind_bind; [apply Hins | by intros _].
Qed.

Lemma mode_blind_release (it : nat) (info : KernelInformation.t) (path : string) :
  mode_blind (release it info path).
Proof.
  intros w a w'. rewrite !release_run.
  destruct (KernelInformation.refCount info =? 1);
    [|destruct (KernelInformation.refCount info =? INT_MIN)];
    by intros [= <- <-].
Qed.

Lemma mode_blind_obj_on_cell tk (path : string) :
  mode_blind (spkobj_on_cell tk path) /\ mode_blind (ckobj_on_cell tk path).
Proof.
  split; intros w a w'; unfold spkobj_on_cell, ckobj_on_cell; simpl.
  - destruct (spkobj_c tk path (spkIds w)); by intros [= <- <-].
  - destruct (ckobj_c tk path (ckIds w)); by intros [= <- <-].
Qed.

Lemma mode_blind_getEstimatedPosition tk (target observer referenceFrame : string)
    (aberrationCorrection : AberrationCorrection.t)
    (ephemerisTime lightTime : double) :
  mode_blind
    (getEstimatedPosition tk target observer referenceFrame aberrationCorrection
       ephemerisTime lightTime).
Proof.
  unfold getEstimatedPosition.
  apply mode_blind_bind; [apply mode_blind_lift, naifId_mode_blind|].
  intros targetId. destruct (targetId =? 0); [apply mode_blind_ret|].
  apply mode_blind_get_manager. intros m.
  change (_spkCoverageTimes (setExceptionHandling false m))
    with (_spkCoverageTimes m).
  destruct (_spkCoverageTimes m !! targetId) as [s|].
  2: { simpl. destruct (_useExceptions m); by intros w b w' [= <- <-]. }
  assert (H : forall c : M (dvec3 * double), mode_blind c ->
            forall w b w', c w = (Returned b, w') ->
              c (exceptions_off w) = (Returned b, exceptions_off w'))
    by (intros c Hc; exact Hc).
  apply H.
  destruct (Nat.eqb _ _).
  { apply mode_blind_bind; [apply mode_blind_deref|]. intros first.
    apply mode_blind_call_check. intros r. apply mode_blind_ret. }
  destruct (Nat.eqb _ _).
  { apply mode_blind_bind; [apply mode_blind_deref|]. intros tlast.
    apply mode_blind_call_check. intros r. apply mode_blind_ret. }
  apply mode_blind_bind; [apply mode_blind_deref|]. intros timeEarlier.
  apply mode_blind_bind; [apply mode_blind_call_uninit|]. intros earlier.
  apply mode_blind_bind; [apply mode_blind_deref|]. intros timeLater.
  apply mode_blind_bind; [apply mode_blind_call_uninit|]. intros later.
  apply mode_blind_bind; [apply mode_blind_check_failed|]. intros _.
  destruct earlier as [[? ?]|], later as [[? ?]|];
    first [apply mode_blind_ret | by intros w b w'].
Qed.

Lemma mode_blind_getEstimatedTransformMatrix tk (fromFrame toFrame : string)
    (time : double) :
  mode_blind (getEstimatedTransformMatrix tk fromFrame toFrame time).
Proof.
  unfold getEstimatedTransformMatrix.
  apply mode_blind_bind; [apply mode_blind_lift, frameId_mode_blind|].
  intros idFrame.
  apply mode_blind_get_manager. intros m.
  change (_ckCoverageTimes (setExceptionHandling false m))
    with (_ckCoverageTimes m).
  destruct (_ckCoverageTimes m !! idFrame) as [s|].
  2: { simpl. destruct (_useExceptions m); by intros w b w' [= <- <-]. }
  assert (H : forall c : M dmat3, mode_blind c ->
            forall w b w', c w = (Returned b, w') ->
              c (exceptions_off w) = (Returned b, exceptions_off w'))
    by (intros c Hc; exact Hc).
  apply H.
  destruct (Nat.eqb _ _).
  { apply mode_blind_bind; [apply mode_blind_deref|]. intros first.
    apply mode_blind_call_check. intros r. apply mode_blind_ret. }
  destruct (Nat.eqb _ _).
  { apply mode_blind_bind; [apply mode_blind_deref|]. intros tlast.
    apply mode_blind_call_check. intros r. apply mode_blind_ret. }
  apply mode_blind_bind; [apply mode_blind_deref|]. intros earlier.
  apply mode_blind_bind; [apply mode_blind_deref|]. intros later.
  apply mode_blind_call_check. intros earlierTransform.
  apply mode_blind_call_check. intros laterTransform. apply mode_blind_ret.
Qed.

(** X22.  The exception mode matters on errors only: whatever a member
    function returns with exception handling on, it returns with exception
    handling off as well, and with the same effect on the manager and the
    toolkit.  This holds of [loadKernel], both overloads of [unloadKernel],
    [targetPosition], both estimators and both frame transformations. *)
Theorem exception_mode_matters_on_errors_only tk (filePath : string)
    (kernelId : KernelHandle) (target observer referenceFrame : string)
    (fromFrame toFrame : string) (aberrationCorrection : AberrationCorrection.t)
    (ephemerisTime lightTime : double) :
  mode_blind (loadKernel tk filePath) /\
  mode_blind (unloadKernel kernelId) /\
  mode_blind (unloadKernel_path tk filePath) /\
  mode_blind (targetPosition tk target observer referenceFrame
                aberrationCorrection ephemerisTime lightTime) /\
  mode_blind (getEstimatedPosition tk target observer referenceFrame
                aberrationCorrection ephemerisTime lightTime) /\
  mode_blind (getEstimatedTransformMatrix tk fromFrame toFrame ephemerisTime) /\
  mode_blind (positionTransformMatrix tk fromFrame toFrame ephemerisTime) /\
  mode_blind (frameTransformationMatrix tk fromFrame toFrame ephemerisTime).
Proof.
  repeat split.
  - unfold loadKernel. apply mode_blind_get_manager. intros m.
    change (_loadedKernels (setExceptionHandling false m)) with (_loadedKernels m).
    destruct (_loadedKernels m !! _) as [info|];
      [destruct (_ =? INT_MAX); by intros w b w' [= <- <-]|].
    assert (H : forall c : M KernelHandle, mode_blind c ->
              forall w b w', c w = (Returned b, w') ->
                c (exceptions_off w) = (Returned b, exceptions_off w'))
      by (intros c Hc; exact Hc).
    apply H.
    apply mode_blind_bind; [by intros w b w' [= <- <-]|]. intros _.
    apply mode_blind_bind;
      [destruct (furnsh_c tk _); by intros w b w' [= <- <-]|]. intros _.
    apply mode_blind_bind; [apply mode_blind_check_failed|]. intros _.
    apply mode_blind_bind.
    { destruct (is_coverage_extension _ ".bc" ".BC").
      - unfold findCkCoverage.
        apply mode_blind_bind; [apply mode_blind_obj_on_cell|]. intros ids.
        apply mode_blind_bind; [apply mode_blind_check_failed|]. intros _.
        apply mode_blind_scan_objects. by intros obj b e w a w' [= <- <-].
      - destruct (is_coverage_extension _ ".bsp" ".BSP"); [|apply mode_blind_ret].
        unfold findSpkCoverage.
        apply mode_blind_bind; [apply mode_blind_obj_on_cell|]. intros ids.
        apply mode_blind_bind; [apply mode_blind_check_failed|]. intros _.
        apply mode_blind_scan_objects. by intros obj b e w a w' [= <- <-]. }
    intros _. by intros w b w' [= <- <-].
  - unfold unloadKernel. apply mode_blind_get_manager. intros m.
    change (_loadedKernels (setExceptionHandling false m)) with (_loadedKernels m).
    destruct (_loadedKernels m !! _) as [info|]; [apply mode_blind_release|].
    apply mode_blind_ret.
  - unfold unloadKernel_path. apply mode_blind_get_manager. intros m.
    change (_loadedKernels (setExceptionHandling false m)) with (_loadedKernels m).
    destruct (_loadedKernels m !! _) as [info|]; [apply mode_blind_release|].
    simpl. destruct (_useExceptions m); by intros w b w' [= <- <-].
  - unfold targetPosition.
    apply mode_blind_bind; [apply mode_blind_lift, hasSpkCoverage_mode_blind|].
    intros targetHasCoverage.
    apply mode_blind_bind; [apply mode_blind_lift, hasSpkCoverage_mode_blind|].
    intros observerHasCoverage.
    destruct (negb targetHasCoverage && negb observerHasCoverage).
    { apply mode_blind_get_manager. intros m. simpl.
      destruct (_useExceptions m); by intros w b w' [= <- <-]. }
    destruct (targetHasCoverage && observerHasCoverage).
    { apply mode_blind_call_check. intros r. apply mode_blind_ret. }
    destruct targetHasCoverage.
    + apply mode_blind_bind; [apply mode_blind_getEstimatedPosition|].
      intros r. apply mode_blind_ret.
    + apply mode_blind_getEstimatedPosition.
  - apply mode_blind_getEstimatedPosition.
  - apply mode_blind_getEstimatedTransformMatrix.
  - intros w b w'. rewrite !positionTransformMatrix_run. cbv zeta. simpl.
    rewrite andb_false_r. by destruct (_ && _); intros [= <- <-].
  - unfold frameTransformationMatrix. apply mode_blind_call_check.
    intros r. apply mode_blind_ret.
Qed.

(** An instance of X22: the probe's kernel loaded with exception handling on
    and off. *)
Lemma exception_mode_matters_on_errors_only_witness :
  loadKernel Demo.toolkit "probe.bsp" (exceptions_off (Demo.world0 true))
  = (Returned 1,
     exceptions_off (loadKernel Demo.toolkit "probe.bsp" (Demo.world0 true)).2).
Proof.
  destruct (exception_mode_matters_on_errors_only Demo.toolkit "probe.bsp" 1
              "PROBE" "SSB" "J2000" "PROBE_FRAME" "J2000"
              (AberrationCorrection.Build AberrationCorrection.None_
                                          AberrationCorrection.Reception)
              (of_Z 50) zero) as [H _].
  apply H. vm_compute. reflexivity.
Defined.

(** ** The coverage queries agree *)

(** X23.  The two kinds of coverage query agree.  [hasSpkCoverage] accepts
    a time exactly when the body is the barycenter or the time lies strictly
    inside an interval that [spkCoverage] returns for the body.
    [hasCkCoverage] accepts a time exactly when it lies strictly inside an
    interval recorded for the id of the frame, with no exception for the id
    0; and when the name given to [ckCoverage] resolves to that id, and the
    id has an entry, these are the intervals [ckCoverage] returns. *)
Theorem coverage_queries_agree tk (target frame : string) (et : double)
    (m : SpiceManager) (X idFrame : Z) :
  naifId tk target m = Returned X ->
  frameId tk frame m = Returned idFrame ->
  (exists l,
     spkCoverage tk target m = Returned l /\
     (hasSpkCoverage tk target et m = Returned true <->
      X = 0 \/ exists i, i ∈ l /\ (i.1 <? et)%D = true /\ (et <? i.2)%D = true)) /\
  (hasCkCoverage tk frame et m = Returned true <->
   exists i, i ∈ default [] (_ckIntervals m !! idFrame) /\
             (i.1 <? et)%D = true /\ (et <? i.2)%D = true) /\
  (forall l, X = idFrame -> _ckIntervals m !! idFrame = Some l ->
             ckCoverage tk target m = Returned l).
Proof.
  intros Hid Hfr.
  assert (Hin : forall l,
            inside_some_interval l et = true <->
            exists i, i ∈ l /\ (i.1 <? et)%D = true /\ (et <? i.2)%D = true).
  { intros l. rewrite inside_some_interval_true.
    split; intros (i & Hi & H1 & H2); exists i; repeat split; try done.
    - by rewrite <- gtb_ltb.
    - by rewrite gtb_ltb. }
  split; [|split].
  - exists (default [] (_spkIntervals m !! X)). split.
    + unfold spkCoverage. rewrite Hid. simpl. by destruct (_spkIntervals m !! X).
    + destruct (Z.eq_dec X 0) as [->|Hnz].
      * unfold hasSpkCoverage. rewrite Hid. simpl. tauto.
      * rewrite (hasSpkCoverage_body tk m target X et Hid Hnz), <- Hin.
        split; [intros [= H]; by right | intros [?|H]; [done | by rewrite H]].
  - unfold hasCkCoverage. rewrite Hfr. simpl. rewrite <- Hin.
    destruct (_ckIntervals m !! idFrame); simpl; split; congruence.
  - intros l -> Hl. unfold ckCoverage. rewrite Hid. simpl. by rewrite Hl.
Qed.

(** An instance of X23: the probe at 150 and its frame at 150. *)
Lemma coverage_queries_agree_witness :
  spkCoverage Demo.toolkit "PROBE" (Demo.probe_manager true)
    = Returned [(of_Z 100, of_Z 200)] /\
  hasSpkCoverage Demo.toolkit "PROBE" (of_Z 150) (Demo.probe_manager true)
    = Returned true /\
  hasCkCoverage Demo.toolkit "PROBE_FRAME" (of_Z 150)
    (manager (Demo.frame_world true)) = Returned true.
Proof.
  destruct (coverage_queries_agree Demo.toolkit "PROBE" "PROBE_FRAME" (of_Z 150)
              (Demo.probe_manager true) (-98) (-98000) eq_refl eq_refl)
    as ((l & Hl & Hspk) & _ & _).
  destruct (coverage_queries_agree Demo.toolkit "PROBE" "PROBE_FRAME" (of_Z 150)
              (manager (Demo.frame_world true)) (-98) (-98000) eq_refl eq_refl)
    as (_ & Hck & _).
  split; [reflexivity|]. split.
  - apply Hspk. right. exists (of_Z 100, of_Z 200).
    assert (El : Returned l = Returned [(of_Z 100, of_Z 200)])
      by (rewrite <- Hl; reflexivity).
    injection El as ->. split; [apply list_elem_of_here | by split].
  - apply Hck. exists (of_Z 100, of_Z 200).
    split; [apply list_elem_of_here | by split].
Defined.
